(** * Cycling tire pressure calculator: pressure models and wind-heading optimizer

    A shallow embedding of the three computational modules of the repository
    ([src/lib/calc.ts], [src/utils/pressureComp.ts], the [BestWindDirection]
    component with its helpers and the [useWind] helpers) together with the
    properties stated about them, and of what surrounds them: the
    nearest-hour selection of the two weather fetches, [recommendPressures]
    from its resolved fetches on, the URL state ([src/lib/urlState.ts]) and
    the derived values, preset handling and persistence of [src/App.tsx].

    Effects.  Network responses, the geolocation and [String(n)] are
    arguments of the functions that use them; the query string is the list of
    pairs a [URLSearchParams] holds, passed in and returned.

    Numbers.  A JavaScript [number] is modelled by the type [num]: a finite
    value carried by a real number, or one of [+Infinity], [-Infinity], [NaN]
    (there is a single zero); the non-finite cases follow the ECMAScript
    definitions of the operators.

    The numeric functions are embedded twice.  In the modules named after the
    source files the arithmetic on finite values is exact; they carry the
    properties of the structure of the computation: orderings, ranges, the
    branch taken, the shape of the results.  In [Binary64] and [Binary64Wind]
    the same functions are written with the binary64 operators, each of which
    rounds the exact result to the nearest Number ([B64.round]: 53 bits, ties
    to even, gradual underflow, overflow to an infinity); there a decimal
    literal denotes the Number nearest to it, [Math.PI] is the Number
    3.141592653589793, and [Math.cos] and [Math.sin] are taken as correctly
    rounded.  What rounding decides is stated there: whether a result is
    returned unchanged, how far two computations of one quantity are apart,
    and whether the lattice loop advances. *)

From Stdlib Require Import Reals Lra Lia ZArith List String Bool.
From Stdlib Require Import Zfloor.
From Stdlib Require Import Sorting.Sorted.
From Stdlib Require Import Machin.
Import ListNotations.

Open Scope R_scope.

(** ** JavaScript numbers *)

Inductive num : Type :=
| Fin (x : R)
| PInf
| NInf
| NaN.

Declare Scope num_scope.
Delimit Scope num_scope with num.
Bind Scope num_scope with num.
Arguments Fin x%_R.

Definition Rltb (x y : R) : bool := if Rlt_dec x y then true else false.
Definition Reqb (x y : R) : bool := if Req_dec_T x y then true else false.

(** Truncation toward zero, the integer quotient of the [%] operator. *)
Definition Ztrunc (x : R) : Z := if Rltb x 0 then Zceil x else Zfloor x.

Module Num.

Definition neg (a : num) : num :=
  match a with
  | Fin x => Fin (- x)
  | PInf => NInf
  | NInf => PInf
  | NaN => NaN
  end.

Definition add (a b : num) : num :=
  match a, b with
  | NaN, _ | _, NaN => NaN
  | Fin x, Fin y => Fin (x + y)
  | PInf, NInf | NInf, PInf => NaN
  | PInf, _ | _, PInf => PInf
  | NInf, _ | _, NInf => NInf
  end.

Definition sub (a b : num) : num := add a (neg b).

(** The infinity whose sign is the sign of [x] times [s]; [NaN] at zero. *)
Definition inf_of_sign (x : R) (positive : bool) : num :=
  if Rltb 0 x then (if positive then PInf else NInf)
  else if Rltb x 0 then (if positive then NInf else PInf)
  else NaN.

Definition mul (a b : num) : num :=
  match a, b with
  | NaN, _ | _, NaN => NaN
  | Fin x, Fin y => Fin (x * y)
  | Fin x, PInf | PInf, Fin x => inf_of_sign x true
  | Fin x, NInf | NInf, Fin x => inf_of_sign x false
  | PInf, PInf | NInf, NInf => PInf
  | PInf, NInf | NInf, PInf => NInf
  end.

Definition div (a b : num) : num :=
  match a, b with
  | NaN, _ | _, NaN => NaN
  | Fin x, Fin y => if Reqb y 0 then inf_of_sign x true else Fin (x / y)
  | Fin _, PInf | Fin _, NInf => Fin 0
  | PInf, Fin y => if Rltb y 0 then NInf else PInf
  | NInf, Fin y => if Rltb y 0 then PInf else NInf
  | _, _ => NaN
  end.

(** The [%] operator: the remainder has the sign of the dividend. *)
Definition rem (a b : num) : num :=
  match a, b with
  | NaN, _ | _, NaN => NaN
  | PInf, _ | NInf, _ => NaN
  | Fin x, PInf | Fin x, NInf => Fin x
  | Fin x, Fin y => if Reqb y 0 then NaN else Fin (x - y * IZR (Ztrunc (x / y)))
  end.

Definition lt (a b : num) : bool :=
  match a, b with
  | NaN, _ | _, NaN => false
  | Fin x, Fin y => Rltb x y
  | _, NInf => false
  | NInf, _ => true
  | PInf, _ => false
  | Fin _, PInf => true
  end.

Definition le (a b : num) : bool :=
  match a, b with
  | NaN, _ | _, NaN => false
  | _, _ => negb (lt b a)
  end.

Definition gt (a b : num) : bool := lt b a.
Definition ge (a b : num) : bool := le b a.

Definition isFinite (a : num) : bool :=
  match a with Fin _ => true | _ => false end.

(** [Math.abs], [Math.max], [Math.min], [Math.round], [Math.cos], [Math.sin]. *)
Definition abs (a : num) : num :=
  match a with
  | Fin x => Fin (Rabs x)
  | PInf | NInf => PInf
  | NaN => NaN
  end.

Definition max (a b : num) : num :=
  match a, b with
  | NaN, _ | _, NaN => NaN
  | _, _ => if lt a b then b else a
  end.

Definition min (a b : num) : num :=
  match a, b with
  | NaN, _ | _, NaN => NaN
  | _, _ => if lt b a then b else a
  end.

Definition round (a : num) : num :=
  match a with
  | Fin x => Fin (IZR (Zfloor (x + / 2)))
  | _ => a
  end.

Definition cos (a : num) : num :=
  match a with Fin x => Fin (Rtrigo_def.cos x) | _ => NaN end.

Definition sin (a : num) : num :=
  match a with Fin x => Fin (Rtrigo_def.sin x) | _ => NaN end.

(** [arr[i]] for a number [i]: the element when [i] is an integer index of the
    array, [undefined] (here [None]) otherwise. *)
Definition index {A : Type} (arr : list A) (i : num) : option A :=
  match i with
  | Fin x =>
      if Reqb x (IZR (Zfloor x)) && negb (Rltb x 0)
      then nth_error arr (Z.to_nat (Zfloor x))
      else None
  | _ => None
  end.

(** [Math.pow]: the cases of the exponentiation operator, with the finite
    power taken exactly. *)
Definition isInteger (x : R) : bool := Reqb x (IZR (Zfloor x)).
Definition isOddInteger (x : R) : bool := isInteger x && Z.odd (Zfloor x).

Definition pow (base exponent : num) : num :=
  match exponent with
  | NaN => NaN
  | Fin y =>
      if Reqb y 0 then Fin 1
      else
        match base with
        | NaN => NaN
        | PInf => if Rltb 0 y then PInf else Fin 0
        | NInf =>
            if Rltb 0 y then (if isOddInteger y then NInf else PInf) else Fin 0
        | Fin x =>
            if Reqb x 0 then (if Rltb 0 y then Fin 0 else PInf)
            else if Rltb x 0
                 then (if isInteger y then Fin (powerRZ x (Zfloor y)) else NaN)
                 else Fin (Rpower x y)
        end
  | PInf =>
      match base with
      | NaN => NaN
      | PInf | NInf => PInf
      | Fin x =>
          if Rltb 1 (Rabs x) then PInf else if Reqb (Rabs x) 1 then NaN else Fin 0
      end
  | NInf =>
      match base with
      | NaN => NaN
      | PInf | NInf => Fin 0
      | Fin x =>
          if Rltb 1 (Rabs x) then Fin 0 else if Reqb (Rabs x) 1 then NaN else PInf
      end
  end.

End Num.

Infix "+" := Num.add : num_scope.
Infix "-" := Num.sub : num_scope.
Infix "*" := Num.mul : num_scope.
Infix "/" := Num.div : num_scope.
Notation "a 'mod' b" := (Num.rem a b) : num_scope.
Infix "<?" := Num.lt : num_scope.
Infix "<=?" := Num.le : num_scope.
Infix ">?" := Num.gt : num_scope.
Infix ">=?" := Num.ge : num_scope.

(** ** Baseline pressure model ([src/lib/calc.ts], [src/constants.ts]) *)

Module Calc.

Inductive Surface : Type :=
| TrackIndoorWood
| TrackOutdoorConcrete
| NewPavement
| WornPavementSomeCracks
| PoorPavementChipseal
| Cobblestone
| Category1Gravel
| Category2Gravel
| Category3Gravel
| Category4Gravel.

Inductive WheelDiameter : Type :=
| W700C_29
| W650C
| W650B_27_5
| W26.

Inductive TireType : Type :=
| HighPerformanceTubelessLatex
| MidRangeCasingTubelessLatex
| MidRangeCasingButyl
| PunctureResistantTubelessLatex.

Inductive Speed : Type :=
| Recreational
| ModerateGroupRide
| FastGroupRide
| Cat123Racing
| ProTour
| FastSingleTrack.

Definition K : num := Fin 20.

Definition SURFACE_MULT (s : Surface) : num :=
  match s with
  | TrackIndoorWood => Fin 0.2
  | TrackOutdoorConcrete => Fin 0.15
  | NewPavement => Fin 0.05
  | WornPavementSomeCracks => Fin 0
  | PoorPavementChipseal => Fin (-0.1)
  | Cobblestone => Fin (-0.2)
  | Category1Gravel => Fin (-0.25)
  | Category2Gravel => Fin (-0.35)
  | Category3Gravel => Fin (-0.45)
  | Category4Gravel => Fin (-0.55)
  end.

Definition TIRE_TYPE_OFFSET (t : TireType) : num :=
  match t with
  | HighPerformanceTubelessLatex => Fin 0
  | MidRangeCasingTubelessLatex => Fin 2
  | MidRangeCasingButyl => Fin 5
  | PunctureResistantTubelessLatex => Fin 7
  end.

Definition SPEED_MULT (s : Speed) : num :=
  match s with
  | Recreational => Fin (-0.05)
  | ModerateGroupRide => Fin 0
  | FastGroupRide => Fin 0.03
  | Cat123Racing => Fin 0.05
  | ProTour => Fin 0.07
  | FastSingleTrack => Fin 0.03
  end.

Definition clamp (v lo hi : num) : num := Num.max lo (Num.min hi v).

Record ComputeWheelPsiParams : Type := {
  loadLbs : num;
  tireWidthMm : num;
  surface : Surface;
  speed : Speed;
  tireType : TireType;
  wheelDiameter : WheelDiameter  (* reserved for future use *)
}.

Definition computeWheelPsi (p : ComputeWheelPsiParams) : num :=
  let safeTireWidthMm := clamp (tireWidthMm p) (Fin 20) (Fin 90) in
  let psi := (K * (loadLbs p / safeTireWidthMm))%num in
  let psi := (psi * (Fin 1 + SURFACE_MULT (surface p)))%num in
  let psi := (psi * (Fin 1 + SPEED_MULT (speed p)))%num in
  let psi := (psi + TIRE_TYPE_OFFSET (tireType p))%num in
  clamp psi (Fin 15) (Fin 130).

Definition PSI_PER_BAR : num := Fin 14.5037738.

Definition toBar (psi : num) : num := (psi / PSI_PER_BAR)%num.

End Calc.

(** ** Pressure compensation model ([src/utils/pressureComp.ts]) *)

Module PressureComp.

Definition KPA_TO_PSI : num := Fin 0.1450377377.

(** Kelvin helper *)
Definition C_to_K (c : num) : num := (c + Fin 273.15)%num.

(** [keepAbsoluteConstant] defaults to [false] at the call site. *)
Definition compensatePressurePsi
    (gaugePsiRef refTempC ambientTempC ambientPressurePsi : num)
    (keepAbsoluteConstant : bool) : num :=
  let T_ref := C_to_K refTempC in
  let T_now := C_to_K ambientTempC in
  let P_abs_ref := (gaugePsiRef + ambientPressurePsi)%num in
  if keepAbsoluteConstant then
    let P_abs_target := P_abs_ref in
    let P_gauge_now := (P_abs_target - ambientPressurePsi)%num in
    P_gauge_now
  else
    let P_abs_now := (P_abs_ref * (T_now / T_ref))%num in
    let P_gauge_now := (P_abs_now - ambientPressurePsi)%num in
    P_gauge_now.

Definition round1 (n : num) : num := (Num.round (n * Fin 10) / Fin 10)%num.
Definition round2 (n : num) : num := (Num.round (n * Fin 100) / Fin 100)%num.

(** Standard atmosphere: ambient pressure (kPa) from elevation (meters). *)
Definition ambientPressureAtElevation_kPa (h_m : num) : num :=
  let P0 := Fin 101.325 in
  let pressure := (P0 * Num.pow (Fin 1 - Fin 2.25577e-5 * h_m) (Fin 5.25588))%num in
  pressure.

End PressureComp.

(** ** Wind heading optimizer ([BestWindDirection.tsx]) and wind helpers
       ([src/hooks/useWind.ts]) *)

Module Wind.

Definition clampDeg (deg : num) : num := (((deg mod Fin 360) + Fin 360) mod Fin 360)%num.
Definition toRad (deg : num) : num := ((deg * Fin PI) / Fin 180)%num.

(** Smallest signed angular difference a - b in [-180, 180] *)
Definition angleDiff (a b : num) : num :=
  let d := (clampDeg a - clampDeg b)%num in
  let wrapped := (((d + Fin 540) mod Fin 360) - Fin 180)%num in
  wrapped.

Definition COMPASS_16 : list string :=
  ["N"; "NNE"; "NE"; "ENE"; "E"; "ESE"; "SE"; "SSE";
   "S"; "SSW"; "SW"; "WSW"; "W"; "WNW"; "NW"; "NNW"]%string.

Definition bearingToCompass (deg : num) : option string :=
  let i := (Num.round (clampDeg deg / Fin 22.5) mod Fin 16)%num in
  Num.index COMPASS_16 i.

Record Recommendation : Type := {
  headingDeg : num;               (* where to ride (bearing TO) *)
  headingLabel : option string;   (* e.g., "ESE" *)
  score : num;                    (* higher is better *)
  tailComponent : num;            (* +tailwind *)
  crossComponent : num;           (* |crosswind| *)
  windTowardDeg : num             (* wind vector direction (FROM+180) *)
}.

(** An absent (undefined) option is [None]; destructuring fills in defaults. *)
Record RecommendOptions : Type := {
  resolutionDeg : option num;
  crosswindPenalty : option num;
  allowedHeadings : option (list (num * num));
  minSeparationDeg : option num;
  topK : option num
}.

Definition noOptions : RecommendOptions :=
  {| resolutionDeg := None; crosswindPenalty := None; allowedHeadings := None;
     minSeparationDeg := None; topK := None |}.

Definition orDefault (o : option num) (d : num) : num :=
  match o with Some v => v | None => d end.

Definition inIntervals (x : num) (ranges : option (list (num * num))) : bool :=
  match ranges with
  | None | Some [] => true
  | Some rs =>
      let d := clampDeg x in
      existsb (fun ab : num * num =>
                 let A := clampDeg (fst ab) in
                 let B := clampDeg (snd ab) in
                 if (A <=? B)%num then (d >=? A)%num && (d <=? B)%num
                 else (* wrapped interval (e.g., 300..30) *)
                   (d >=? A)%num || (d <=? B)%num) rs
  end.

Module Scored.
Record t : Type := {
  score : num;
  tailComponent : num;
  crossComponent : num;
  windTowardDeg : num
}.
End Scored.

Definition scoreHeading (windFromDeg windSpeed headingDeg : num)
    (crosswindPenalty : option num) : Scored.t :=
  let crosswindPenalty := orDefault crosswindPenalty (Fin 0.4) in
  (* Convert meteorological wind (FROM) to vector direction (TOWARD) *)
  let windTowardDeg := clampDeg (windFromDeg + Fin 180) in
  let delta := angleDiff headingDeg windTowardDeg in
  let tail := (windSpeed * Num.cos (toRad delta))%num in
  let cross := Num.abs (windSpeed * Num.sin (toRad delta)) in
  let score := (tail - crosswindPenalty * cross)%num in
  {| Scored.score := score; Scored.tailComponent := tail;
     Scored.crossComponent := cross; Scored.windTowardDeg := windTowardDeg |}.

Definition candidate (windFromDeg windSpeed crosswindPenalty h : num) : Recommendation :=
  let r := scoreHeading windFromDeg windSpeed h (Some crosswindPenalty) in
  {| headingDeg := h;
     headingLabel := bearingToCompass h;
     score := Scored.score r;
     tailComponent := Scored.tailComponent r;
     crossComponent := Scored.crossComponent r;
     windTowardDeg := Scored.windTowardDeg r |}.

(** The lattice loop [for (let h = 0; h < 360; h += resolutionDeg)], one
    iteration per unit of fuel; [None] when the fuel runs out before the loop
    condition fails. *)
Fixpoint lattice (fuel : nat) (windFromDeg windSpeed resolutionDeg crosswindPenalty : num)
    (allowedHeadings : option (list (num * num)))
    (h : num) (candidates : list Recommendation) : option (list Recommendation) :=
  match fuel with
  | O => None
  | S fuel' =>
      if (h <? Fin 360)%num then
        let candidates' :=
          if negb (inIntervals h allowedHeadings) then candidates
          else candidates ++ [candidate windFromDeg windSpeed crosswindPenalty h] in
        lattice fuel' windFromDeg windSpeed resolutionDeg crosswindPenalty
                allowedHeadings (h + resolutionDeg)%num candidates'
      else Some candidates
  end.

(** [candidates.sort((a, b) => b.score - a.score)]: the sort is stable, the
    comparator's result [v] puts [a] after [b] when [v > 0], and a [NaN] result
    counts as [0].  Modelled as a stable insertion sort. *)
Definition compareScore (a b : Recommendation) : num := (score b - score a)%num.

Fixpoint insertSorted (x : Recommendation) (l : list Recommendation) : list Recommendation :=
  match l with
  | [] => [x]
  | y :: l' =>
      if (compareScore x y >? Fin 0)%num then y :: insertSorted x l'
      else x :: y :: l'
  end.

Fixpoint sortByScore (l : list Recommendation) : list Recommendation :=
  match l with
  | [] => []
  | x :: l' => insertSorted x (sortByScore l')
  end.

(** The selection loop: [picked] grows at its end, the loop breaks once
    [picked.length >= topK]. *)
Fixpoint pick (topK minSeparationDeg : num) (candidates picked : list Recommendation)
    : list Recommendation :=
  match candidates with
  | [] => picked
  | c :: rest =>
      if (Fin (INR (List.length picked)) >=? topK)%num then picked
      else
        let tooClose :=
          existsb (fun p => (Num.abs (angleDiff (headingDeg p) (headingDeg c))
                             <? minSeparationDeg)%num) picked in
        if negb tooClose then pick topK minSeparationDeg rest (picked ++ [c])
        else pick topK minSeparationDeg rest picked
  end.

Definition recommendHeadings (fuel : nat) (windFromDeg windSpeed : num)
    (opts : RecommendOptions) : option (list Recommendation) :=
  let resolutionDeg := orDefault (resolutionDeg opts) (Fin 5) in
  let crosswindPenalty := orDefault (crosswindPenalty opts) (Fin 0.4) in
  let allowedHeadings := allowedHeadings opts in
  let minSeparationDeg := orDefault (minSeparationDeg opts) (Fin 15) in
  let topK := orDefault (topK opts) (Fin 3) in
  match lattice fuel windFromDeg windSpeed resolutionDeg crosswindPenalty
                allowedHeadings (Fin 0) [] with
  | None => None
  | Some candidates =>
      (* Sort by score descending *)
      let candidates := sortByScore candidates in
      (* Deduplicate near-duplicates to ensure varied bearings *)
      Some (pick topK minSeparationDeg candidates [])
  end.

(** What the [BestWindDirection] component renders: the neutral "No wind data
    available." card, or the header with one card per recommendation. *)
Inductive View : Type :=
| NoWindData
| Cards (windFromLabel windTowardLabel : option string) (windTowardDeg : num)
        (top : list Recommendation).

Definition BestWindDirection (fuel : nat) (windFromDeg windSpeed : num)
    (options : RecommendOptions) : option View :=
  match recommendHeadings fuel windFromDeg windSpeed options with
  | None => None
  | Some top =>
      let windTowardDeg := clampDeg (windFromDeg + Fin 180) in
      let windFromLabel := bearingToCompass windFromDeg in
      let windTowardLabel := bearingToCompass windTowardDeg in
      if negb (Num.isFinite windFromDeg) || negb (Num.isFinite windSpeed)
      then Some NoWindData
      else Some (Cards windFromLabel windTowardLabel windTowardDeg top)
  end.

(** *** [src/hooks/useWind.ts] *)

Definition toCompass (deg : num) : option string :=
  let dirs := ["N"; "NNE"; "NE"; "ENE"; "E"; "ESE"; "SE"; "SSE";
               "S"; "SSW"; "SW"; "WSW"; "W"; "WNW"; "NW"; "NNW"]%string in
  let i := (Num.round ((deg mod Fin 360) / Fin 22.5) mod Fin 16)%num in
  Num.index dirs i.

Record WindComponents : Type := {
  headwind : num;
  headOrTail : string;
  crosswind : num;
  side : string
}.

(** The local [headwindSigned] of [windComponents]. *)
Definition headwindSigned (windFromDeg headingDeg speed : num) : num :=
  let alpha := (((windFromDeg - headingDeg + Fin 360) mod Fin 360) * (Fin PI / Fin 180))%num in
  (speed * Num.cos alpha)%num.

Definition windComponents (windFromDeg headingDeg speed : num) : WindComponents :=
  let alpha := (((windFromDeg - headingDeg + Fin 360) mod Fin 360) * (Fin PI / Fin 180))%num in
  let headwindSigned := (speed * Num.cos alpha)%num in
  let crossAbs := Num.abs (speed * Num.sin alpha) in
  let beta := (((windFromDeg - headingDeg + Fin 540) mod Fin 360) - Fin 180)%num in
  {| headwind := Num.abs headwindSigned;
     headOrTail := if (headwindSigned >=? Fin 0)%num then "headwind" else "tailwind";
     crosswind := crossAbs;
     side := if (beta <? Fin 0)%num then "left" else "right" |}.

End Wind.

(** ** Nearest hourly sample ([fetchOpenMeteoTempC] in
       [src/utils/pressureComp.ts], and the same loop in [useWind]) *)

Module Hourly.

(** A thrown [Error] with its message, or a returned value. *)
Inductive result (A : Type) : Type :=
| Ok (value : A)
| Thrown (message : string).
Arguments Ok {A} value.
Arguments Thrown {A} message.

(** The loop [for (let i = 0; i < times.length; i++)] from index [i] on, over
    the epoch milliseconds of the remaining samples:
    [if (d < bestDelta) { bestDelta = d; bestIdx = i; }]. *)
Fixpoint nearestFrom (tMs : list num) (targetMs : num) (i bestIdx : nat) (bestDelta : num)
    : nat * num :=
  match tMs with
  | [] => (bestIdx, bestDelta)
  | t :: rest =>
      let d := Num.abs (t - targetMs) in
      if (d <? bestDelta)%num then nearestFrom rest targetMs (S i) i d
      else nearestFrom rest targetMs (S i) bestIdx bestDelta
  end.

(** [bestIdx = 0], [bestDelta = Number.POSITIVE_INFINITY]. *)
Definition nearestIndex (tMs : list num) (targetMs : num) : nat :=
  fst (nearestFrom tMs targetMs 0 0 PInf).

(** [fetchOpenMeteoTempC] from the decoded response on: [times] and [temps]
    are [data?.hourly?.time ?? []] and [data?.hourly?.temperature_2m ?? []],
    [getTime] is [new Date(s).getTime()] and [targetMs] is [when.getTime()].
    [temps[bestIdx]] is [None] when the array has no such index
    ([undefined]). *)
Definition fetchOpenMeteoTempC (getTime : string -> num)
    (times : list string) (temps : list num) (targetMs : num) : result (option num) :=
  match times, temps with
  | [], _ | _, [] => Thrown "No temp data returned"
  | _, _ =>
      let bestIdx := nearestIndex (map getTime times) targetMs in
      Ok (nth_error temps bestIdx)
  end.

(** The sample [useWind] stores: [gust] is [null] (here [None]) when the
    array has no such index, the other fields are then [undefined]. *)
Record WindData : Type := {
  time : option string;
  speed : option num;
  directionDeg : option num;
  gust : option num
}.

Definition useWindSample (getTime : string -> num)
    (times : list string) (speeds dirs gusts : list num) (targetMs : num)
    : result WindData :=
  match times with
  | [] => Thrown "No wind data returned"
  | _ =>
      let idx := nearestIndex (map getTime times) targetMs in
      Ok {| time := nth_error times idx;
            speed := nth_error speeds idx;
            directionDeg := nth_error dirs idx;
            gust := nth_error gusts idx |}
  end.

End Hourly.

(** ** [recommendPressures] ([src/utils/pressureComp.ts]) *)

Module Recommend.

Record LatLng : Type := { lat : num; lon : num }.

(** Optional fields are [None] when omitted; [when] is a date, kept as its
    epoch milliseconds. *)
Record RecommendInput : Type := {
  coords : option LatLng;
  frontPsiRef : num;
  rearPsiRef : num;
  refTempC : option num;
  when : option num;
  keepAbsoluteConstant : option bool
}.

Record Adjusted : Type := { psi : num; note : string }.

Module Out.
Record t : Type := {
  coords : LatLng;
  elevationM : num;
  ambientTempC : num;
  ambientPressurePsi : num;   (* from elevation model *)
  front : Adjusted;
  rear : Adjusted
}.
End Out.

(** The body of [recommendPressures] once its awaits have resolved:
    [located] is the result of [getGeolocation()] (used when the input has no
    coordinates), [fetchedTempC] and [fetchedElevationM] are the results of
    the two fetches. *)
Definition recommendPressures (input : RecommendInput) (located : LatLng)
    (fetchedTempC fetchedElevationM : num) : Out.t :=
  let frontPsiRef := frontPsiRef input in
  let rearPsiRef := rearPsiRef input in
  let refTempC := match refTempC input with Some t => t | None => Fin 20 end in
  let keepAbsoluteConstant :=
    match keepAbsoluteConstant input with Some b => b | None => false end in
  let coords := match coords input with Some c => c | None => located end in
  let ambientTempC := fetchedTempC in
  let elevationM := fetchedElevationM in
  let ambient_kPa := PressureComp.ambientPressureAtElevation_kPa elevationM in
  let ambient_psi := (ambient_kPa * PressureComp.KPA_TO_PSI)%num in
  let frontPsi :=
    PressureComp.round1
      (PressureComp.compensatePressurePsi frontPsiRef refTempC ambientTempC ambient_psi
         keepAbsoluteConstant) in
  let rearPsi :=
    PressureComp.round1
      (PressureComp.compensatePressurePsi rearPsiRef refTempC ambientTempC ambient_psi
         keepAbsoluteConstant) in
  let modeNote :=
    if keepAbsoluteConstant
    then "Absolute-pressure mode: holding absolute constant; gauge varies with altitude."%string
    else "Gauge-constant mode: temperature-compensated; gauge target stays intuitive."%string in
  {| Out.coords := coords;
     Out.elevationM := elevationM;
     Out.ambientTempC := ambientTempC;
     Out.ambientPressurePsi := PressureComp.round2 ambient_psi;
     Out.front := {| psi := frontPsi; note := modeNote |};
     Out.rear := {| psi := rearPsi; note := modeNote |} |}.

End Recommend.

(** ** URL state ([src/lib/urlState.ts])

    The query string is kept as the list of name-value pairs a
    [URLSearchParams] object holds (parsing and serialising the string are
    not modelled); [window.location] is the state that [setQuery] replaces
    and [getQuery] reads. *)

Module UrlState.

Definition SearchParams : Type := list (string * string).

(** [URLSearchParams.get]: the value of the first pair named [name]. *)
Fixpoint get (name : string) (ps : SearchParams) : option string :=
  match ps with
  | [] => None
  | (k, v) :: rest => if (k =? name)%string then Some v else get name rest
  end.

(** [URLSearchParams.delete]: every pair named [name] goes. *)
Definition delete (name : string) (ps : SearchParams) : SearchParams :=
  filter (fun kv => negb (fst kv =? name)%string) ps.

(** [URLSearchParams.set]: the first pair named [name] takes the value and
    the other such pairs go; without such a pair, one is appended. *)
Fixpoint set (name value : string) (ps : SearchParams) : SearchParams :=
  match ps with
  | [] => [(name, value)]
  | (k, v) :: rest =>
      if (k =? name)%string then (name, value) :: delete name rest
      else (k, v) :: set name value rest
  end.

(** The values the application passes: strings, numbers and [undefined]
    (and [null], which [setQuery] also tests for). *)
Inductive Value : Type :=
| VUndefined
| VNull
| VString (s : string)
| VNumber (n : num).

Section WithNumberToString.

(** [String(n)] for a number [n]. *)
Variable numberToString : num -> string.

Definition toString (v : Value) : string :=
  match v with
  | VUndefined => "undefined"
  | VNull => "null"
  | VString s => s
  | VNumber n => numberToString n
  end.

(** One step of the [forEach] over [Object.entries(params)]. *)
Definition setEntry (url : SearchParams) (entry : string * Value) : SearchParams :=
  let (k, v) := entry in
  match v with
  | VUndefined | VNull => delete k url
  | VString EmptyString => delete k url
  | _ => set k (toString v) url
  end.

Definition setQuery (params : list (string * Value)) (url : SearchParams) : SearchParams :=
  fold_left setEntry params url.

End WithNumberToString.

Definition getQuery (key : string) (url : SearchParams) : option string := get key url.

End UrlState.

(** ** The application ([src/App.tsx], [src/constants.ts],
       [src/components/InputsForm.tsx]) *)

Module App.

Record WeightSplit : Type := { label : string; front : num; rear : num }.

Definition WEIGHT_SPLITS : list WeightSplit :=
  [ {| label := "50/50 (Triathlon/TT/Track Bikes)"; front := Fin 0.5;   rear := Fin 0.5 |};
    {| label := "48/52 (Road Bikes)";               front := Fin 0.48;  rear := Fin 0.52 |};
    {| label := "47/53 (Gravel Bikes)";             front := Fin 0.47;  rear := Fin 0.53 |};
    {| label := "46.5/53.5 (Mountain Bikes)";       front := Fin 0.465; rear := Fin 0.535 |} ].

Record Preset : Type := {
  name : string;
  surface : Calc.Surface;
  splitLabel : string;
  defaultWidth : num
}.

Definition PRESETS : list Preset :=
  [ {| name := "Road";   surface := Calc.WornPavementSomeCracks;
       splitLabel := "48/52 (Road Bikes)";         defaultWidth := Fin 28 |};
    {| name := "Gravel"; surface := Calc.Category2Gravel;
       splitLabel := "47/53 (Gravel Bikes)";       defaultWidth := Fin 40 |};
    {| name := "MTB";    surface := Calc.Category3Gravel;
       splitLabel := "46.5/53.5 (Mountain Bikes)"; defaultWidth := Fin 55 |} ].

(** The unit of the weight field.  The component only tests
    [unitWeight === 'lbs']: any other string counts as kilograms. *)
Inductive UnitWeight : Type := lbs | kg.

(** [WEIGHT_SPLITS.find(s => s.label === splitLabel) ?? WEIGHT_SPLITS[1]];
    [None] is [undefined]. *)
Definition split (splitLabel : string) : option WeightSplit :=
  match find (fun s => (label s =? splitLabel)%string) WEIGHT_SPLITS with
  | Some s => Some s
  | None => nth_error WEIGHT_SPLITS 1
  end.

Definition weightLbs (unitWeight : UnitWeight) (systemWeight : num) : num :=
  match unitWeight with
  | lbs => systemWeight
  | kg => (systemWeight * Fin 2.20462262)%num
  end.

Definition weightValid (unitWeight : UnitWeight) (systemWeight : num) : bool :=
  let weightLbs := weightLbs unitWeight systemWeight in
  (weightLbs >=? Fin 75)%num && (weightLbs <=? Fin 450)%num.

Record WheelPsi : Type := { frontPsi : num; rearPsi : num }.

(** The guard of the weather effect:
    [weightValid && frontPsi > 0 && rearPsi > 0]. *)
Definition weatherUpdateAttempted (weightValid : bool) (p : WheelPsi) : bool :=
  weightValid && (frontPsi p >? Fin 0)%num && (rearPsi p >? Fin 0)%num.

(** The bounds of the weight input field of [InputsForm]. *)
Definition weightInputMin (unitWeight : UnitWeight) : num :=
  match unitWeight with lbs => Fin 75 | kg => Fin 34 end.

Definition weightInputMax (unitWeight : UnitWeight) : num :=
  match unitWeight with lbs => Fin 450 | kg => Fin 205 end.

(** The option lists of [src/constants.ts]: the string each enumerated value
    stands for. *)
Definition doubleQuote : string := String (Ascii.Ascii false true false false false true false false) EmptyString.

Definition surfaceName (s : Calc.Surface) : string :=
  match s with
  | Calc.TrackIndoorWood => "Track (Indoor Wood)"
  | Calc.TrackOutdoorConcrete => "Track (Outdoor Concrete)"
  | Calc.NewPavement => "New Pavement"
  | Calc.WornPavementSomeCracks => "Worn Pavement / Some Cracks"
  | Calc.PoorPavementChipseal => "Poor Pavement / Chipseal"
  | Calc.Cobblestone => "Cobblestone"
  | Calc.Category1Gravel => "Category 1 Gravel"
  | Calc.Category2Gravel => "Category 2 Gravel"
  | Calc.Category3Gravel => "Category 3 Gravel"
  | Calc.Category4Gravel => "Category 4 Gravel"
  end.

Definition wheelDiameterName (w : Calc.WheelDiameter) : string :=
  match w with
  | Calc.W700C_29 => "700C/29" ++ doubleQuote
  | Calc.W650C => "650C"
  | Calc.W650B_27_5 => "650B/27.5" ++ doubleQuote
  | Calc.W26 => "26" ++ doubleQuote
  end.

Definition tireTypeName (t : Calc.TireType) : string :=
  match t with
  | Calc.HighPerformanceTubelessLatex => "High performance tire tubeless/latex tube"
  | Calc.MidRangeCasingTubelessLatex => "Mid Range casing tubeless/latex tube"
  | Calc.MidRangeCasingButyl => "Mid-Range casing butyl tube"
  | Calc.PunctureResistantTubelessLatex => "Puncture resistant tire tubeless/latex tube"
  end.

Definition speedName (v : Calc.Speed) : string :=
  match v with
  | Calc.Recreational => "Recreational"
  | Calc.ModerateGroupRide => "Moderate Group Ride"
  | Calc.FastGroupRide => "Fast Group Ride"
  | Calc.Cat123Racing => "Cat. 1 / Cat. 2 / Cat. 3 Racing"
  | Calc.ProTour => "Pro Tour"
  | Calc.FastSingleTrack => "Fast Single Track"
  end.

Definition unitWeightName (u : UnitWeight) : string :=
  match u with lbs => "lbs" | kg => "kg" end.

(** The option lists of [src/constants.ts] as lists, and the value a string
    selects in them: [None] when the string is none of the options. *)
Definition SURFACES : list Calc.Surface :=
  [ Calc.TrackIndoorWood; Calc.TrackOutdoorConcrete; Calc.NewPavement;
    Calc.WornPavementSomeCracks; Calc.PoorPavementChipseal; Calc.Cobblestone;
    Calc.Category1Gravel; Calc.Category2Gravel; Calc.Category3Gravel;
    Calc.Category4Gravel ].

Definition WHEEL_DIAMETERS : list Calc.WheelDiameter :=
  [ Calc.W700C_29; Calc.W650C; Calc.W650B_27_5; Calc.W26 ].

Definition TIRE_TYPES : list Calc.TireType :=
  [ Calc.HighPerformanceTubelessLatex; Calc.MidRangeCasingTubelessLatex;
    Calc.MidRangeCasingButyl; Calc.PunctureResistantTubelessLatex ].

Definition SPEEDS : list Calc.Speed :=
  [ Calc.Recreational; Calc.ModerateGroupRide; Calc.FastGroupRide;
    Calc.Cat123Racing; Calc.ProTour; Calc.FastSingleTrack ].

Definition surfaceOfName (s : string) : option Calc.Surface :=
  find (fun x => (surfaceName x =? s)%string) SURFACES.

Definition wheelDiameterOfName (s : string) : option Calc.WheelDiameter :=
  find (fun x => (wheelDiameterName x =? s)%string) WHEEL_DIAMETERS.

Definition tireTypeOfName (s : string) : option Calc.TireType :=
  find (fun x => (tireTypeName x =? s)%string) TIRE_TYPES.

Definition speedOfName (s : string) : option Calc.Speed :=
  find (fun x => (speedName x =? s)%string) SPEEDS.

(** [computeWheelPsi] as the component calls it.  The selections are the
    strings of the component state, which start from the URL unvalidated
    ([(getQuery('surface') as any) || ...] and the like).  A string that is a
    key of its coefficient table selects the coefficient.  With any other
    string the lookup gives [undefined] or a member inherited from
    [Object.prototype]; [1 + undefined] is [NaN], adding an object or a
    function makes a string that is no numeral, and [clamp] returns [NaN] on
    either.  The wheel diameter is passed on but never read. *)
Definition computeWheelPsiOf (loadLbs tireWidthMm : num)
    (surface speed tireType wheelDiameter : string) : num :=
  match surfaceOfName surface, speedOfName speed, tireTypeOfName tireType with
  | Some s, Some v, Some t =>
      Calc.computeWheelPsi
        {| Calc.loadLbs := loadLbs; Calc.tireWidthMm := tireWidthMm;
           Calc.surface := s; Calc.speed := v; Calc.tireType := t;
           Calc.wheelDiameter :=
             match wheelDiameterOfName wheelDiameter with
             | Some w => w
             | None => Calc.W700C_29
             end |}
  | _, _, _ => NaN
  end.

(** The memoised front and rear pressures; [None] when reading [split.front]
    of an [undefined] split throws. *)
Definition wheelPsi (unitWeight : UnitWeight) (systemWeight : num) (splitLabel : string)
    (tireWidthMm : num) (surface speed tireType wheelDiameter : string) : option WheelPsi :=
  match split splitLabel with
  | None => None
  | Some split =>
      let weightLbs := weightLbs unitWeight systemWeight in
      let frontLoad := (weightLbs * front split)%num in
      let rearLoad := (weightLbs * rear split)%num in
      let f := computeWheelPsiOf frontLoad tireWidthMm surface speed tireType wheelDiameter in
      let r := computeWheelPsiOf rearLoad tireWidthMm surface speed tireType wheelDiameter in
      Some {| frontPsi := Num.round f; rearPsi := Num.round r |}
  end.

(** The form state of the component. *)
Module Form.
Record t : Type := {
  unitWeight : UnitWeight;
  systemWeight : num;
  surface : Calc.Surface;
  tireWidthMm : num;
  wheelDiameter : Calc.WheelDiameter;
  tireType : Calc.TireType;
  speed : Calc.Speed;
  splitLabel : string;
  presetName : string
}.
End Form.

(** [applyPreset], on the form state and the URL it reads. *)
Definition applyPreset (name' : string) (url : UrlState.SearchParams) (st : Form.t) : Form.t :=
  let named (surface' : Calc.Surface) (splitLabel' : string) (tireWidthMm' : num) :=
    {| Form.unitWeight := Form.unitWeight st;
       Form.systemWeight := Form.systemWeight st;
       Form.surface := surface';
       Form.tireWidthMm := tireWidthMm';
       Form.wheelDiameter := Form.wheelDiameter st;
       Form.tireType := Form.tireType st;
       Form.speed := Form.speed st;
       Form.splitLabel := splitLabel';
       Form.presetName := name' |} in
  match find (fun p => (name p =? name')%string) PRESETS with
  | None => named (Form.surface st) (Form.splitLabel st) (Form.tireWidthMm st)
  | Some p =>
      let tireWidthMm' :=
        match UrlState.getQuery "width" url with
        | None | Some EmptyString => defaultWidth p   (* !getQuery('width') *)
        | Some _ => Form.tireWidthMm st
        end in
      named (surface p) (splitLabel p) tireWidthMm'
  end.

(** The argument of [setQuery] in the effect that persists the inputs. *)
Definition persistedParams (st : Form.t) : list (string * UrlState.Value) :=
  [ ("uw", UrlState.VString (unitWeightName (Form.unitWeight st)));
    ("w", UrlState.VNumber (Form.systemWeight st));
    ("surface", UrlState.VString (surfaceName (Form.surface st)));
    ("width", UrlState.VNumber (Form.tireWidthMm st));
    ("wheel", UrlState.VString (wheelDiameterName (Form.wheelDiameter st)));
    ("tt", UrlState.VString (tireTypeName (Form.tireType st)));
    ("speed", UrlState.VString (speedName (Form.speed st)));
    ("split", UrlState.VString (Form.splitLabel st));
    ("preset", match Form.presetName st with
               | EmptyString => UrlState.VUndefined   (* presetName || undefined *)
               | _ => UrlState.VString (Form.presetName st)
               end) ]%string.

Definition persist (numberToString : num -> string) (st : Form.t)
    (url : UrlState.SearchParams) : UrlState.SearchParams :=
  UrlState.setQuery numberToString (persistedParams st) url.

End App.

(** ** Binary64 arithmetic

    Rounding to the nearest Number, on the reals. *)

Module B64.

Definition prec : Z := 53.
Definition emin : Z := -1074.
Definition emax : Z := 1024.

Definition bpow (e : Z) : R := powerRZ 2 e.

(** The exponent [e] with [2^(e-1) <= |x| < 2^e], for [x <> 0]. *)
Definition mag (x : R) : Z := (Zfloor (ln (Rabs x) / ln 2) + 1)%Z.

(** The exponent of the last place of a number of magnitude [e]. *)
Definition fexp (e : Z) : Z := Z.max (e - prec) emin.

(** The nearest integer, ties to the even one. *)
Definition nearestEven (y : R) : Z :=
  let f := Zfloor y in
  if Rltb (y - IZR f) (/ 2) then f
  else if Rltb (/ 2) (y - IZR f) then (f + 1)%Z
  else if Z.even f then f else (f + 1)%Z.

(** Rounding to 53 significant bits (to a multiple of [2^-1074] below the
    normal range), with no bound on the exponent. *)
Definition roundReal (x : R) : R :=
  if Reqb x 0 then 0
  else IZR (nearestEven (x / bpow (fexp (mag x)))) * bpow (fexp (mag x)).

(** The Number value for [x]: a rounded magnitude of [2^1024] or more is an
    infinity. *)
Definition round (x : R) : num :=
  let r := roundReal x in
  if Rltb (Rabs r) (bpow emax) then Fin r
  else if Rltb r 0 then NInf else PInf.

End B64.

(** ** The functions with binary64 arithmetic *)

Module Binary64.

(** The arithmetic operators on Numbers: the exact result of finite operands
    is rounded; the other cases are those of [Num]. *)
Definition add (a b : num) : num :=
  match a, b with
  | Fin x, Fin y => B64.round (x + y)
  | _, _ => Num.add a b
  end.

Definition sub (a b : num) : num :=
  match a, b with
  | Fin x, Fin y => B64.round (x - y)
  | _, _ => Num.sub a b
  end.

Definition mul (a b : num) : num :=
  match a, b with
  | Fin x, Fin y => B64.round (x * y)
  | _, _ => Num.mul a b
  end.

Definition div (a b : num) : num :=
  match a, b with
  | Fin x, Fin y => if Reqb y 0 then Num.div a b else B64.round (x / y)
  | _, _ => Num.div a b
  end.

(** The Number a decimal literal of the source denotes. *)
Definition lit (x : R) : num := B64.round x.

(** *** [src/utils/pressureComp.ts] *)

Definition C_to_K (c : num) : num := add c (lit 273.15).

Definition compensatePressurePsi
    (gaugePsiRef refTempC ambientTempC ambientPressurePsi : num)
    (keepAbsoluteConstant : bool) : num :=
  let T_ref := C_to_K refTempC in
  let T_now := C_to_K ambientTempC in
  let P_abs_ref := add gaugePsiRef ambientPressurePsi in
  if keepAbsoluteConstant then
    let P_abs_target := P_abs_ref in
    let P_gauge_now := sub P_abs_target ambientPressurePsi in
    P_gauge_now
  else
    let P_abs_now := mul P_abs_ref (div T_now T_ref) in
    let P_gauge_now := sub P_abs_now ambientPressurePsi in
    P_gauge_now.

(** *** [src/lib/calc.ts] *)

Definition PSI_PER_BAR : num := lit 14.5037738.

Definition toBar (psi : num) : num := div psi PSI_PER_BAR.

End Binary64.

(** *** The [BestWindDirection] helpers *)

Module Binary64Wind.

Import Wind.

(** [Math.PI], the Number value for pi: 3.141592653589793. *)
Definition MathPI : num := Fin (IZR 884279719003555 * B64.bpow (-48)).

(** [Math.cos] and [Math.sin], taken as correctly rounded. *)
Definition cos (a : num) : num :=
  match a with Fin x => B64.round (Rtrigo_def.cos x) | _ => NaN end.

Definition sin (a : num) : num :=
  match a with Fin x => B64.round (Rtrigo_def.sin x) | _ => NaN end.

Definition clampDeg (deg : num) : num :=
  Num.rem (Binary64.add (Num.rem deg (Fin 360)) (Fin 360)) (Fin 360).

Definition toRad (deg : num) : num := Binary64.div (Binary64.mul deg MathPI) (Fin 180).

Definition angleDiff (a b : num) : num :=
  let d := Binary64.sub (clampDeg a) (clampDeg b) in
  let wrapped := Binary64.sub (Num.rem (Binary64.add d (Fin 540)) (Fin 360)) (Fin 180) in
  wrapped.

Definition bearingToCompass (deg : num) : option string :=
  let i := Num.rem (Num.round (Binary64.div (clampDeg deg) (Binary64.lit 22.5))) (Fin 16) in
  Num.index COMPASS_16 i.

Definition inIntervals (x : num) (ranges : option (list (num * num))) : bool :=
  match ranges with
  | None | Some [] => true
  | Some rs =>
      let d := clampDeg x in
      existsb (fun ab : num * num =>
                 let A := clampDeg (fst ab) in
                 let B := clampDeg (snd ab) in
                 if (A <=? B)%num then (d >=? A)%num && (d <=? B)%num
                 else (d >=? A)%num || (d <=? B)%num) rs
  end.

Definition scoreHeading (windFromDeg windSpeed headingDeg : num)
    (crosswindPenalty : option num) : Scored.t :=
  let crosswindPenalty := orDefault crosswindPenalty (Binary64.lit 0.4) in
  let windTowardDeg := clampDeg (Binary64.add windFromDeg (Fin 180)) in
  let delta := angleDiff headingDeg windTowardDeg in
  let tail := Binary64.mul windSpeed (cos (toRad delta)) in
  let cross := Num.abs (Binary64.mul windSpeed (sin (toRad delta))) in
  let score := Binary64.sub tail (Binary64.mul crosswindPenalty cross) in
  {| Scored.score := score; Scored.tailComponent := tail;
     Scored.crossComponent := cross; Scored.windTowardDeg := windTowardDeg |}.

Definition candidate (windFromDeg windSpeed crosswindPenalty h : num) : Recommendation :=
  let r := scoreHeading windFromDeg windSpeed h (Some crosswindPenalty) in
  {| headingDeg := h;
     headingLabel := bearingToCompass h;
     score := Scored.score r;
     tailComponent := Scored.tailComponent r;
     crossComponent := Scored.crossComponent r;
     windTowardDeg := Scored.windTowardDeg r |}.

(** The lattice loop, [h += resolutionDeg] being a Number addition. *)
Fixpoint lattice (fuel : nat) (windFromDeg windSpeed resolutionDeg crosswindPenalty : num)
    (allowedHeadings : option (list (num * num)))
    (h : num) (candidates : list Recommendation) : option (list Recommendation) :=
  match fuel with
  | O => None
  | S fuel' =>
      if (h <? Fin 360)%num then
        let candidates' :=
          if negb (inIntervals h allowedHeadings) then candidates
          else candidates ++ [candidate windFromDeg windSpeed crosswindPenalty h] in
        lattice fuel' windFromDeg windSpeed resolutionDeg crosswindPenalty
                allowedHeadings (Binary64.add h resolutionDeg) candidates'
      else Some candidates
  end.

Definition compareScore (a b : Recommendation) : num := Binary64.sub (score b) (score a).

Fixpoint insertSorted (x : Recommendation) (l : list Recommendation) : list Recommendation :=
  match l with
  | [] => [x]
  | y :: l' =>
      if (compareScore x y >? Fin 0)%num then y :: insertSorted x l'
      else x :: y :: l'
  end.

Fixpoint sortByScore (l : list Recommendation) : list Recommendation :=
  match l with
  | [] => []
  | x :: l' => insertSorted x (sortByScore l')
  end.

Fixpoint pick (topK minSeparationDeg : num) (candidates picked : list Recommendation)
    : list Recommendation :=
  match candidates with
  | [] => picked
  | c :: rest =>
      if (Fin (INR (List.length picked)) >=? topK)%num then picked
      else
        let tooClose :=
          existsb (fun p => (Num.abs (angleDiff (headingDeg p) (headingDeg c))
                             <? minSeparationDeg)%num) picked in
        if negb tooClose then pick topK minSeparationDeg rest (picked ++ [c])
        else pick topK minSeparationDeg rest picked
  end.

Definition recommendHeadings (fuel : nat) (windFromDeg windSpeed : num)
    (opts : RecommendOptions) : option (list Recommendation) :=
  let resolutionDeg := orDefault (resolutionDeg opts) (Fin 5) in
  let crosswindPenalty := orDefault (crosswindPenalty opts) (Binary64.lit 0.4) in
  let allowedHeadings := allowedHeadings opts in
  let minSeparationDeg := orDefault (minSeparationDeg opts) (Fin 15) in
  let topK := orDefault (topK opts) (Fin 3) in
  match lattice fuel windFromDeg windSpeed resolutionDeg crosswindPenalty
                allowedHeadings (Fin 0) [] with
  | None => None
  | Some candidates =>
      let candidates := sortByScore candidates in
      Some (pick topK minSeparationDeg candidates [])
  end.

(** *** [src/hooks/useWind.ts] *)

Definition headwindSigned (windFromDeg headingDeg speed : num) : num :=
  let alpha :=
    Binary64.mul
      (Num.rem (Binary64.add (Binary64.sub windFromDeg headingDeg) (Fin 360)) (Fin 360))
      (Binary64.div MathPI (Fin 180)) in
  Binary64.mul speed (cos alpha).

Definition windComponents (windFromDeg headingDeg speed : num) : WindComponents :=
  let alpha :=
    Binary64.mul
      (Num.rem (Binary64.add (Binary64.sub windFromDeg headingDeg) (Fin 360)) (Fin 360))
      (Binary64.div MathPI (Fin 180)) in
  let headwindSigned := Binary64.mul speed (cos alpha) in
  let crossAbs := Num.abs (Binary64.mul speed (sin alpha)) in
  let beta :=
    Binary64.sub
      (Num.rem (Binary64.add (Binary64.sub windFromDeg headingDeg) (Fin 540)) (Fin 360))
      (Fin 180) in
  {| headwind := Num.abs headwindSigned;
     headOrTail := if (headwindSigned >=? Fin 0)%num then "headwind" else "tailwind";
     crosswind := crossAbs;
     side := if (beta <? Fin 0)%num then "left" else "right" |}.

End Binary64Wind.

(** * Definitions used to state the properties *)

Import Calc PressureComp Wind.

(** ** Baseline pressure *)

(** Clamping on the reals, and the coefficient tables read as reals. *)
Definition Rclamp (v lo hi : R) : R := Rmax lo (Rmin hi v).

Definition surface_offset (s : Surface) : R :=
  match s with
  | TrackIndoorWood => 0.2
  | TrackOutdoorConcrete => 0.15
  | NewPavement => 0.05
  | WornPavementSomeCracks => 0
  | PoorPavementChipseal => -0.1
  | Cobblestone => -0.2
  | Category1Gravel => -0.25
  | Category2Gravel => -0.35
  | Category3Gravel => -0.45
  | Category4Gravel => -0.55
  end.

Definition speed_offset (s : Speed) : R :=
  match s with
  | Recreational => -0.05
  | ModerateGroupRide => 0
  | FastGroupRide => 0.03
  | Cat123Racing => 0.05
  | ProTour => 0.07
  | FastSingleTrack => 0.03
  end.

Definition tire_type_offset (t : TireType) : R :=
  match t with
  | HighPerformanceTubelessLatex => 0
  | MidRangeCasingTubelessLatex => 2
  | MidRangeCasingButyl => 5
  | PunctureResistantTubelessLatex => 7
  end.

(** The reference definition of the baseline pressure, one stage at a time
    in the order the specification fixes: width clamp, base proxy, surface
    scale, speed scale, tire-type offset, final clamp. *)
Definition width_clamped (width : R) : R := Rclamp width 20 90.
Definition base_proxy (load w : R) : R := 20 * (load / w).
Definition surface_scaled (psi : R) (s : Surface) : R := psi * (1 + surface_offset s).
Definition speed_scaled (psi : R) (v : Speed) : R := psi * (1 + speed_offset v).
Definition tire_type_added (psi : R) (t : TireType) : R := psi + tire_type_offset t.

Definition reference_psi (load width : R) (s : Surface) (v : Speed) (t : TireType) : R :=
  Rclamp
    (tire_type_added
       (speed_scaled (surface_scaled (base_proxy load (width_clamped width)) s) v) t)
    15 130.

(** The parameter object of [computeWheelPsi]. *)
Definition params (load width : num) (s : Surface) (v : Speed) (t : TireType)
    (wd : WheelDiameter) : ComputeWheelPsiParams :=
  {| loadLbs := load; tireWidthMm := width; surface := s; speed := v;
     tireType := t; wheelDiameter := wd |}.

(** The unclamped pressure of a finite load on a (clamped) width. *)
Definition raw_psi (load w : R) (s : Surface) (v : Speed) (t : TireType) : R :=
  20 * (load / w) * (1 + surface_offset s) * (1 + speed_offset v) + tire_type_offset t.

(** ** Remainders and angles on the reals *)

(** The [%] operator on finite numbers, and the non-negative modulus. *)
Definition Rrem (x y : R) : R := x - y * IZR (Ztrunc (x / y)).
Definition Rfmod (x m : R) : R := x - m * IZR (Zfloor (x / m)).

(** The signed difference of two finite angles, wrapped into [-180, 180). *)
Definition wrap180 (x : R) : R := Rfmod (x + 180) 360 - 180.

(** The angle from the heading to the wind's origin, in radians. *)
Definition windAngle (windFromDeg headingDeg : R) : R := (windFromDeg - headingDeg) * PI / 180.

(** [Math.round] on the reals, and the label the specification asks for:
    the direction at index [round(deg / 22.5) mod 16], with the non-negative
    modulus. *)
Definition Zround (x : R) : Z := Zfloor (x + / 2).

Definition compassLabel (deg : R) : option string :=
  nth_error COMPASS_16 (Z.to_nat (Zround (deg / 22.5) mod 16)).

(** ** Selection *)

(** The test of the selection loop: [c] is too close to the picked [p]. *)
Definition tooClose (minSeparationDeg : num) (p c : Recommendation) : bool :=
  (Num.abs (angleDiff (headingDeg p) (headingDeg c)) <? minSeparationDeg)%num.


(** A heading within one turn, [0 <= h < 360]. *)
Definition headingInTurn (c : Recommendation) : Prop :=
  exists h : R, headingDeg c = Fin h /\ 0 <= h < 360.


(** A quarter-turn lattice, and its candidates under a 12-unit wind from the
    west (270 degrees) with the default crosswind penalty. *)
Definition quarterTurns : RecommendOptions :=
  {| resolutionDeg := Some (Fin 90); crosswindPenalty := None; allowedHeadings := None;
     minSeparationDeg := None; topK := None |}.

Definition westWind (h : R) : Recommendation := candidate (Fin 270) (Fin 12) (Fin 0.4) (Fin h).

(** ** The atmosphere model and the weather adjustment *)

(** The elevation at which the base of the power reaches zero, about
    44 331 m. *)
Definition elevationLimit : R := / 2.25577e-5.

(** The reference temperature and the mode an input resolves to. *)
Definition resolvedRefTempC (input : Recommend.RecommendInput) : num :=
  match Recommend.refTempC input with Some t => t | None => Fin 20 end.

Definition resolvedKeepAbsolute (input : Recommend.RecommendInput) : bool :=
  match Recommend.keepAbsoluteConstant input with Some b => b | None => false end.

(** The ambient pressure in PSI at a finite elevation below the limit. *)
Definition ambientPsi (h : R) : R :=
  101.325 * Rpower (1 - 2.25577e-5 * h) 5.25588 * 0.1450377377.

(** An input with references of 58 and 62 PSI, the default reference
    temperature and no coordinates, and a place to be located at. *)
Definition dailyInput (absolute : bool) : Recommend.RecommendInput :=
  {| Recommend.coords := None; Recommend.frontPsiRef := Fin 58; Recommend.rearPsiRef := Fin 62;
     Recommend.refTempC := None; Recommend.when := None;
     Recommend.keepAbsoluteConstant := Some absolute |}.

Definition somewhere : Recommend.LatLng :=
  {| Recommend.lat := Fin 39.77; Recommend.lon := Fin (-86.16) |}.

(** ** Hourly samples *)

(** The distance of a sample time to the target time, in milliseconds. *)
Definition msApart (target t : R) : R := Rabs (t - target).

(** Two hourly samples, at midnight and at one o'clock, with their epoch
    milliseconds counted from that midnight. *)
Definition twoHours : list string := ["2024-05-01T00:00"; "2024-05-01T01:00"]%string.

Definition twoHoursMs (s : string) : R :=
  if (s =? "2024-05-01T00:00")%string then 0 else 3600000.

(** ** Order of the recommendations *)

(** [a] scores at least as high as [b], by the code's own comparison. *)
Definition scoresAtLeast (a b : Recommendation) : Prop := (score b <=? score a)%num = true.

Definition finiteScore (c : Recommendation) : Prop := exists s : R, score c = Fin s.

(** The quarter-turn lattice restricted to the wrapped interval 270..90, the
    half turn around north, with two headings asked for. *)
Definition northernHalf : RecommendOptions :=
  {| resolutionDeg := Some (Fin 90); crosswindPenalty := None;
     allowedHeadings := Some [(Fin 270, Fin 90)];
     minSeparationDeg := None; topK := Some (Fin 2) |}.

(** ** URL state and the form *)

(** What [setQuery] leaves in the URL for a value: nothing for [undefined],
    [null] and the empty string, its string otherwise. *)
Definition storedValue (numberToString : num -> string) (v : UrlState.Value) : option string :=
  match v with
  | UrlState.VUndefined | UrlState.VNull => None
  | UrlState.VString EmptyString => None
  | _ => Some (UrlState.toString numberToString v)
  end.

(** The number of pairs named [name]. *)
Definition occurrences (name : string) (ps : UrlState.SearchParams) : nat :=
  List.length (filter (fun kv => (fst kv =? name)%string) ps).

(** A URL is settled for an entry when it holds exactly what [setQuery]
    would leave for it. *)
Definition settled (numberToString : num -> string) (url : UrlState.SearchParams)
    (entry : string * UrlState.Value) : Prop :=
  UrlState.get (fst entry) url = storedValue numberToString (snd entry)
  /\ (occurrences (fst entry) url <= 1)%nat
  /\ (storedValue numberToString (snd entry) = None -> occurrences (fst entry) url = 0%nat).

(** A [String(n)] that is never empty, and the form of a first visit. *)
Definition showAs28 (n : num) : string := "28"%string.

Definition roadForm : App.Form.t :=
  {| App.Form.unitWeight := App.lbs; App.Form.systemWeight := Fin 180;
     App.Form.surface := WornPavementSomeCracks; App.Form.tireWidthMm := Fin 28;
     App.Form.wheelDiameter := W700C_29; App.Form.tireType := HighPerformanceTubelessLatex;
     App.Form.speed := ModerateGroupRide; App.Form.splitLabel := "48/52 (Road Bikes)";
     App.Form.presetName := EmptyString |}.

(** ** Binary64 rounding *)

(** The unit roundoff, and half of the smallest positive Number. *)
Definition u : R := B64.bpow (-53).
Definition eta : R := B64.bpow (-1075).

(** A finite Number. *)
Definition isNumber (x : R) : Prop := B64.round x = Fin x.

(** Two angles in degrees agree within [eps], whole turns apart. *)
Definition near (eps a b : R) : Prop := exists k : Z, Rabs (a - b - 360 * IZR k) <= eps.

(** The value of [Math.PI]. *)
Definition piNumber : R := IZR 884279719003555 * B64.bpow (-48).

(** The tolerance within which the two decompositions of a wind of speed
    [ws] agree. *)
Definition agreementTolerance (ws : R) : R := B64.bpow (-35) * Rabs ws + B64.bpow (-1074).

(** The options of a run whose step is [2^-57] degrees, restricted to the
    headings from 350 to 355 degrees. *)
Definition tinyStep : Wind.RecommendOptions :=
  {| Wind.resolutionDeg := Some (Fin (B64.bpow (-57))); Wind.crosswindPenalty := None;
     Wind.allowedHeadings := Some [(Fin 350, Fin 355)];
     Wind.minSeparationDeg := None; Wind.topK := None |}.

(** * Properties *)

(** ** Evaluating the operators on finite numbers *)

Lemma Rltb_true (x y : R) : x < y -> Rltb x y = true.
Proof. intros H. unfold Rltb. destruct (Rlt_dec x y); [reflexivity | contradiction]. Qed.

Lemma Rltb_false (x y : R) : y <= x -> Rltb x y = false.
Proof. intros H. unfold Rltb. destruct (Rlt_dec x y); [lra | reflexivity]. Qed.

Lemma Rltb_iff (x y : R) : Rltb x y = true <-> x < y.
Proof.
  unfold Rltb. destruct (Rlt_dec x y); split; intros; try assumption;
    [reflexivity | discriminate | contradiction].
Qed.

Lemma Reqb_true (x y : R) : x = y -> Reqb x y = true.
Proof. intros H. unfold Reqb. destruct (Req_dec_T x y); [reflexivity | contradiction]. Qed.

Lemma Reqb_false (x y : R) : x <> y -> Reqb x y = false.
Proof. intros H. unfold Reqb. destruct (Req_dec_T x y); [contradiction | reflexivity]. Qed.

Lemma div_Fin (x y : R) : y <> 0 -> (Fin x / Fin y)%num = Fin (x / y).
Proof. intros H. cbn. now rewrite Reqb_false. Qed.

Lemma le_Fin_true (x y : R) : x <= y -> (Fin x <=? Fin y)%num = true.
Proof. intros H. cbn. now rewrite Rltb_false. Qed.

Lemma le_Fin_iff (x y : R) : (Fin x <=? Fin y)%num = true <-> x <= y.
Proof.
  cbn. unfold Rltb. destruct (Rlt_dec y x); cbn; split; intros; try lra; discriminate.
Qed.

Lemma lt_Fin_iff (x y : R) : (Fin x <? Fin y)%num = true <-> x < y.
Proof. apply Rltb_iff. Qed.

(** ** Baseline pressure model *)

Section BaselinePressure.

Lemma Rclamp_mono (v1 v2 lo hi : R) : v1 <= v2 -> Rclamp v1 lo hi <= Rclamp v2 lo hi.
Proof. intros H. unfold Rclamp, Rmax, Rmin. repeat destruct (Rle_dec _ _); lra. Qed.

Lemma Rclamp_bounds (v lo hi : R) : lo <= hi -> lo <= Rclamp v lo hi <= hi.
Proof. intros H. unfold Rclamp, Rmax, Rmin. repeat destruct (Rle_dec _ _); lra. Qed.

Lemma Rclamp_below (v lo hi : R) : lo <= hi -> v <= lo -> Rclamp v lo hi = lo.
Proof. intros H1 H2. unfold Rclamp, Rmax, Rmin. repeat destruct (Rle_dec _ _); lra. Qed.

Lemma clamp_Fin (v lo hi : R) : clamp (Fin v) (Fin lo) (Fin hi) = Fin (Rclamp v lo hi).
Proof.
  unfold clamp, Rclamp, Rmax, Rmin. cbn. unfold Rltb.
  destruct (Rlt_dec v hi), (Rle_dec hi v); try lra; cbn; unfold Rltb;
    destruct (Rlt_dec lo _), (Rle_dec lo _); try lra; try reflexivity; f_equal; lra.
Qed.

Lemma SURFACE_MULT_Fin (s : Surface) : SURFACE_MULT s = Fin (surface_offset s).
Proof. destruct s; reflexivity. Qed.

Lemma SPEED_MULT_Fin (v : Speed) : SPEED_MULT v = Fin (speed_offset v).
Proof. destruct v; reflexivity. Qed.

Lemma TIRE_TYPE_OFFSET_Fin (t : TireType) : TIRE_TYPE_OFFSET t = Fin (tire_type_offset t).
Proof. destruct t; reflexivity. Qed.

Lemma surface_factor_pos (s : Surface) : 0 < 1 + surface_offset s.
Proof. destruct s; cbn; lra. Qed.

Lemma speed_factor_pos (v : Speed) : 0 < 1 + speed_offset v.
Proof. destruct v; cbn; lra. Qed.

Lemma tire_type_offset_range (t : TireType) : 0 <= tire_type_offset t <= 7.
Proof. destruct t; cbn; lra. Qed.

Lemma width_clamped_range (width : R) : 20 <= width_clamped width <= 90.
Proof. apply Rclamp_bounds. lra. Qed.

(** On finite inputs the code computes a finite number, with no division by
    zero: the clamped width is at least 20. *)
Lemma computeWheelPsi_finite (load width : R) s v t wd :
  computeWheelPsi (params (Fin load) (Fin width) s v t wd)
  = Fin (Rclamp (raw_psi load (width_clamped width) s v t) 15 130).
Proof.
  unfold computeWheelPsi, params, K. cbn [loadLbs tireWidthMm surface speed tireType].
  rewrite clamp_Fin. fold (width_clamped width).
  pose proof (width_clamped_range width) as Hw.
  rewrite div_Fin by lra.
  rewrite SURFACE_MULT_Fin, SPEED_MULT_Fin, TIRE_TYPE_OFFSET_Fin.
  cbn [Num.mul Num.add]. rewrite clamp_Fin. reflexivity.
Qed.

Lemma raw_psi_mono_load (l1 l2 w : R) s v t :
  0 < w -> l1 <= l2 -> raw_psi l1 w s v t <= raw_psi l2 w s v t.
Proof.
  intros Hw Hl. unfold raw_psi.
  pose proof (surface_factor_pos s). pose proof (speed_factor_pos v).
  apply Rplus_le_compat_r.
  apply Rmult_le_compat_r; [lra|]. apply Rmult_le_compat_r; [lra|].
  apply Rmult_le_compat_l; [lra|]. unfold Rdiv.
  apply Rmult_le_compat_r; [|assumption].
  left. now apply Rinv_0_lt_compat.
Qed.

Lemma raw_psi_anti_width (l w1 w2 : R) s v t :
  0 <= l -> 0 < w1 -> w1 <= w2 -> raw_psi l w2 s v t <= raw_psi l w1 s v t.
Proof.
  intros Hl Hw Hle. unfold raw_psi.
  pose proof (surface_factor_pos s). pose proof (speed_factor_pos v).
  apply Rplus_le_compat_r.
  apply Rmult_le_compat_r; [lra|]. apply Rmult_le_compat_r; [lra|].
  apply Rmult_le_compat_l; [lra|]. unfold Rdiv.
  apply Rmult_le_compat_l; [assumption|].
  apply Rinv_le_contravar; assumption.
Qed.

Lemma raw_psi_negative_load (l w : R) s v t :
  l < 0 -> 0 < w -> raw_psi l w s v t <= 15.
Proof.
  intros Hl Hw. unfold raw_psi.
  pose proof (surface_factor_pos s). pose proof (speed_factor_pos v).
  pose proof (tire_type_offset_range t).
  assert (Hq : l / w < 0).
  { unfold Rdiv. pose proof (Rinv_0_lt_compat w Hw) as Hi.
    pose proof (Rmult_lt_0_compat (- l) (/ w) ltac:(lra) Hi). lra. }
  assert (H20 : 20 * (l / w) * (1 + surface_offset s) * (1 + speed_offset v) <= 0).
  { assert (0 <= (20 * - (l / w)) * (1 + surface_offset s) * (1 + speed_offset v)).
    { repeat apply Rmult_le_pos; lra. }
    lra. }
  lra.
Qed.

(** C1: on every finite load and tire width and every enumerated surface,
    speed and tire type, [computeWheelPsi] equals the reference definition
    applied in the fixed order: width clamped to [20,90], base proxy
    [20 * (load / clampedWidth)], times [(1 + surface offset)], times
    [(1 + speed offset)], plus the tire-type offset, clamped to [15,130]. *)
Theorem computeWheelPsi_reference_order (load width : R) s v t wd :
  computeWheelPsi (params (Fin load) (Fin width) s v t wd)
  = Fin (reference_psi load width s v t).
Proof.
  rewrite computeWheelPsi_finite.
  unfold reference_psi, tire_type_added, speed_scaled, surface_scaled, base_proxy, raw_psi.
  reflexivity.
Qed.

(** C2: for every non-negative load, every tire width and every enumerated
    surface, speed and tire type, the pressure returned by [computeWheelPsi]
    is a finite number in the closed interval [15,130]. *)
Theorem computeWheelPsi_in_band (load width : R) s v t wd :
  0 <= load ->
  exists psi : R,
    computeWheelPsi (params (Fin load) (Fin width) s v t wd) = Fin psi
    /\ 15 <= psi <= 130.
Proof.
  intros _. eexists. split.
  - apply computeWheelPsi_finite.
  - apply Rclamp_bounds. lra.
Qed.

(** C2 at the road scenario of the specification. *)
Lemma computeWheelPsi_in_band_witness :
  exists psi : R,
    computeWheelPsi
      (params (Fin 86.4) (Fin 28) WornPavementSomeCracks ModerateGroupRide
              HighPerformanceTubelessLatex W700C_29) = Fin psi
    /\ 15 <= psi <= 130.
Proof.
  apply (computeWheelPsi_in_band 86.4 28 WornPavementSomeCracks ModerateGroupRide
           HighPerformanceTubelessLatex W700C_29).
  lra.
Defined.

(** C3: with the other parameters fixed, [computeWheelPsi] is non-decreasing
    in the load, and non-increasing in the tire width over the clamped range
    [20,90]; [<=?] is the comparison of the code's numbers. *)
Theorem computeWheelPsi_monotone s v t wd :
  (forall width load1 load2 : R,
      load1 <= load2 ->
      (computeWheelPsi (params (Fin load1) (Fin width) s v t wd)
       <=? computeWheelPsi (params (Fin load2) (Fin width) s v t wd))%num = true)
  /\
  (forall load width1 width2 : R,
      20 <= width1 -> width1 <= width2 -> width2 <= 90 ->
      (computeWheelPsi (params (Fin load) (Fin width2) s v t wd)
       <=? computeWheelPsi (params (Fin load) (Fin width1) s v t wd))%num = true).
Proof.
  split.
  - intros width l1 l2 Hl. rewrite !computeWheelPsi_finite.
    apply le_Fin_true, Rclamp_mono, raw_psi_mono_load; [|assumption].
    pose proof (width_clamped_range width). lra.
  - intros load w1 w2 H1 H12 H2. rewrite !computeWheelPsi_finite.
    apply le_Fin_true.
    pose proof (width_clamped_range w1) as R1.
    pose proof (width_clamped_range w2) as R2.
    assert (Hc : width_clamped w1 <= width_clamped w2) by now apply Rclamp_mono.
    destruct (Rle_lt_dec 0 load) as [Hpos | Hneg].
    + apply Rclamp_mono, raw_psi_anti_width; [assumption | lra | assumption].
    + rewrite !Rclamp_below; try lra; apply raw_psi_negative_load; lra.
Qed.

(** The road scenario of the specification: 86.4 lbs on a 28 mm tire, with
    every offset zero, gives the bare proxy [20 * (86.4 / 28)], about 61.7. *)
Example computeWheelPsi_road_scenario :
  computeWheelPsi
    (params (Fin 86.4) (Fin 28) WornPavementSomeCracks ModerateGroupRide
            HighPerformanceTubelessLatex W700C_29)
  = Fin (20 * (86.4 / 28)).
Proof.
  rewrite computeWheelPsi_finite. f_equal.
  unfold width_clamped, raw_psi, Rclamp, Rmax, Rmin. cbn [surface_offset speed_offset tire_type_offset].
  repeat destruct (Rle_dec _ _); lra.
Qed.

(** C3 at loads 80 and 95 on a 28 mm tire, and at widths 28 and 40 under 80 lbs. *)
Lemma computeWheelPsi_monotone_witness :
  (computeWheelPsi (params (Fin 80) (Fin 28) NewPavement FastGroupRide MidRangeCasingButyl W700C_29)
   <=? computeWheelPsi (params (Fin 95) (Fin 28) NewPavement FastGroupRide MidRangeCasingButyl W700C_29))%num
  = true
  /\
  (computeWheelPsi (params (Fin 80) (Fin 40) NewPavement FastGroupRide MidRangeCasingButyl W700C_29)
   <=? computeWheelPsi (params (Fin 80) (Fin 28) NewPavement FastGroupRide MidRangeCasingButyl W700C_29))%num
  = true.
Proof.
  split.
  - apply (proj1 (computeWheelPsi_monotone NewPavement FastGroupRide MidRangeCasingButyl W700C_29)).
    lra.
  - apply (proj2 (computeWheelPsi_monotone NewPavement FastGroupRide MidRangeCasingButyl W700C_29));
      lra.
Defined.

End BaselinePressure.

(** ** Remainders on the reals *)

Section Remainders.

Variable m : R.
Hypothesis m_pos : 0 < m.

Lemma rem_Fin (x : R) : (Fin x mod Fin m)%num = Fin (Rrem x m).
Proof. cbn. rewrite Reqb_false by lra. reflexivity. Qed.

Lemma Rfmod_range (x : R) : 0 <= Rfmod x m < m.
Proof.
  unfold Rfmod. pose proof (Zfloor_bound (x / m)) as [Hlo Hhi].
  assert (Hx : x = m * (x / m)) by (field; lra).
  split.
  - apply (Rmult_le_compat_l m) in Hlo; lra.
  - apply (Rmult_lt_compat_l m) in Hhi; lra.
Qed.

Lemma Rfmod_unique (x r : R) (k : Z) :
  r = x - m * IZR k -> 0 <= r < m -> k = Zfloor (x / m) /\ r = Rfmod x m.
Proof.
  intros Hr [Hlo Hhi].
  assert (Hk : Zfloor (x / m) = k).
  { apply Zfloor_eq. split.
    - apply (Rmult_le_reg_l m); [assumption|].
      replace (m * (x / m)) with x by (field; lra). lra.
    - apply (Rmult_lt_reg_l m); [assumption|].
      replace (m * (x / m)) with x by (field; lra). lra. }
  split; [now symmetry|]. unfold Rfmod. now rewrite Hk.
Qed.

Lemma Rfmod_shift (x : R) (k : Z) : Rfmod (x + m * IZR k) m = Rfmod x m.
Proof.
  symmetry.
  apply (Rfmod_unique (x + m * IZR k) (Rfmod x m) (Zfloor (x / m) + k)).
  - unfold Rfmod. rewrite plus_IZR. ring.
  - apply Rfmod_range.
Qed.

Lemma Rfmod_small (x : R) : 0 <= x < m -> Rfmod x m = x.
Proof.
  intros Hx. symmetry. apply (Rfmod_unique x x 0); [ring | assumption].
Qed.

Lemma Rrem_nonneg (x : R) : 0 <= x -> Rrem x m = Rfmod x m.
Proof.
  intros Hx. unfold Rrem, Rfmod, Ztrunc. rewrite Rltb_false; [reflexivity|].
  apply Rmult_le_pos; [assumption | left; now apply Rinv_0_lt_compat].
Qed.

Lemma Rrem_congruent (x : R) : exists k : Z, Rrem x m = x - m * IZR k.
Proof. now exists (Ztrunc (x / m)). Qed.

Lemma Rrem_range (x : R) : - m < Rrem x m < m.
Proof.
  destruct (Rle_lt_dec 0 x) as [Hx | Hx].
  - rewrite Rrem_nonneg by assumption. pose proof (Rfmod_range x). lra.
  - unfold Rrem, Ztrunc.
    assert (Hq : x / m < 0).
    { unfold Rdiv. pose proof (Rinv_0_lt_compat m m_pos) as Hi.
      pose proof (Rmult_lt_0_compat (- x) (/ m) ltac:(lra) Hi). lra. }
    rewrite Rltb_true by assumption.
    pose proof (Zceil_bound (x / m)) as [Hlo Hhi].
    assert (Hxm : x = m * (x / m)) by (field; lra).
    apply (Rmult_lt_compat_l m) in Hlo; [|assumption].
    apply (Rmult_le_compat_l m) in Hhi; [|lra].
    assert (Hc : IZR (Zceil (x / m)) <= 0).
    { apply IZR_le. apply Z.opp_nonneg_nonpos. unfold Zceil.
      rewrite Z.opp_involutive. apply Zfloor_lub. cbn. lra. }
    apply (Rmult_le_compat_l m) in Hc; [|lra].
    lra.
Qed.

End Remainders.

(** ** Pressure compensation model *)

Section Compensation.

Lemma C_to_K_Fin (c : R) : C_to_K (Fin c) = Fin (c + 273.15).
Proof. reflexivity. Qed.

(** In exact arithmetic: in gauge-constant mode, at an ambient temperature
    equal to the reference temperature (other than absolute zero, -273.15
    degrees Celsius), the compensated pressure is the reference gauge
    pressure.  With binary64 arithmetic it is so up to rounding (see the
    binary64 part on pressure compensation). *)
Lemma compensatePressurePsi_same_temperature_exact (gaugePsiRef refTempC ambientPressurePsi : R) :
  refTempC <> -273.15 ->
  compensatePressurePsi (Fin gaugePsiRef) (Fin refTempC) (Fin refTempC)
                        (Fin ambientPressurePsi) false
  = Fin gaugePsiRef.
Proof.
  intros HT. unfold compensatePressurePsi. rewrite C_to_K_Fin.
  rewrite div_Fin by lra. cbn. f_equal. field. lra.
Qed.

(** At a reference temperature of absolute zero the temperature ratio is
    [0 / 0], and the result is [NaN]: the side condition is needed. *)
Lemma compensatePressurePsi_absolute_zero (gaugePsiRef ambientPressurePsi : R) :
  compensatePressurePsi (Fin gaugePsiRef) (Fin (-273.15)) (Fin (-273.15))
                        (Fin ambientPressurePsi) false
  = NaN.
Proof.
  unfold compensatePressurePsi. rewrite C_to_K_Fin. cbn.
  rewrite Reqb_true by lra. unfold Num.inf_of_sign.
  rewrite !Rltb_false by lra. reflexivity.
Qed.

(** In exact arithmetic: in absolute-constant mode the absolute pressure is
    held at the reference absolute value (gauge reference plus ambient) and
    the gauge is recomputed from the same ambient pressure, so under any
    finite ambient pressure the result is the reference gauge pressure,
    whatever the two temperatures are (finite or not).  With binary64
    arithmetic it is so up to rounding (see the binary64 part on pressure
    compensation). *)
Lemma compensatePressurePsi_absolute_constant_exact
    (gaugePsiRef : num) (ambientPressurePsi : R) (refTempC ambientTempC : num) :
  compensatePressurePsi gaugePsiRef refTempC ambientTempC
                        (Fin ambientPressurePsi) true
  = gaugePsiRef.
Proof.
  unfold compensatePressurePsi.
  destruct gaugePsiRef as [g | | |]; cbn; try reflexivity. f_equal. ring.
Qed.

(** Under an infinite ambient pressure the sum and the difference cancel to
    [NaN]. *)
Lemma compensatePressurePsi_infinite_ambient (gaugePsiRef : R) (refTempC ambientTempC : num) :
  compensatePressurePsi (Fin gaugePsiRef) refTempC ambientTempC PInf true = NaN.
Proof. reflexivity. Qed.

(** The scenario of the specification: 60 PSI tuned at 20 degrees, ridden at
    5 degrees under 14.0 PSI ambient. *)
Example compensatePressurePsi_scenario :
  compensatePressurePsi (Fin 60) (Fin 20) (Fin 5) (Fin 14) false
  = Fin (74 * (278.15 / 293.15) - 14).
Proof.
  unfold compensatePressurePsi. rewrite !C_to_K_Fin.
  rewrite div_Fin by lra. cbn. f_equal. lra.
Qed.

End Compensation.

(** ** Angles *)

Section Angles.

Lemma clampDeg_Fin (x : R) : clampDeg (Fin x) = Fin (Rfmod x 360).
Proof.
  unfold clampDeg. rewrite rem_Fin by lra. cbn [Num.add].
  rewrite rem_Fin by lra. f_equal.
  destruct (Rrem_congruent 360 x) as [k Hk].
  pose proof (Rrem_range 360 ltac:(lra) x) as Hr.
  rewrite Rrem_nonneg by lra. rewrite Hk.
  replace (x - 360 * IZR k + 360) with (x + 360 * IZR (1 - k))
    by (rewrite minus_IZR; ring).
  apply Rfmod_shift. lra.
Qed.

Lemma clampDeg_range (x : R) : 0 <= Rfmod x 360 < 360.
Proof. apply Rfmod_range. lra. Qed.

Lemma angleDiff_Fin (a b : R) : angleDiff (Fin a) (Fin b) = Fin (wrap180 (a - b)).
Proof.
  unfold angleDiff, wrap180. rewrite !clampDeg_Fin.
  cbn [Num.sub Num.add Num.neg]. rewrite rem_Fin by lra.
  cbn [Num.sub Num.add Num.neg]. f_equal.
  pose proof (clampDeg_range a) as Ha. pose proof (clampDeg_range b) as Hb.
  rewrite Rrem_nonneg by lra.
  unfold Rfmod at 2 3.
  set (ka := Zfloor (a / 360)). set (kb := Zfloor (b / 360)).
  replace (a - 360 * IZR ka + - (b - 360 * IZR kb) + 540)
    with (a - b + 180 + 360 * IZR (1 - ka + kb))
    by (rewrite plus_IZR, minus_IZR; ring).
  rewrite Rfmod_shift by lra. ring.
Qed.

Lemma wrap180_range (x : R) : -180 <= wrap180 x < 180.
Proof. unfold wrap180. pose proof (Rfmod_range 360 ltac:(lra) (x + 180)). lra. Qed.

Lemma wrap180_congruent (x : R) : exists k : Z, wrap180 x = x + 360 * IZR k.
Proof.
  exists (- Zfloor ((x + 180) / 360))%Z. unfold wrap180, Rfmod.
  rewrite opp_IZR. ring.
Qed.



Lemma toRad_Fin (d : R) : toRad (Fin d) = Fin (d * PI / 180).
Proof. unfold toRad. cbn [Num.mul]. now rewrite div_Fin by lra. Qed.

Lemma cos_turns (y : R) (k : Z) : cos (y + 2 * IZR k * PI) = cos y.
Proof.
  destruct (Z_le_gt_dec 0 k) as [Hk | Hk].
  - rewrite <- (Z2Nat.id k Hk), <- INR_IZR_INZ. apply cos_period.
  - rewrite <- (cos_period (y + 2 * IZR k * PI) (Z.to_nat (- k))).
    rewrite INR_IZR_INZ, Z2Nat.id by lia. rewrite opp_IZR. f_equal. ring.
Qed.

Lemma sin_turns (y : R) (k : Z) : sin (y + 2 * IZR k * PI) = sin y.
Proof.
  destruct (Z_le_gt_dec 0 k) as [Hk | Hk].
  - rewrite <- (Z2Nat.id k Hk), <- INR_IZR_INZ. apply sin_period.
  - rewrite <- (sin_period (y + 2 * IZR k * PI) (Z.to_nat (- k))).
    rewrite INR_IZR_INZ, Z2Nat.id by lia. rewrite opp_IZR. f_equal. ring.
Qed.

Lemma cos_deg_turns (x : R) (k : Z) : cos ((x + 360 * IZR k) * PI / 180) = cos (x * PI / 180).
Proof.
  replace ((x + 360 * IZR k) * PI / 180) with (x * PI / 180 + 2 * IZR k * PI) by field.
  apply cos_turns.
Qed.

Lemma sin_deg_turns (x : R) (k : Z) : sin ((x + 360 * IZR k) * PI / 180) = sin (x * PI / 180).
Proof.
  replace ((x + 360 * IZR k) * PI / 180) with (x * PI / 180 + 2 * IZR k * PI) by field.
  apply sin_turns.
Qed.

(** On finite angles [angleDiff] is a finite number in [-180, 180). *)
Lemma angleDiff_range (a b : R) :
  exists d : R, angleDiff (Fin a) (Fin b) = Fin d /\ -180 <= d < 180.
Proof.
  exists (wrap180 (a - b)). split; [apply angleDiff_Fin | apply wrap180_range].
Qed.

(** On a finite angle [clampDeg] is a finite number in [0, 360). *)
Lemma clampDeg_in_turn (x : R) :
  exists d : R, clampDeg (Fin x) = Fin d /\ 0 <= d < 360.
Proof.
  exists (Rfmod x 360). split; [apply clampDeg_Fin | apply clampDeg_range].
Qed.

End Angles.

(** ** Wind components against the optimizer's geometry *)

Section WindGeometry.

Lemma delta_cos (wf h : R) :
  cos (wrap180 (h - Rfmod (wf + 180) 360) * PI / 180) = - cos (windAngle wf h).
Proof.
  destruct (wrap180_congruent (h - Rfmod (wf + 180) 360)) as [k2 ->].
  rewrite cos_deg_turns. unfold Rfmod. set (k1 := Zfloor ((wf + 180) / 360)).
  replace (h - (wf + 180 - 360 * IZR k1)) with (h - wf - 180 + 360 * IZR k1) by ring.
  rewrite cos_deg_turns.
  replace ((h - wf - 180) * PI / 180) with (- (windAngle wf h + PI))
    by (unfold windAngle; field).
  now rewrite cos_neg, neg_cos.
Qed.

Lemma delta_sin (wf h : R) :
  sin (wrap180 (h - Rfmod (wf + 180) 360) * PI / 180) = sin (windAngle wf h).
Proof.
  destruct (wrap180_congruent (h - Rfmod (wf + 180) 360)) as [k2 ->].
  rewrite sin_deg_turns. unfold Rfmod. set (k1 := Zfloor ((wf + 180) / 360)).
  replace (h - (wf + 180 - 360 * IZR k1)) with (h - wf - 180 + 360 * IZR k1) by ring.
  rewrite sin_deg_turns.
  replace ((h - wf - 180) * PI / 180) with (- (windAngle wf h + PI))
    by (unfold windAngle; field).
  rewrite sin_neg, neg_sin. ring.
Qed.

Lemma alpha_turns (wf h : R) :
  exists k : Z, Rrem (wf - h + 360) 360 * (PI / 180) = windAngle wf h + 2 * IZR k * PI.
Proof.
  destruct (Rrem_congruent 360 (wf - h + 360)) as [k ->].
  exists (1 - k)%Z. unfold windAngle. rewrite minus_IZR. field.
Qed.

Lemma scoreHeading_tail (wf ws h : R) (pen : option num) :
  Scored.tailComponent (scoreHeading (Fin wf) (Fin ws) (Fin h) pen)
  = Fin (ws * - cos (windAngle wf h)).
Proof.
  unfold scoreHeading. cbn [Scored.tailComponent Num.add].
  rewrite clampDeg_Fin, angleDiff_Fin, toRad_Fin. cbn [Num.cos Num.mul].
  now rewrite delta_cos.
Qed.

Lemma scoreHeading_cross (wf ws h : R) (pen : option num) :
  Scored.crossComponent (scoreHeading (Fin wf) (Fin ws) (Fin h) pen)
  = Fin (Rabs (ws * sin (windAngle wf h))).
Proof.
  unfold scoreHeading. cbn [Scored.crossComponent Num.add].
  rewrite clampDeg_Fin, angleDiff_Fin, toRad_Fin. cbn [Num.sin Num.mul Num.abs].
  now rewrite delta_sin.
Qed.

Lemma headwindSigned_Fin (wf h ws : R) :
  headwindSigned (Fin wf) (Fin h) (Fin ws) = Fin (ws * cos (windAngle wf h)).
Proof.
  unfold headwindSigned. cbn [Num.sub Num.add Num.neg].
  rewrite rem_Fin, div_Fin by lra. cbn [Num.mul Num.cos].
  fold (wf - h).
  destruct (alpha_turns wf h) as [k ->]. now rewrite cos_turns.
Qed.

Lemma windComponents_headwind (wf h ws : R) :
  headwind (windComponents (Fin wf) (Fin h) (Fin ws))
  = Num.abs (headwindSigned (Fin wf) (Fin h) (Fin ws)).
Proof. reflexivity. Qed.

Lemma windComponents_headOrTail (wf h ws : R) :
  headOrTail (windComponents (Fin wf) (Fin h) (Fin ws))
  = if (headwindSigned (Fin wf) (Fin h) (Fin ws) >=? Fin 0)%num
    then "headwind"%string else "tailwind"%string.
Proof. reflexivity. Qed.

Lemma windComponents_crosswind (wf h ws : R) :
  crosswind (windComponents (Fin wf) (Fin h) (Fin ws))
  = Fin (Rabs (ws * sin (windAngle wf h))).
Proof.
  unfold windComponents. cbn [crosswind Num.sub Num.add Num.neg].
  rewrite rem_Fin, div_Fin by lra. cbn [Num.mul Num.sin Num.abs].
  fold (wf - h).
  destruct (alpha_turns wf h) as [k ->]. now rewrite sin_turns.
Qed.

(** The wind scenario of the specification: wind from the west (270) at
    speed 12, ridden eastwards (90), is a pure tailwind of 12. *)
Example scoreHeading_west_wind_east_heading :
  let sh := scoreHeading (Fin 270) (Fin 12) (Fin 90) None in
  Scored.tailComponent sh = Fin 12
  /\ Scored.crossComponent sh = Fin 0
  /\ headOrTail (windComponents (Fin 270) (Fin 90) (Fin 12)) = "tailwind"%string.
Proof.
  cbv zeta. rewrite scoreHeading_tail, scoreHeading_cross, windComponents_headOrTail.
  rewrite headwindSigned_Fin.
  replace (windAngle 270 90) with PI by (unfold windAngle; lra).
  rewrite cos_PI, sin_PI. repeat split.
  - f_equal. lra.
  - f_equal. rewrite Rmult_0_r. apply Rabs_R0.
  - cbn. rewrite Rltb_true by lra. reflexivity.
Qed.

(** In exact arithmetic: for finite wind direction, heading and speed,
    [windComponents] agrees with the geometry of [scoreHeading]: the crosswind
    is the cross component, the signed headwind is the negated tail component
    (so the headwind magnitude is the magnitude of the tail component), and
    the wind is classified "tailwind" exactly when the tail component is
    strictly positive.  With binary64 arithmetic the two agree up to rounding
    (see the binary64 part on the two wind decompositions). *)
Lemma windComponents_agrees_with_scoreHeading_exact (windFromDeg headingDeg windSpeed : R) :
  let wc := windComponents (Fin windFromDeg) (Fin headingDeg) (Fin windSpeed) in
  let sh := scoreHeading (Fin windFromDeg) (Fin windSpeed) (Fin headingDeg) None in
  crosswind wc = Scored.crossComponent sh
  /\ headwindSigned (Fin windFromDeg) (Fin headingDeg) (Fin windSpeed)
     = Num.neg (Scored.tailComponent sh)
  /\ headwind wc = Num.abs (Scored.tailComponent sh)
  /\ (headOrTail wc = "tailwind"%string
      <-> (Fin 0 <? Scored.tailComponent sh)%num = true).
Proof.
  intros wc sh. subst wc sh.
  rewrite windComponents_crosswind, windComponents_headwind, windComponents_headOrTail.
  rewrite headwindSigned_Fin, scoreHeading_cross, scoreHeading_tail.
  set (c := cos (windAngle windFromDeg headingDeg)).
  repeat split.
  - cbn. f_equal. ring.
  - cbn. f_equal. rewrite <- (Rabs_Ropp (windSpeed * - c)). f_equal. ring.
  - cbn. unfold Rltb.
    destruct (Rlt_dec (windSpeed * c) 0), (Rlt_dec 0 (windSpeed * - c));
      cbn; try reflexivity; try discriminate; intros _; exfalso; lra.
  - cbn. unfold Rltb.
    destruct (Rlt_dec (windSpeed * c) 0), (Rlt_dec 0 (windSpeed * - c));
      cbn; try reflexivity; try discriminate; exfalso; lra.
Qed.

End WindGeometry.

(** ** Compass labels *)

Section Compass.

Lemma Rfmod_IZR (n k : Z) : (0 < k)%Z -> Rfmod (IZR n) (IZR k) = IZR (n mod k).
Proof.
  intros Hk. symmetry.
  assert (Hk' : 0 < IZR k) by now apply IZR_lt.
  refine (proj2 (Rfmod_unique (IZR k) Hk' (IZR n) (IZR (n mod k)) (n / k) _ _)).
  - rewrite Z.mod_eq by lia. rewrite minus_IZR, mult_IZR. ring.
  - pose proof (Z.mod_pos_bound n k Hk) as [Hlo Hhi].
    split; [now apply IZR_le | now apply IZR_lt].
Qed.

Lemma index_integer {A : Type} (arr : list A) (j : Z) :
  (0 <= j)%Z -> Num.index arr (Fin (IZR j)) = nth_error arr (Z.to_nat j).
Proof.
  intros Hj. unfold Num.index. rewrite ZfloorZ.
  rewrite Reqb_true by reflexivity.
  rewrite Rltb_false by now apply IZR_le. reflexivity.
Qed.

Lemma index_negative {A : Type} (arr : list A) (x : R) :
  x < 0 -> Num.index arr (Fin x) = None.
Proof.
  intros Hx. unfold Num.index. rewrite (Rltb_true x 0) by assumption.
  now rewrite andb_false_r.
Qed.

(** Rounding, reducing modulo 16 and indexing, from an angle already brought
    into one non-negative turn. *)
Lemma compass_of_nonneg (dirs : list string) (c : R) :
  0 <= c ->
  Num.index dirs (Num.round (Fin c / Fin 22.5) mod Fin 16)%num
  = nth_error dirs (Z.to_nat (Zround (c / 22.5) mod 16)).
Proof.
  intros Hc. rewrite div_Fin by lra. cbn [Num.round]. fold (Zround (c / 22.5)).
  assert (Hn : (0 <= Zround (c / 22.5))%Z).
  { apply Zfloor_lub. cbn.
    assert (0 <= c / 22.5) by (apply Rmult_le_pos; lra). lra. }
  rewrite rem_Fin by lra.
  rewrite Rrem_nonneg by (try lra; now apply IZR_le).
  rewrite (Rfmod_IZR _ 16) by lia.
  apply index_integer. apply Z.mod_pos_bound. lia.
Qed.

Lemma Zround_turns (deg : R) (k : Z) :
  (Zround ((deg - 360 * IZR k) / 22.5) mod 16 = Zround (deg / 22.5) mod 16)%Z.
Proof.
  unfold Zround.
  replace ((deg - 360 * IZR k) / 22.5 + / 2) with (deg / 22.5 + / 2 + IZR (- k * 16))
    by (rewrite mult_IZR, opp_IZR; lra).
  rewrite Zfloor_addz. apply Z_mod_plus_full.
Qed.

Lemma compassLabel_defined (deg : R) : exists label, compassLabel deg = Some label.
Proof.
  unfold compassLabel.
  destruct (nth_error COMPASS_16 (Z.to_nat (Zround (deg / 22.5) mod 16))) eqn:E.
  - now exists s.
  - apply nth_error_None in E. cbn in E.
    pose proof (Z.mod_pos_bound (Zround (deg / 22.5)) 16 ltac:(lia)). lia.
Qed.

(** [bearingToCompass] labels every finite degree value as specified. *)
Lemma bearingToCompass_label (deg : R) : bearingToCompass (Fin deg) = compassLabel deg.
Proof.
  unfold bearingToCompass, compassLabel. rewrite clampDeg_Fin.
  rewrite compass_of_nonneg by apply clampDeg_range.
  unfold Rfmod. now rewrite Zround_turns.
Qed.

(** [toCompass] does so from zero upwards. *)
Lemma toCompass_label_nonneg (deg : R) : 0 <= deg -> toCompass (Fin deg) = compassLabel deg.
Proof.
  intros Hd. unfold toCompass, compassLabel. cbv zeta.
  rewrite rem_Fin by lra. rewrite Rrem_nonneg by lra.
  rewrite compass_of_nonneg by (apply Rfmod_range; lra).
  unfold Rfmod. now rewrite Zround_turns.
Qed.


(** [toCompass] does the same on every degree value from zero upwards. *)
Theorem toCompass_specified_label_nonneg (deg : R) :
  0 <= deg ->
  exists label : string,
    toCompass (Fin deg) = Some label /\ compassLabel deg = Some label.
Proof.
  intros Hd. destruct (compassLabel_defined deg) as [label Hl].
  exists label. split; [| exact Hl]. now rewrite toCompass_label_nonneg.
Qed.

(** At a wind from the west, 270 degrees. *)
Lemma toCompass_specified_label_nonneg_witness :
  exists label : string,
    toCompass (Fin 270) = Some label /\ compassLabel 270 = Some label.
Proof.
  apply (toCompass_specified_label_nonneg 270). lra.
Defined.

Lemma Rrem_small_negative (x y : R) : 0 < y -> - y < x <= 0 -> Rrem x y = x.
Proof.
  intros Hy Hx. unfold Rrem, Ztrunc.
  assert (Hi : 0 < / y) by now apply Rinv_0_lt_compat.
  assert (Hq : -1 < x / y <= 0).
  { unfold Rdiv. split.
    - apply (Rmult_lt_reg_r y); [assumption|]. rewrite Rmult_assoc, Rinv_l by lra. lra.
    - apply (Rmult_le_reg_r y); [assumption|]. rewrite Rmult_assoc, Rinv_l by lra. lra. }
  destruct (Rlt_dec (x / y) 0) as [Hneg | Hzero].
  - rewrite Rltb_true by assumption. rewrite (Zceil_eq 0); cbn; lra.
  - rewrite Rltb_false by lra. rewrite (Zfloor_eq 0); cbn; lra.
Qed.

(** C9, at a westerly bearing written as -90 degrees: [toCompass] leaves the
    remainder negative, indexes its array at -4 and yields [undefined], where
    the specified label, which [bearingToCompass] returns, is "W". *)
Theorem toCompass_negative_bearing :
  toCompass (Fin (-90)) = None
  /\ bearingToCompass (Fin (-90)) = Some "W"%string
  /\ compassLabel (-90) = Some "W"%string.
Proof.
  assert (Hr : Zround (-90 / 22.5) = (-4)%Z).
  { unfold Zround. apply Zfloor_eq. cbn. lra. }
  assert (Hl : compassLabel (-90) = Some "W"%string).
  { unfold compassLabel. rewrite Hr. reflexivity. }
  split; [| split; [rewrite bearingToCompass_label |]; exact Hl].
  unfold toCompass. cbv zeta.
  rewrite rem_Fin by lra. rewrite Rrem_small_negative by lra.
  rewrite div_Fin by lra. cbn [Num.round]. fold (Zround (-90 / 22.5)). rewrite Hr.
  rewrite rem_Fin by lra. rewrite Rrem_small_negative by lra.
  apply index_negative. lra.
Qed.

End Compass.

(** ** The selection loop keeps the picked headings apart *)

Section Selection.





Lemma pick_In (topK m : num) (candidates picked : list Recommendation) (c : Recommendation) :
  In c (pick topK m candidates picked) -> In c picked \/ In c candidates.
Proof.
  revert picked. induction candidates as [| x rest IH]; intros picked Hc; cbn in Hc.
  - now left.
  - destruct (Fin (INR (List.length picked)) >=? topK)%num; [now left|].
    destruct (negb _).
    + apply IH in Hc. destruct Hc as [Hc | Hc]; [| right; now right].
      apply in_app_or in Hc. destruct Hc as [Hc | [-> | []]]; [now left | right; now left].
    + apply IH in Hc. destruct Hc as [Hc | Hc]; [now left | right; now right].
Qed.

Lemma insertSorted_In (x c : Recommendation) (l : list Recommendation) :
  In c (insertSorted x l) -> c = x \/ In c l.
Proof.
  induction l as [| y l IH]; cbn [insertSorted].
  - intros [<- | []]. now left.
  - destruct (compareScore x y >? Fin 0)%num; cbn [In].
    + intros [<- | Hc]; [right; now left|].
      apply IH in Hc. destruct Hc; [now left | right; now right].
    + intros [<- | Hc]; [now left | now right].
Qed.

Lemma sortByScore_In (c : Recommendation) (l : list Recommendation) :
  In c (sortByScore l) -> In c l.
Proof.
  induction l as [| x l IH]; cbn; [easy|].
  intros Hc. apply insertSorted_In in Hc. destruct Hc as [-> | Hc]; [now left|].
  right. now apply IH.
Qed.

(** A list on which the comparator never asks for a swap is left as it is. *)
Lemma sortByScore_stable (l : list Recommendation) :
  ForallOrdPairs (fun x y => (compareScore x y >? Fin 0)%num = false) l ->
  sortByScore l = l.
Proof.
  induction 1 as [| x l Hx Hl IH]; cbn [sortByScore]; [reflexivity|].
  rewrite IH. destruct l as [| y l']; cbn [insertSorted]; [reflexivity|].
  inversion Hx as [| ? ? Hxy _]; subst. now rewrite Hxy.
Qed.

(** Every candidate of the lattice is built by [candidate] at a heading the
    loop variable took. *)
Lemma lattice_candidates (P : Recommendation -> Prop) (wf ws pen : num) (r : R) allowed :
  forall (fuel : nat) (x : R) (acc out : list Recommendation),
    (forall y : R, P (candidate wf ws pen (Fin y))) ->
    Forall P acc ->
    lattice fuel wf ws (Fin r) pen allowed (Fin x) acc = Some out ->
    Forall P out.
Proof.
  induction fuel as [| fuel IH]; intros x acc out HP Hacc Hrun; cbn in Hrun.
  - discriminate.
  - destruct (Rltb x 360).
    + eapply IH; [exact HP | | exact Hrun].
      destruct (negb _); [assumption|].
      apply Forall_app. split; [assumption|]. constructor; [apply HP | constructor].
    + injection Hrun as <-. assumption.
Qed.

End Selection.

(** ** The lattice loop *)

Section Lattice.

Variables (wf ws pen : num) (allowed : option (list (num * num))).

Lemma lattice_step (fuel : nat) (r x : R) (acc : list Recommendation) :
  x < 360 -> inIntervals (Fin x) allowed = true ->
  lattice (S fuel) wf ws (Fin r) pen allowed (Fin x) acc
  = lattice fuel wf ws (Fin r) pen allowed (Fin (x + r))
            (acc ++ [candidate wf ws pen (Fin x)]).
Proof.
  intros Hx Hin. cbn [lattice Num.lt]. rewrite Rltb_true by assumption.
  now rewrite Hin.
Qed.

Lemma lattice_stop (fuel : nat) (r x : R) (acc : list Recommendation) :
  360 <= x -> lattice (S fuel) wf ws (Fin r) pen allowed (Fin x) acc = Some acc.
Proof.
  intros Hx. cbn [lattice Num.lt]. now rewrite Rltb_false by assumption.
Qed.

(** With a positive step, [n] iterations bring the loop variable from [x] to
    360 or beyond once [360 - x <= n * r]; any larger amount of fuel lets the
    loop finish. *)
Lemma lattice_terminates (r : R) :
  0 < r ->
  forall (n : nat) (x : R) (acc : list Recommendation),
    360 - x <= INR n * r ->
    forall fuel : nat, (n < fuel)%nat ->
      exists out, lattice fuel wf ws (Fin r) pen allowed (Fin x) acc = Some out.
Proof.
  intros Hr. induction n as [| n IH]; intros x acc Hn fuel Hfuel.
  - destruct fuel as [| fuel]; [lia|]. exists acc. apply lattice_stop. cbn in Hn. lra.
  - destruct fuel as [| fuel]; [lia|]. cbn [lattice Num.lt Num.add].
    destruct (Rltb x 360); [| now exists acc].
    apply IH; [| lia]. rewrite S_INR in Hn. lra.
Qed.

Lemma lattice_total (res : num) :
  (Fin 0 <? res)%num = true ->
  exists n : nat, forall fuel : nat, (n <= fuel)%nat ->
    exists out, lattice fuel wf ws res pen allowed (Fin 0) [] = Some out.
Proof.
  destruct res as [r | | |]; cbn [Num.lt]; intros Hres; try discriminate.
  - apply Rltb_iff in Hres.
    set (k := Zceil (360 / r)).
    assert (Hk : 360 / r <= IZR k) by apply Zceil_bound.
    assert (Hq : 0 < 360 / r) by (apply Rdiv_lt_0_compat; lra).
    assert (Hk0 : (0 <= k)%Z) by (apply le_IZR; lra).
    exists (S (Z.to_nat k)). intros fuel Hfuel.
    apply (lattice_terminates r Hres (Z.to_nat k)); [| lia].
    rewrite INR_IZR_INZ, Z2Nat.id by assumption.
    apply (Rmult_le_compat_r r) in Hk; [| lra].
    replace (360 / r * r) with 360 in Hk by (field; lra). lra.
  - exists 2%nat. intros fuel Hfuel.
    destruct fuel as [| [| fuel]]; try lia.
    cbn [lattice Num.lt Num.add]. rewrite Rltb_true by lra.
    eexists. reflexivity.
Qed.

Lemma below_360_step (h res : num) :
  (h <? Fin 360)%num = true -> (res <=? Fin 0)%num = true ->
  (h + res <? Fin 360)%num = true.
Proof.
  destruct h as [x | | |], res as [r | | |]; cbn; intros Hh Hres;
    try discriminate; try reflexivity.
  apply Rltb_iff in Hh. apply Rltb_true.
  unfold Rltb in Hres. destruct (Rlt_dec 0 r); [discriminate | lra].
Qed.

(** With a step that is zero or negative the loop condition never fails. *)
Lemma lattice_diverges (res : num) :
  (res <=? Fin 0)%num = true ->
  forall (fuel : nat) (h : num) (acc : list Recommendation),
    (h <? Fin 360)%num = true ->
    lattice fuel wf ws res pen allowed h acc = None.
Proof.
  intros Hres. induction fuel as [| fuel IH]; intros h acc Hh; cbn [lattice].
  - reflexivity.
  - rewrite Hh. apply IH. now apply below_360_step.
Qed.

(** With a positive step the loop variable stays within [0, 360) at every
    candidate it produces. *)
Lemma lattice_headings_in_turn (r : R) :
  0 < r ->
  forall (fuel : nat) (x : R) (acc out : list Recommendation),
    0 <= x -> Forall headingInTurn acc ->
    lattice fuel wf ws (Fin r) pen allowed (Fin x) acc = Some out ->
    Forall headingInTurn out.
Proof.
  intros Hr. induction fuel as [| fuel IH]; intros x acc out Hx Hacc Hrun;
    cbn [lattice Num.lt Num.add] in Hrun.
  - discriminate.
  - destruct (Rltb x 360) eqn:Hlt.
    + apply Rltb_iff in Hlt.
      eapply IH; [| | exact Hrun]; [lra |].
      destruct (negb _); [assumption|].
      apply Forall_app. split; [assumption|].
      constructor; [| constructor]. exists x. split; [reflexivity | lra].
    + injection Hrun as <-. assumption.
Qed.

(** A [NaN] step, which is neither positive nor at most zero, ends the loop
    after its first iteration. *)
Lemma lattice_NaN_step (fuel : nat) :
  exists out, lattice (S (S fuel)) wf ws NaN pen allowed (Fin 0) [] = Some out.
Proof.
  cbn [lattice Num.lt Num.add]. rewrite Rltb_true by lra. eexists. reflexivity.
Qed.

End Lattice.

Section RecommendHeadings.

(** In exact arithmetic: [recommendHeadings] returns for every finite wind
    direction and speed and every options value whose resolution is strictly
    positive (any sufficient amount of fuel lets the lattice loop, which
    starts at 0 and advances by the resolution, reach 360); and when the
    resolution is zero or negative the loop never ends, so positivity is
    necessary.  With binary64 arithmetic a positive step can be too small to
    advance the loop (see the binary64 part on the lattice loop). *)
Lemma recommendHeadings_terminates_exact (windFromDeg windSpeed : R) (opts : RecommendOptions) :
  ((Fin 0 <? orDefault (resolutionDeg opts) (Fin 5))%num = true ->
   exists n : nat, forall fuel : nat, (n <= fuel)%nat ->
     exists out, recommendHeadings fuel (Fin windFromDeg) (Fin windSpeed) opts = Some out)
  /\
  ((orDefault (resolutionDeg opts) (Fin 5) <=? Fin 0)%num = true ->
   forall fuel : nat, recommendHeadings fuel (Fin windFromDeg) (Fin windSpeed) opts = None).
Proof.
  split; intros Hres.
  - destruct (lattice_total (Fin windFromDeg) (Fin windSpeed)
                (orDefault (crosswindPenalty opts) (Fin 0.4)) (allowedHeadings opts)
                _ Hres) as [n Hn].
    exists n. intros fuel Hfuel. destruct (Hn fuel Hfuel) as [cands Hc].
    unfold recommendHeadings. rewrite Hc. eexists. reflexivity.
  - intros fuel. unfold recommendHeadings.
    rewrite lattice_diverges; [reflexivity | assumption |].
    apply Rltb_true. lra.
Qed.


(** Every heading returned under a positive finite resolution lies in
    [0, 360). *)
Theorem recommendHeadings_headings_in_turn
    (fuel : nat) (wf ws : num) (opts : RecommendOptions) (r : R)
    (out : list Recommendation) :
  orDefault (resolutionDeg opts) (Fin 5) = Fin r -> 0 < r ->
  recommendHeadings fuel wf ws opts = Some out ->
  Forall headingInTurn out.
Proof.
  intros Hres Hr Hrun. unfold recommendHeadings in Hrun. rewrite Hres in Hrun.
  destruct (lattice _ _ _ _ _ _ _ _) as [cands |] eqn:Hlat; [| discriminate].
  injection Hrun as <-.
  apply lattice_headings_in_turn in Hlat; [| assumption | lra | constructor].
  rewrite Forall_forall in *. intros c Hc.
  apply pick_In in Hc. destruct Hc as [[] | Hc].
  apply Hlat. now apply sortByScore_In.
Qed.

End RecommendHeadings.

(** ** Evaluating the optimizer on concrete inputs *)

Section Evaluation.

Lemma wrap180_small (x : R) : -180 <= x < 180 -> wrap180 x = x.
Proof. intros Hx. unfold wrap180. rewrite Rfmod_small; lra. Qed.

Lemma tooClose_Fin (m a b : R) (p c : Recommendation) :
  headingDeg p = Fin a -> headingDeg c = Fin b ->
  tooClose (Fin m) p c = Rltb (Rabs (wrap180 (a - b))) m.
Proof. intros Hp Hc. unfold tooClose. rewrite Hp, Hc, angleDiff_Fin. reflexivity. Qed.

Lemma Rltb_Rabs_false (x m : R) : m <= x \/ x <= - m -> Rltb (Rabs x) m = false.
Proof.
  intros H. apply Rltb_false. unfold Rabs. destruct (Rcase_abs x); lra.
Qed.

Lemma Rltb_Rabs_true (x m : R) : - m < x < m -> Rltb (Rabs x) m = true.
Proof.
  intros H. apply Rltb_true. unfold Rabs. destruct (Rcase_abs x); lra.
Qed.

Lemma pick_take (topK m : num) (c : Recommendation) (rest picked : list Recommendation) :
  (Fin (INR (List.length picked)) >=? topK)%num = false ->
  existsb (fun p => tooClose m p c) picked = false ->
  pick topK m (c :: rest) picked = pick topK m rest (picked ++ [c]).
Proof.
  intros Hlen Hfar. cbn [pick]. rewrite Hlen.
  change (existsb _ picked) with (existsb (fun p => tooClose m p c) picked).
  now rewrite Hfar.
Qed.


Lemma pick_full (topK m : num) (candidates picked : list Recommendation) :
  (Fin (INR (List.length picked)) >=? topK)%num = true ->
  pick topK m candidates picked = picked.
Proof.
  intros Hlen. destruct candidates as [| c rest]; cbn [pick]; [reflexivity|].
  now rewrite Hlen.
Qed.

Lemma length_ge_Fin (n : nat) (k : R) :
  (Fin (INR n) >=? Fin k)%num = negb (Rltb (INR n) k).
Proof. reflexivity. Qed.

(** The loop only ever appends to its accumulator. *)
Lemma lattice_extends (wf ws pen : num) (r : R) allowed :
  forall (fuel : nat) (x : R) (acc out : list Recommendation),
    lattice fuel wf ws (Fin r) pen allowed (Fin x) acc = Some out ->
    exists rest, out = acc ++ rest.
Proof.
  induction fuel as [| fuel IH]; intros x acc out Hrun; cbn [lattice Num.lt Num.add] in Hrun.
  - discriminate.
  - destruct (Rltb x 360).
    + apply IH in Hrun. destruct Hrun as [rest ->].
      destruct (negb _); [now exists rest|].
      rewrite <- app_assoc. eexists. reflexivity.
    + injection Hrun as <-. exists []. now rewrite app_nil_r.
Qed.

(** *** Non-finite wind *)

Lemma add_NaN_r (a : num) : (a + NaN)%num = NaN.
Proof. destruct a; reflexivity. Qed.

Lemma sub_NaN_r (a : num) : (a - NaN)%num = NaN.
Proof. destruct a; reflexivity. Qed.


Lemma mul_NaN_r (a : num) : (a * NaN)%num = NaN.
Proof. destruct a; reflexivity. Qed.






(** *** Tactics for concrete runs of the selection loop *)

Ltac eval_length :=
  cbn [List.length app]; rewrite length_ge_Fin; cbn [INR];
  first [rewrite Rltb_true by lra | rewrite Rltb_false by lra]; reflexivity.

Ltac eval_tooClose :=
  cbn [existsb app];
  repeat (erewrite tooClose_Fin by reflexivity;
          rewrite wrap180_small by lra;
          first [rewrite Rltb_Rabs_false by lra | rewrite Rltb_Rabs_true by lra]);
  reflexivity.

Lemma candidate_score (wf ws pen h : R) :
  score (candidate (Fin wf) (Fin ws) (Fin pen) (Fin h))
  = Fin (ws * - cos (windAngle wf h) - pen * Rabs (ws * sin (windAngle wf h))).
Proof.
  unfold candidate. cbn [score]. unfold scoreHeading.
  cbn [Scored.score orDefault Num.add].
  rewrite clampDeg_Fin, angleDiff_Fin, toRad_Fin.
  cbn [Num.cos Num.sin Num.mul Num.abs Num.sub Num.add Num.neg].
  now rewrite delta_cos, delta_sin.
Qed.

Lemma compareScore_Fin (x y : Recommendation) (a b : R) :
  score x = Fin a -> score y = Fin b ->
  (compareScore x y >? Fin 0)%num = Rltb 0 (b - a).
Proof. intros Hx Hy. unfold compareScore. rewrite Hx, Hy. reflexivity. Qed.

Lemma insertSorted_before (x y : Recommendation) (l : list Recommendation) :
  (compareScore x y >? Fin 0)%num = false -> insertSorted x (y :: l) = x :: y :: l.
Proof. intros H. cbn [insertSorted]. now rewrite H. Qed.

Lemma insertSorted_after (x y : Recommendation) (l : list Recommendation) :
  (compareScore x y >? Fin 0)%num = true -> insertSorted x (y :: l) = y :: insertSorted x l.
Proof. intros H. cbn [insertSorted]. now rewrite H. Qed.

Lemma westWind_score_0 : score (westWind 0) = Fin (-4.8).
Proof.
  unfold westWind. rewrite candidate_score. f_equal.
  replace (windAngle 270 0) with (3 * (PI / 2)) by (unfold windAngle; lra).
  rewrite cos_3PI2, sin_3PI2. rewrite Rabs_left by lra. lra.
Qed.

Lemma westWind_score_90 : score (westWind (0 + 90)) = Fin 12.
Proof.
  unfold westWind. rewrite candidate_score. f_equal.
  replace (windAngle 270 (0 + 90)) with PI by (unfold windAngle; lra).
  rewrite cos_PI, sin_PI. rewrite Rabs_right by lra. lra.
Qed.

Lemma westWind_score_180 : score (westWind (0 + 90 + 90)) = Fin (-4.8).
Proof.
  unfold westWind. rewrite candidate_score. f_equal.
  replace (windAngle 270 (0 + 90 + 90)) with (PI / 2) by (unfold windAngle; lra).
  rewrite cos_PI2, sin_PI2. rewrite Rabs_right by lra. lra.
Qed.

Lemma westWind_score_270 : score (westWind (0 + 90 + 90 + 90)) = Fin (-12).
Proof.
  unfold westWind. rewrite candidate_score. f_equal.
  replace (windAngle 270 (0 + 90 + 90 + 90)) with 0 by (unfold windAngle; lra).
  rewrite cos_0, sin_0. rewrite Rabs_right by lra. lra.
Qed.

(** A run of the optimizer: wind from the west at speed 12 on a quarter-turn
    lattice.  Riding east (90) has the full tailwind; north and south tie at
    a pure crosswind and keep their lattice order; the three are a quarter
    turn or more apart, and the fourth candidate is cut by [topK]. *)
Example recommendHeadings_west_wind :
  recommendHeadings 5 (Fin 270) (Fin 12) quarterTurns
  = Some [westWind (0 + 90); westWind 0; westWind (0 + 90 + 90)].
Proof.
  unfold recommendHeadings.
  cbn [quarterTurns resolutionDeg crosswindPenalty allowedHeadings minSeparationDeg topK orDefault].
  do 4 (rewrite lattice_step by (try reflexivity; lra)).
  rewrite lattice_stop by lra. cbn [app].
  fold (westWind 0) (westWind (0 + 90)) (westWind (0 + 90 + 90)) (westWind (0 + 90 + 90 + 90)).
  pose proof westWind_score_0 as H0. pose proof westWind_score_90 as H90.
  pose proof westWind_score_180 as H180. pose proof westWind_score_270 as H270.
  cbn [sortByScore]. change (insertSorted (westWind (0 + 90 + 90 + 90)) []) with [westWind (0 + 90 + 90 + 90)].
  rewrite insertSorted_before
    by (rewrite (compareScore_Fin _ _ _ _ H180 H270); apply Rltb_false; lra).
  rewrite insertSorted_before
    by (rewrite (compareScore_Fin _ _ _ _ H90 H180); apply Rltb_false; lra).
  rewrite insertSorted_after
    by (rewrite (compareScore_Fin _ _ _ _ H0 H90); apply Rltb_true; lra).
  rewrite insertSorted_before
    by (rewrite (compareScore_Fin _ _ _ _ H0 H180); apply Rltb_false; lra).
  rewrite pick_take; [| eval_length | eval_tooClose].
  rewrite pick_take; [| eval_length | eval_tooClose].
  rewrite pick_take; [| eval_length | eval_tooClose].
  rewrite pick_full by eval_length.
  reflexivity.
Qed.


(** The headings of that run lie in [0, 360). *)
Lemma recommendHeadings_headings_in_turn_witness :
  Forall headingInTurn [westWind (0 + 90); westWind 0; westWind (0 + 90 + 90)].
Proof.
  apply (recommendHeadings_headings_in_turn 5 (Fin 270) (Fin 12) quarterTurns 90).
  - reflexivity.
  - lra.
  - exact recommendHeadings_west_wind.
Defined.



End Evaluation.

(** ** Non-finite wind data *)

Section NoWindData.





(** With finite wind data the component renders the recommendations. *)
Lemma BestWindDirection_renders (fuel : nat) (wf ws : R) (opts : RecommendOptions)
    (top : list Recommendation) :
  recommendHeadings fuel (Fin wf) (Fin ws) opts = Some top ->
  exists fromLabel towardLabel toward,
    BestWindDirection fuel (Fin wf) (Fin ws) opts
    = Some (Cards fromLabel towardLabel toward top).
Proof.
  intros Hrun. unfold BestWindDirection. rewrite Hrun. cbn.
  do 3 eexists. reflexivity.
Qed.

End NoWindData.

(** ** Baseline pressure: non-finite inputs and out-of-range widths *)

Section BaselineEdges.

Lemma num_eq_NaN_dec (a : num) : {a = NaN} + {a <> NaN}.
Proof. destruct a; [right | right | right | left]; (reflexivity || discriminate). Qed.

Lemma clamp_not_NaN (v : num) (lo hi : R) :
  lo <= hi -> v <> NaN ->
  exists r : R, clamp v (Fin lo) (Fin hi) = Fin r /\ lo <= r <= hi.
Proof.
  intros Hlh Hv. destruct v as [x | | |]; [| | | contradiction].
  - exists (Rclamp x lo hi). split; [apply clamp_Fin | now apply Rclamp_bounds].
  - exists hi. split; [| lra]. unfold clamp. cbn.
    destruct (Rlt_dec lo hi) as [Hlt | Hge].
    + now rewrite Rltb_true.
    + rewrite Rltb_false by lra. f_equal. lra.
  - exists lo. split; [| lra]. reflexivity.
Qed.

Lemma clamp_NaN (lo hi : num) : clamp NaN lo hi = NaN.
Proof. unfold clamp. destruct lo, hi; reflexivity. Qed.

(** The unclamped pressure is [NaN] only for a [NaN] load. *)
Lemma scaled_not_NaN (load : num) (w : R) s v t :
  0 < w -> load <> NaN ->
  (K * (load / Fin w) * (Fin 1 + SURFACE_MULT s) * (Fin 1 + SPEED_MULT v)
   + TIRE_TYPE_OFFSET t)%num <> NaN.
Proof.
  intros Hw Hl. rewrite SURFACE_MULT_Fin, SPEED_MULT_Fin, TIRE_TYPE_OFFSET_Fin.
  pose proof (surface_factor_pos s) as Hs. pose proof (speed_factor_pos v) as Hv.
  unfold K. destruct load as [x | | |]; [| | | contradiction].
  - rewrite div_Fin by lra. cbn. discriminate.
  - cbn. rewrite (Rltb_false w 0) by lra. unfold Num.inf_of_sign.
    rewrite !Rltb_true by lra. cbn. unfold Num.inf_of_sign.
    rewrite !Rltb_true by lra. cbn. unfold Num.inf_of_sign.
    rewrite !Rltb_true by lra. discriminate.
  - cbn. rewrite (Rltb_false w 0) by lra. unfold Num.inf_of_sign.
    rewrite !Rltb_true by lra. cbn. unfold Num.inf_of_sign.
    rewrite !Rltb_true by lra. cbn. unfold Num.inf_of_sign.
    rewrite !Rltb_true by lra. discriminate.
Qed.

Lemma mul_NaN_l (a : num) : (NaN * a)%num = NaN.
Proof. destruct a; reflexivity. Qed.

Lemma add_NaN_l (a : num) : (NaN + a)%num = NaN.
Proof. destruct a; reflexivity. Qed.

Lemma div_NaN_l (a : num) : (NaN / a)%num = NaN.
Proof. destruct a; reflexivity. Qed.

Lemma div_NaN_r (a : num) : (a / NaN)%num = NaN.
Proof. destruct a; reflexivity. Qed.

(** The clamp of [computeWheelPsi] does not repair a [NaN]: the result is
    [NaN] exactly when the load or the tire width is, and a finite pressure
    within [15,130] otherwise, infinite inputs included. *)
Theorem computeWheelPsi_NaN_or_in_band (p : ComputeWheelPsiParams) :
  (computeWheelPsi p = NaN /\ (loadLbs p = NaN \/ tireWidthMm p = NaN))
  \/ (exists psi : R,
        computeWheelPsi p = Fin psi /\ 15 <= psi <= 130
        /\ loadLbs p <> NaN /\ tireWidthMm p <> NaN).
Proof.
  destruct p as [load width s v t wd]. unfold computeWheelPsi.
  cbn [loadLbs tireWidthMm surface speed tireType].
  destruct (num_eq_NaN_dec width) as [-> | Hw].
  - left. split; [| now right].
    rewrite clamp_NaN, div_NaN_r, mul_NaN_r, !mul_NaN_l, add_NaN_l. apply clamp_NaN.
  - destruct (clamp_not_NaN width 20 90 ltac:(lra) Hw) as [w [-> Hwr]].
    destruct (num_eq_NaN_dec load) as [-> | Hl].
    + left. split; [| now left].
      rewrite div_NaN_l, mul_NaN_r, !mul_NaN_l, add_NaN_l. apply clamp_NaN.
    + right.
      destruct (clamp_not_NaN _ 15 130 ltac:(lra)
                  (scaled_not_NaN load w s v t ltac:(lra) Hl)) as [psi [Hpsi Hband]].
      exists psi. repeat split; try assumption; apply Hband.
Qed.

End BaselineEdges.

Section BaselineWidth.

(** The tire width acts only through its clamp to [20,90]: any narrower tire
    is computed as a 20 mm tire, any wider one as a 90 mm tire, for every load
    (finite or not). *)
Theorem computeWheelPsi_width_through_clamp (load : num) (width : R) s v t wd :
  computeWheelPsi (params load (Fin width) s v t wd)
  = computeWheelPsi (params load (Fin (width_clamped width)) s v t wd).
Proof.
  unfold computeWheelPsi, params. cbn [loadLbs tireWidthMm surface speed tireType].
  rewrite !clamp_Fin. fold (width_clamped width).
  pose proof (width_clamped_range width) as Hw.
  replace (Rclamp (width_clamped width) 20 90) with (width_clamped width); [reflexivity|].
  unfold Rclamp, Rmax, Rmin. repeat destruct (Rle_dec _ _); lra.
Qed.

End BaselineWidth.

(** ** Rounding at the output boundary *)

Section Rounding.

Lemma round_scaled (n s : R) :
  0 < s ->
  (Num.round (Fin n * Fin s) / Fin s)%num = Fin (IZR (Zround (n * s)) / s).
Proof. intros Hs. cbn [Num.mul Num.round]. rewrite div_Fin by lra. reflexivity. Qed.

Lemma Zround_near (x : R) : x - / 2 < IZR (Zround x) <= x + / 2.
Proof. unfold Zround. pose proof (Zfloor_bound (x + / 2)). lra. Qed.

Lemma Zround_IZR (k : Z) : Zround (IZR k) = k.
Proof. unfold Zround. apply Zfloor_eq. lra. Qed.

Lemma Zround_le (x y : R) : x <= y -> (Zround x <= Zround y)%Z.
Proof. intros H. apply Zfloor_le. lra. Qed.

(** [round1] returns the nearest tenth (ties upwards), within 0.05 of its
    argument, and [round2] the nearest hundredth, within 0.005; rounding a
    rounded value changes nothing. *)
Theorem round1_round2_nearest (n : R) :
  (exists k : Z,
      round1 (Fin n) = Fin (IZR k / 10)
      /\ n - 0.05 < IZR k / 10 <= n + 0.05
      /\ round1 (round1 (Fin n)) = round1 (Fin n))
  /\
  (exists k : Z,
      round2 (Fin n) = Fin (IZR k / 100)
      /\ n - 0.005 < IZR k / 100 <= n + 0.005
      /\ round2 (round2 (Fin n)) = round2 (Fin n)).
Proof.
  split.
  - exists (Zround (n * 10)). unfold round1. rewrite round_scaled by lra.
    pose proof (Zround_near (n * 10)) as Hk. repeat split; try lra.
    rewrite round_scaled by lra.
    replace (IZR (Zround (n * 10)) / 10 * 10) with (IZR (Zround (n * 10))) by field.
    now rewrite Zround_IZR.
  - exists (Zround (n * 100)). unfold round2. rewrite round_scaled by lra.
    pose proof (Zround_near (n * 100)) as Hk. repeat split; try lra.
    rewrite round_scaled by lra.
    replace (IZR (Zround (n * 100)) / 100 * 100) with (IZR (Zround (n * 100))) by field.
    now rewrite Zround_IZR.
Qed.

Lemma round1_Fin (n : R) : round1 (Fin n) = Fin (IZR (Zround (n * 10)) / 10).
Proof. unfold round1. apply round_scaled. lra. Qed.

Lemma round1_mono (x y : R) : x <= y -> (round1 (Fin x) <=? round1 (Fin y))%num = true.
Proof.
  intros H. rewrite !round1_Fin. apply le_Fin_true.
  assert (Hz : IZR (Zround (x * 10)) <= IZR (Zround (y * 10)))
    by (apply IZR_le, Zround_le; lra).
  lra.
Qed.

End Rounding.

(** ** The standard-atmosphere model *)

Section Atmosphere.

Lemma atmosphere_base (h : R) :
  (Fin 1 - Fin 2.25577e-5 * Fin h)%num = Fin (1 - 2.25577e-5 * h).
Proof. reflexivity. Qed.

Lemma atmosphere_base_pos (h : R) : h < elevationLimit -> 0 < 1 - 2.25577e-5 * h.
Proof.
  unfold elevationLimit. intros Hh.
  apply (Rmult_lt_compat_l 2.25577e-5) in Hh; [| lra].
  rewrite Rinv_r in Hh by lra. lra.
Qed.

Lemma atmosphere_base_neg (h : R) : elevationLimit < h -> 1 - 2.25577e-5 * h < 0.
Proof.
  unfold elevationLimit. intros Hh.
  apply (Rmult_lt_compat_l 2.25577e-5) in Hh; [| lra].
  rewrite Rinv_r in Hh by lra. lra.
Qed.

Lemma ambientPressure_below (h : R) :
  h < elevationLimit ->
  ambientPressureAtElevation_kPa (Fin h)
  = Fin (101.325 * Rpower (1 - 2.25577e-5 * h) 5.25588).
Proof.
  intros Hh. pose proof (atmosphere_base_pos h Hh) as Hb.
  unfold ambientPressureAtElevation_kPa. rewrite atmosphere_base.
  unfold Num.pow. rewrite (Reqb_false 5.25588 0) by lra.
  rewrite (Reqb_false _ 0) by lra. rewrite (Rltb_false _ 0) by lra.
  reflexivity.
Qed.

Lemma Rpower_pos (x y : R) : 0 < Rpower x y.
Proof. unfold Rpower. apply exp_pos. Qed.

Lemma below_limit_1600 : 1600 < elevationLimit.
Proof.
  unfold elevationLimit.
  apply (Rmult_lt_reg_l 2.25577e-5); [lra|]. rewrite Rinv_r by lra. lra.
Qed.

Lemma above_limit_50000 : elevationLimit < 50000.
Proof.
  unfold elevationLimit.
  apply (Rmult_lt_reg_l 2.25577e-5); [lra|]. rewrite Rinv_r by lra. lra.
Qed.

(** Below the limit elevation the ambient pressure is a positive finite
    number that falls strictly as the elevation rises. *)
Theorem ambientPressure_decreasing (h1 h2 : R) :
  h1 < h2 -> h2 < elevationLimit ->
  exists p1 p2 : R,
    ambientPressureAtElevation_kPa (Fin h1) = Fin p1
    /\ ambientPressureAtElevation_kPa (Fin h2) = Fin p2
    /\ 0 < p2 < p1.
Proof.
  intros H12 H2.
  assert (H1 : h1 < elevationLimit) by lra.
  pose proof (atmosphere_base_pos h1 H1) as Hb1.
  pose proof (atmosphere_base_pos h2 H2) as Hb2.
  do 2 eexists. split; [now apply ambientPressure_below|].
  split; [now apply ambientPressure_below|].
  pose proof (Rpower_pos (1 - 2.25577e-5 * h2) 5.25588) as Hp.
  assert (Hlt : Rpower (1 - 2.25577e-5 * h2) 5.25588
                < Rpower (1 - 2.25577e-5 * h1) 5.25588)
    by (apply Rlt_Rpower_l; lra).
  lra.
Qed.

(** The pressure at 1600 m is below the pressure at sea level. *)
Lemma ambientPressure_decreasing_witness :
  exists p1 p2 : R,
    ambientPressureAtElevation_kPa (Fin 0) = Fin p1
    /\ ambientPressureAtElevation_kPa (Fin 1600) = Fin p2
    /\ 0 < p2 < p1.
Proof.
  apply (ambientPressure_decreasing 0 1600); [lra | exact below_limit_1600].
Defined.

(** Above the limit elevation the base is negative and the exponent is not
    an integer: the ambient pressure is [NaN]. *)
Lemma ambientPressure_NaN_above (h : R) :
  elevationLimit < h -> ambientPressureAtElevation_kPa (Fin h) = NaN.
Proof.
  intros Hh. pose proof (atmosphere_base_neg h Hh) as Hb.
  unfold ambientPressureAtElevation_kPa. rewrite atmosphere_base.
  unfold Num.pow. rewrite (Reqb_false 5.25588 0) by lra.
  rewrite (Reqb_false _ 0) by lra. rewrite (Rltb_true _ 0) by lra.
  assert (Hni : Num.isInteger 5.25588 = false).
  { unfold Num.isInteger. apply Reqb_false.
    rewrite (Zfloor_eq 5); [lra | lra]. }
  rewrite Hni. reflexivity.
Qed.

End Atmosphere.

(** ** The weather adjustment *)

Section RecommendPressures.

Lemma ambientPsi_pos (h : R) : 0 < ambientPsi h.
Proof.
  unfold ambientPsi. pose proof (Rpower_pos (1 - 2.25577e-5 * h) 5.25588) as Hp.
  apply Rmult_lt_0_compat; [apply Rmult_lt_0_compat; [lra | exact Hp] | lra].
Qed.

Lemma ambient_psi_below (h : R) :
  h < elevationLimit ->
  (ambientPressureAtElevation_kPa (Fin h) * KPA_TO_PSI)%num = Fin (ambientPsi h).
Proof. intros Hh. now rewrite ambientPressure_below. Qed.

Lemma compensate_gauge_Fin (g tr ta amb : R) :
  tr <> -273.15 ->
  compensatePressurePsi (Fin g) (Fin tr) (Fin ta) (Fin amb) false
  = Fin ((g + amb) * ((ta + 273.15) / (tr + 273.15)) - amb).
Proof.
  intros Htr. unfold compensatePressurePsi. rewrite !C_to_K_Fin.
  rewrite div_Fin by lra. reflexivity.
Qed.


Lemma recommend_front_psi (input : Recommend.RecommendInput) loc (ta : num) (h : R) :
  h < elevationLimit ->
  Recommend.psi (Recommend.Out.front (Recommend.recommendPressures input loc ta (Fin h)))
  = round1 (compensatePressurePsi (Recommend.frontPsiRef input) (resolvedRefTempC input) ta
              (Fin (ambientPsi h)) (resolvedKeepAbsolute input)).
Proof.
  intros Hh. unfold Recommend.recommendPressures.
  cbn [Recommend.Out.front Recommend.psi]. rewrite ambient_psi_below by assumption.
  reflexivity.
Qed.

Lemma recommend_rear_psi (input : Recommend.RecommendInput) loc (ta : num) (h : R) :
  h < elevationLimit ->
  Recommend.psi (Recommend.Out.rear (Recommend.recommendPressures input loc ta (Fin h)))
  = round1 (compensatePressurePsi (Recommend.rearPsiRef input) (resolvedRefTempC input) ta
              (Fin (ambientPsi h)) (resolvedKeepAbsolute input)).
Proof.
  intros Hh. unfold Recommend.recommendPressures.
  cbn [Recommend.Out.rear Recommend.psi]. rewrite ambient_psi_below by assumption.
  reflexivity.
Qed.






Lemma compensate_gauge_mono_temp (g tr t1 t2 amb : R) :
  -273.15 < tr -> 0 <= g + amb -> t1 <= t2 ->
  (g + amb) * ((t1 + 273.15) / (tr + 273.15)) - amb
  <= (g + amb) * ((t2 + 273.15) / (tr + 273.15)) - amb.
Proof.
  intros Htr Hg Ht.
  assert (Hi : 0 < / (tr + 273.15)) by (apply Rinv_0_lt_compat; lra).
  apply Rplus_le_compat_r, Rmult_le_compat_l; [assumption|].
  unfold Rdiv. apply Rmult_le_compat_r; lra.
Qed.

Lemma compensate_gauge_mono_ref (g1 g2 tr ta amb : R) :
  -273.15 < tr -> -273.15 <= ta -> g1 <= g2 ->
  (g1 + amb) * ((ta + 273.15) / (tr + 273.15)) - amb
  <= (g2 + amb) * ((ta + 273.15) / (tr + 273.15)) - amb.
Proof.
  intros Htr Hta Hg.
  assert (Hi : 0 < / (tr + 273.15)) by (apply Rinv_0_lt_compat; lra).
  apply Rplus_le_compat_r, Rmult_le_compat_r; [| lra].
  unfold Rdiv. apply Rmult_le_pos; lra.
Qed.

(** In gauge-constant mode a colder ambient temperature never raises the
    recommended pressure, and the wheel with the lower reference never gets
    the higher recommendation: for non-negative references, temperatures
    above absolute zero and an elevation below the limit. *)
Theorem recommendPressures_monotone
    (input : Recommend.RecommendInput) loc (refTempC cold warm elevationM front rear : R) :
  resolvedKeepAbsolute input = false ->
  resolvedRefTempC input = Fin refTempC -> -273.15 < refTempC ->
  Recommend.frontPsiRef input = Fin front -> 0 <= front ->
  Recommend.rearPsiRef input = Fin rear -> front <= rear ->
  -273.15 <= cold -> cold <= warm ->
  elevationM < elevationLimit ->
  let atCold := Recommend.recommendPressures input loc (Fin cold) (Fin elevationM) in
  let atWarm := Recommend.recommendPressures input loc (Fin warm) (Fin elevationM) in
  (Recommend.psi (Recommend.Out.front atCold)
   <=? Recommend.psi (Recommend.Out.front atWarm))%num = true
  /\ (Recommend.psi (Recommend.Out.rear atCold)
      <=? Recommend.psi (Recommend.Out.rear atWarm))%num = true
  /\ (Recommend.psi (Recommend.Out.front atCold)
      <=? Recommend.psi (Recommend.Out.rear atCold))%num = true.
Proof.
  intros Hmode Ht Htr Hf Hf0 Hr Hfr Hc Hcw Hh atCold atWarm. subst atCold atWarm.
  rewrite !recommend_front_psi, !recommend_rear_psi by assumption.
  rewrite Hmode, Ht, Hf, Hr, !compensate_gauge_Fin by lra.
  pose proof (ambientPsi_pos elevationM) as Ha.
  repeat split; apply round1_mono.
  - apply compensate_gauge_mono_temp; lra.
  - apply compensate_gauge_mono_temp; lra.
  - apply compensate_gauge_mono_ref; lra.
Qed.

(** Gauge mode at 1600 m, at 5 and at 30 degrees. *)
Lemma recommendPressures_monotone_witness :
  let atCold := Recommend.recommendPressures (dailyInput false) somewhere (Fin 5) (Fin 1600) in
  let atWarm := Recommend.recommendPressures (dailyInput false) somewhere (Fin 30) (Fin 1600) in
  (Recommend.psi (Recommend.Out.front atCold)
   <=? Recommend.psi (Recommend.Out.front atWarm))%num = true
  /\ (Recommend.psi (Recommend.Out.rear atCold)
      <=? Recommend.psi (Recommend.Out.rear atWarm))%num = true
  /\ (Recommend.psi (Recommend.Out.front atCold)
      <=? Recommend.psi (Recommend.Out.rear atCold))%num = true.
Proof.
  apply (recommendPressures_monotone (dailyInput false) somewhere 20 5 30 1600 58 62);
    try reflexivity; try lra; exact below_limit_1600.
Defined.

(** Above the limit elevation the ambient pressure is [NaN], and so are both
    recommendations and the reported ambient pressure, in either mode. *)
Theorem recommendPressures_above_limit
    (input : Recommend.RecommendInput) loc (ambientTempC : num) (elevationM : R) :
  elevationLimit < elevationM ->
  let out := Recommend.recommendPressures input loc ambientTempC (Fin elevationM) in
  Recommend.psi (Recommend.Out.front out) = NaN
  /\ Recommend.psi (Recommend.Out.rear out) = NaN
  /\ Recommend.Out.ambientPressurePsi out = NaN.
Proof.
  intros Hh out. subst out. unfold Recommend.recommendPressures.
  cbn [Recommend.Out.front Recommend.Out.rear Recommend.Out.ambientPressurePsi Recommend.psi].
  rewrite ambientPressure_NaN_above by assumption.
  change (NaN * KPA_TO_PSI)%num with NaN.
  unfold compensatePressurePsi. rewrite !add_NaN_r.
  destruct (match Recommend.keepAbsoluteConstant input with Some b => b | None => false end).
  - rewrite !sub_NaN_r. repeat split.
  - rewrite !sub_NaN_r. repeat split.
Qed.

(** An elevation of 50 000 m. *)
Lemma recommendPressures_above_limit_witness :
  let out := Recommend.recommendPressures (dailyInput false) somewhere (Fin 5) (Fin 50000) in
  Recommend.psi (Recommend.Out.front out) = NaN
  /\ Recommend.psi (Recommend.Out.rear out) = NaN
  /\ Recommend.Out.ambientPressurePsi out = NaN.
Proof.
  apply (recommendPressures_above_limit (dailyInput false) somewhere (Fin 5) 50000).
  exact above_limit_50000.
Defined.

End RecommendPressures.

(** ** The nearest hourly sample *)

Section NearestHour.

Variable target : R.

Lemma delta_Fin (t : R) : Num.abs (Fin t - Fin target) = Fin (msApart target t).
Proof. reflexivity. Qed.

Lemma delta_not_Fin (e : num) (best : num) :
  Num.isFinite e = false -> (Num.abs (e - Fin target) <? best)%num = false.
Proof. destruct e; [discriminate | destruct best; reflexivity ..]. Qed.

Lemma lt_Fin_trans (c a : R) (m : num) :
  (Fin a <? m)%num = true -> c <= a -> (Fin c <? m)%num = true.
Proof.
  destruct m; cbn; intros H Hc; try discriminate; try reflexivity.
  apply Rltb_iff in H. apply Rltb_true. lra.
Qed.

Lemma lt_Fin_between (c a : R) (m : num) :
  (Fin a <? m)%num = false -> (Fin c <? m)%num = true -> c < a.
Proof.
  destruct m; cbn; intros Ha Hc; try discriminate.
  apply Rltb_iff in Hc. unfold Rltb in Ha. destruct (Rlt_dec a x); [discriminate | lra].
Qed.

(** What the loop has found after running over [tMs] from index [i]: either
    nothing beats the incoming best, or the earliest of the valid samples
    nearest to the target does. *)
Lemma nearestFrom_spec (tMs : list num) :
  forall (i bestIdx : nat) (bestDelta : num),
    (Hourly.nearestFrom tMs (Fin target) i bestIdx bestDelta = (bestIdx, bestDelta)
     /\ forall e, In e tMs -> (Num.abs (e - Fin target) <? bestDelta)%num = false)
    \/
    (exists (k : nat) (t : R),
        nth_error tMs k = Some (Fin t)
        /\ Hourly.nearestFrom tMs (Fin target) i bestIdx bestDelta
           = ((i + k)%nat, Fin (msApart target t))
        /\ (Fin (msApart target t) <? bestDelta)%num = true
        /\ (forall j t', nth_error tMs j = Some (Fin t') ->
                         msApart target t <= msApart target t')
        /\ (forall j t', (j < k)%nat -> nth_error tMs j = Some (Fin t') ->
                         msApart target t < msApart target t')).
Proof.
  induction tMs as [| e rest IH]; intros i bestIdx bestDelta.
  - left. split; [reflexivity | intros e []].
  - cbn [Hourly.nearestFrom].
    destruct (Num.abs (e - Fin target) <? bestDelta)%num eqn:Hlt.
    + (* the head beats the incoming best, so it is a valid sample *)
      destruct e as [t0 | | |];
        try (rewrite delta_not_Fin in Hlt by reflexivity; discriminate).
      rewrite delta_Fin in *. right.
      destruct (IH (S i) i (Fin (msApart target t0)))
        as [[Hrun Hall] | (k & t & Hk & Hrun & Hbeat & Hmin & Hstrict)].
      * exists 0%nat, t0. rewrite Hrun, Nat.add_0_r. repeat split; try assumption.
        -- intros [| j] t' Hj; cbn in Hj.
           ++ injection Hj as <-. lra.
           ++ apply nth_error_In in Hj. specialize (Hall _ Hj).
              rewrite delta_Fin in Hall. cbn in Hall.
              unfold Rltb in Hall. destruct (Rlt_dec _ _); [discriminate | lra].
        -- intros j t' Hj. lia.
      * apply Rltb_iff in Hbeat.
        exists (S k), t. rewrite Hrun. repeat split.
        -- exact Hk.
        -- f_equal. lia.
        -- eapply lt_Fin_trans; [exact Hlt | lra].
        -- intros [| j] t' Hj; cbn in Hj.
           ++ injection Hj as <-. lra.
           ++ now apply (Hmin j).
        -- intros [| j] t' Hjk Hj; cbn in Hj.
           ++ injection Hj as <-. exact Hbeat.
           ++ apply (Hstrict j); [lia | assumption].
    + destruct (IH (S i) bestIdx bestDelta)
        as [[Hrun Hall] | (k & t & Hk & Hrun & Hbeat & Hmin & Hstrict)].
      * left. split; [exact Hrun|]. intros e' [<- | He']; [exact Hlt | now apply Hall].
      * right. exists (S k), t. rewrite Hrun. repeat split.
        -- exact Hk.
        -- f_equal. lia.
        -- exact Hbeat.
        -- intros [| j] t' Hj; cbn in Hj.
           ++ injection Hj as ->. rewrite delta_Fin in Hlt.
              left. eapply lt_Fin_between; eassumption.
           ++ now apply (Hmin j).
        -- intros [| j] t' Hjk Hj; cbn in Hj.
           ++ injection Hj as ->. rewrite delta_Fin in Hlt.
              eapply lt_Fin_between; eassumption.
           ++ apply (Hstrict j); [lia | assumption].
Qed.

(** The index the nearest-hour loop returns: when some sample time is a valid
    (finite) number, the earliest of the valid samples nearest to the target;
    when none is, index 0. *)
Theorem nearestIndex_earliest_nearest (tMs : list num) :
  (Hourly.nearestIndex tMs (Fin target) = 0%nat
   /\ forall e, In e tMs -> Num.isFinite e = false)
  \/
  (exists t : R,
      nth_error tMs (Hourly.nearestIndex tMs (Fin target)) = Some (Fin t)
      /\ (forall j t', nth_error tMs j = Some (Fin t') ->
                       msApart target t <= msApart target t')
      /\ (forall j t', (j < Hourly.nearestIndex tMs (Fin target))%nat ->
                       nth_error tMs j = Some (Fin t') ->
                       msApart target t < msApart target t')).
Proof.
  unfold Hourly.nearestIndex.
  destruct (nearestFrom_spec tMs 0 0 PInf)
    as [[Hrun Hall] | (k & t & Hk & Hrun & _ & Hmin & Hstrict)]; rewrite Hrun; cbn [fst].
  - left. split; [reflexivity|]. intros e He. specialize (Hall e He).
    destruct e; [discriminate | reflexivity ..].
  - right. exists t. repeat split; assumption.
Qed.

End NearestHour.

Section HourlySamples.

Variables (getTime : string -> num) (ms : string -> R).
Variable target : R.

Lemma nearest_valid_sample (times : list string) :
  times <> [] ->
  (forall s, In s times -> getTime s = Fin (ms s)) ->
  exists s : string,
    nth_error times (Hourly.nearestIndex (map getTime times) (Fin target)) = Some s
    /\ forall s', In s' times -> msApart target (ms s) <= msApart target (ms s').
Proof.
  intros Hne Hvalid. unfold Hourly.nearestIndex.
  destruct (nearestFrom_spec target (map getTime times) 0 0 PInf)
    as [[_ Hnone] | (k & t & Hidx & Hrun & _ & Hmin & _)].
  - destruct times as [| s0 rest]; [contradiction|].
    specialize (Hnone (getTime s0) (or_introl eq_refl)).
    rewrite (Hvalid s0 (or_introl eq_refl)) in Hnone. discriminate.
  - rewrite Hrun. cbn [fst]. rewrite Nat.add_0_l. rewrite nth_error_map in Hidx.
    destruct (nth_error times _) as [s |] eqn:Hs; [| discriminate].
    cbn in Hidx. exists s. split; [reflexivity|].
    pose proof (Hvalid s (nth_error_In _ _ Hs)) as Hms.
    rewrite Hms in Hidx. injection Hidx as <-.
    intros s' Hs'. destruct (In_nth_error _ _ Hs') as [j Hj].
    apply (Hmin j). rewrite nth_error_map, Hj. cbn. now rewrite (Hvalid s' Hs').
Qed.

(** [fetchOpenMeteoTempC], from the decoded response on: with at least one
    hourly sample, valid sample times and a temperature for every time, it
    returns the temperature of a sample whose time is nearest to the target. *)
Theorem fetchOpenMeteoTempC_nearest (times : list string) (temps : list num) :
  times <> [] -> List.length temps = List.length times ->
  (forall s, In s times -> getTime s = Fin (ms s)) ->
  exists (i : nat) (s : string) (temp : num),
    Hourly.fetchOpenMeteoTempC getTime times temps (Fin target) = Hourly.Ok (Some temp)
    /\ nth_error times i = Some s /\ nth_error temps i = Some temp
    /\ forall s', In s' times -> msApart target (ms s) <= msApart target (ms s').
Proof.
  intros Hne Hlen Hvalid.
  destruct (nearest_valid_sample times Hne Hvalid) as (s & Hs & Hmin).
  set (i := Hourly.nearestIndex (map getTime times) (Fin target)) in *.
  assert (Hi : (i < List.length temps)%nat).
  { rewrite Hlen. apply nth_error_Some. now rewrite Hs. }
  destruct (nth_error temps i) as [temp |] eqn:Htemp;
    [| apply nth_error_None in Htemp; lia].
  exists i, s, temp. repeat split; try assumption.
  unfold Hourly.fetchOpenMeteoTempC. fold i.
  destruct times; [contradiction|]. destruct temps; [cbn in Hi; lia|].
  now rewrite Htemp.
Qed.

(** The sample [useWind] stores: with at least one hourly sample, valid
    sample times, and a speed and a direction for every time, its time, speed,
    direction and gust are those of one sample, whose time is nearest to the
    target. *)
Theorem useWindSample_nearest (times : list string) (speeds dirs gusts : list num) :
  times <> [] ->
  List.length speeds = List.length times -> List.length dirs = List.length times ->
  (forall s, In s times -> getTime s = Fin (ms s)) ->
  exists (i : nat) (s : string) (speed dir : num),
    Hourly.useWindSample getTime times speeds dirs gusts (Fin target)
    = Hourly.Ok {| Hourly.time := Some s; Hourly.speed := Some speed;
                   Hourly.directionDeg := Some dir; Hourly.gust := nth_error gusts i |}
    /\ nth_error times i = Some s /\ nth_error speeds i = Some speed
    /\ nth_error dirs i = Some dir
    /\ forall s', In s' times -> msApart target (ms s) <= msApart target (ms s').
Proof.
  intros Hne Hsp Hdir Hvalid.
  destruct (nearest_valid_sample times Hne Hvalid) as (s & Hs & Hmin).
  set (i := Hourly.nearestIndex (map getTime times) (Fin target)) in *.
  assert (Hi : (i < List.length times)%nat) by (apply nth_error_Some; now rewrite Hs).
  destruct (nth_error speeds i) as [speed |] eqn:Hspeed;
    [| apply nth_error_None in Hspeed; lia].
  destruct (nth_error dirs i) as [dir |] eqn:Hd;
    [| apply nth_error_None in Hd; lia].
  exists i, s, speed, dir. repeat split; try assumption.
  unfold Hourly.useWindSample. fold i.
  destruct times; [contradiction|]. now rewrite Hs, Hspeed, Hd.
Qed.

End HourlySamples.

Lemma twoHours_valid (s : string) :
  In s twoHours -> (fun s => Fin (twoHoursMs s)) s = Fin (twoHoursMs s).
Proof. reflexivity. Qed.

(** Two hourly samples and ten past midnight as the target. *)
Lemma fetchOpenMeteoTempC_nearest_witness :
  exists (i : nat) (s : string) (temp : num),
    Hourly.fetchOpenMeteoTempC (fun s => Fin (twoHoursMs s)) twoHours [Fin 11.5; Fin 10.9]
      (Fin 600000) = Hourly.Ok (Some temp)
    /\ nth_error twoHours i = Some s /\ nth_error [Fin 11.5; Fin 10.9] i = Some temp
    /\ forall s', In s' twoHours ->
                  msApart 600000 (twoHoursMs s) <= msApart 600000 (twoHoursMs s').
Proof.
  apply (fetchOpenMeteoTempC_nearest (fun s => Fin (twoHoursMs s)) twoHoursMs 600000
           twoHours [Fin 11.5; Fin 10.9]).
  - discriminate.
  - reflexivity.
  - exact twoHours_valid.
Defined.

(** The same two hours with wind samples and no gusts. *)
Lemma useWindSample_nearest_witness :
  exists (i : nat) (s : string) (speed dir : num),
    Hourly.useWindSample (fun s => Fin (twoHoursMs s)) twoHours
      [Fin 12; Fin 9] [Fin 270; Fin 250] [] (Fin 600000)
    = Hourly.Ok {| Hourly.time := Some s; Hourly.speed := Some speed;
                   Hourly.directionDeg := Some dir; Hourly.gust := nth_error [] i |}
    /\ nth_error twoHours i = Some s /\ nth_error [Fin 12; Fin 9] i = Some speed
    /\ nth_error [Fin 270; Fin 250] i = Some dir
    /\ forall s', In s' twoHours ->
                  msApart 600000 (twoHoursMs s) <= msApart 600000 (twoHoursMs s').
Proof.
  apply (useWindSample_nearest (fun s => Fin (twoHoursMs s)) twoHoursMs 600000
           twoHours [Fin 12; Fin 9] [Fin 270; Fin 250] []).
  - discriminate.
  - reflexivity.
  - reflexivity.
  - exact twoHours_valid.
Defined.

(** ** Allowed intervals *)

Section AllowedIntervals.

(** Whole turns added to a bearing do not change whether it is allowed. *)
Lemma inIntervals_full_turns (x : R) (k : Z) (ranges : option (list (num * num))) :
  inIntervals (Fin (x + 360 * IZR k)) ranges = inIntervals (Fin x) ranges.
Proof.
  unfold inIntervals. rewrite !clampDeg_Fin, Rfmod_shift by lra. reflexivity.
Qed.


Lemma lattice_within_allowed (wf ws res pen : num) allowed :
  forall (fuel : nat) (h : num) (acc out : list Recommendation),
    Forall (fun c => inIntervals (headingDeg c) allowed = true) acc ->
    lattice fuel wf ws res pen allowed h acc = Some out ->
    Forall (fun c => inIntervals (headingDeg c) allowed = true) out.
Proof.
  induction fuel as [| fuel IH]; intros h acc out Hacc Hrun; cbn [lattice] in Hrun.
  - discriminate.
  - destruct (h <? Fin 360)%num.
    + eapply IH; [| exact Hrun].
      destruct (inIntervals h allowed) eqn:Hin; cbn [negb]; [| assumption].
      apply Forall_app. split; [assumption|]. constructor; [exact Hin | constructor].
    + injection Hrun as <-. assumption.
Qed.

(** Every heading [recommendHeadings] returns lies in one of the allowed
    intervals, for every wind and every option value. *)
Theorem recommendHeadings_within_allowed
    (fuel : nat) (wf ws : num) (opts : RecommendOptions) (out : list Recommendation) :
  recommendHeadings fuel wf ws opts = Some out ->
  Forall (fun c => inIntervals (headingDeg c) (allowedHeadings opts) = true) out.
Proof.
  intros Hrun. unfold recommendHeadings in Hrun.
  destruct (lattice _ _ _ _ _ _ _ _) as [cands |] eqn:Hlat; [| discriminate].
  injection Hrun as <-.
  apply lattice_within_allowed in Hlat; [| constructor].
  rewrite Forall_forall in *. intros c Hc.
  apply pick_In in Hc. destruct Hc as [[] | Hc].
  apply Hlat. now apply sortByScore_In.
Qed.

End AllowedIntervals.

(** ** The size and the order of the result *)

Section ResultOrder.

Lemma pick_extends (topK m : num) (candidates picked : list Recommendation) :
  exists more, pick topK m candidates picked = picked ++ more.
Proof.
  revert picked. induction candidates as [| c rest IH]; intros picked; cbn [pick].
  - exists []. now rewrite app_nil_r.
  - destruct (Fin (INR (List.length picked)) >=? topK)%num.
    + exists []. now rewrite app_nil_r.
    + destruct (negb _).
      * destruct (IH (picked ++ [c])) as [more ->]. rewrite <- app_assoc.
        eexists. reflexivity.
      * apply IH.
Qed.

Lemma pick_length (k : nat) (m : num) (candidates picked : list Recommendation) :
  (List.length picked <= k)%nat ->
  (List.length (pick (Fin (INR k)) m candidates picked) <= k)%nat.
Proof.
  revert picked. induction candidates as [| c rest IH]; intros picked Hlen; cbn [pick].
  - assumption.
  - rewrite length_ge_Fin.
    destruct (Rltb (INR (List.length picked)) (INR k)) eqn:Hlt; cbn [negb]; [| assumption].
    apply Rltb_iff, INR_lt in Hlt.
    destruct (negb _); apply IH; [| assumption].
    rewrite length_app. cbn. lia.
Qed.

(** [recommendHeadings] returns at most [topK] headings, three by default,
    when [topK] is a natural number. *)
Theorem recommendHeadings_at_most_topK
    (fuel : nat) (wf ws : num) (opts : RecommendOptions) (k : nat)
    (out : list Recommendation) :
  orDefault (topK opts) (Fin 3) = Fin (INR k) ->
  recommendHeadings fuel wf ws opts = Some out ->
  (List.length out <= k)%nat.
Proof.
  intros Hk Hrun. unfold recommendHeadings in Hrun. rewrite Hk in Hrun.
  destruct (lattice _ _ _ _ _ _ _ _) as [cands |]; [| discriminate].
  injection Hrun as <-. apply pick_length. cbn. lia.
Qed.

Lemma scoresAtLeast_Fin (a b : Recommendation) (x y : R) :
  score a = Fin x -> score b = Fin y -> (scoresAtLeast a b <-> y <= x).
Proof. intros Ha Hb. unfold scoresAtLeast. rewrite Ha, Hb. apply le_Fin_iff. Qed.

Lemma insertSorted_Forall (P : Recommendation -> Prop) (x : Recommendation)
    (l : list Recommendation) :
  P x -> Forall P l -> Forall P (insertSorted x l).
Proof.
  intros Hx Hl. rewrite Forall_forall in *. intros c Hc.
  apply insertSorted_In in Hc. destruct Hc as [-> | Hc]; auto.
Qed.

Lemma insertSorted_In_inv (x c : Recommendation) (l : list Recommendation) :
  c = x \/ In c l -> In c (insertSorted x l).
Proof.
  induction l as [| y l IH]; cbn [insertSorted].
  - intros [-> | []]. now left.
  - destruct (compareScore x y >? Fin 0)%num; cbn [In].
    + intros [-> | [-> | Hc]]; [right; apply IH; now left | now left | right; apply IH; now right].
    + intros [-> | [-> | Hc]]; [now left | right; now left | right; now right].
Qed.

Lemma sortByScore_In_inv (c : Recommendation) (l : list Recommendation) :
  In c l -> In c (sortByScore l).
Proof.
  induction l as [| x l IH]; cbn [sortByScore]; [easy|].
  intros [-> | Hc]; apply insertSorted_In_inv; [now left | right; now apply IH].
Qed.

Lemma insertSorted_sorted (x : Recommendation) (l : list Recommendation) :
  finiteScore x -> Forall finiteScore l ->
  StronglySorted scoresAtLeast l -> StronglySorted scoresAtLeast (insertSorted x l).
Proof.
  intros [sx Hx] Hfin Hs. induction Hs as [| y l Hl IH Hy]; cbn [insertSorted].
  - constructor; constructor.
  - inversion Hfin as [| ? ? [sy Hsy] Hfin']; subst.
    rewrite (compareScore_Fin x y sx sy Hx Hsy).
    destruct (Rltb 0 (sy - sx)) eqn:Hlt.
    + apply Rltb_iff in Hlt. constructor; [now apply IH|].
      apply insertSorted_Forall; [| assumption].
      apply (scoresAtLeast_Fin y x sy sx Hsy Hx). lra.
    + assert (Hle : sy <= sx).
      { unfold Rltb in Hlt. destruct (Rlt_dec 0 (sy - sx)); [discriminate | lra]. }
      constructor; [now constructor|]. constructor.
      * apply (scoresAtLeast_Fin x y sx sy Hx Hsy). exact Hle.
      * rewrite Forall_forall in *. intros c Hc.
        destruct (Hfin' c Hc) as [sc Hsc].
        pose proof (proj1 (scoresAtLeast_Fin y c sy sc Hsy Hsc) (Hy c Hc)).
        apply (scoresAtLeast_Fin x c sx sc Hx Hsc). lra.
Qed.

Lemma sortByScore_sorted (l : list Recommendation) :
  Forall finiteScore l -> StronglySorted scoresAtLeast (sortByScore l).
Proof.
  induction 1 as [| x l Hx Hl IH]; cbn [sortByScore]; [constructor|].
  apply insertSorted_sorted; [assumption | | assumption].
  rewrite Forall_forall in *. intros c Hc. apply Hl. now apply sortByScore_In.
Qed.

Lemma StronglySorted_app_l {A : Type} (R : A -> A -> Prop) (l1 l2 : list A) :
  StronglySorted R (l1 ++ l2) -> StronglySorted R l1.
Proof.
  induction l1 as [| a l1 IH]; cbn; intros H; [constructor|].
  inversion H as [| ? ? Hs Hf]; subst. constructor; [now apply IH|].
  apply Forall_app in Hf. apply Hf.
Qed.

Lemma StronglySorted_remove {A : Type} (R : A -> A -> Prop) (l1 l2 : list A) (c : A) :
  StronglySorted R (l1 ++ c :: l2) -> StronglySorted R (l1 ++ l2).
Proof.
  induction l1 as [| a l1 IH]; cbn; intros H; inversion H as [| ? ? Hs Hf]; subst.
  - assumption.
  - constructor; [now apply IH|].
    apply Forall_app in Hf. destruct Hf as [Hf1 Hf2].
    apply Forall_app. split; [assumption|]. now inversion Hf2.
Qed.

Lemma pick_sorted (topK m : num) (candidates picked : list Recommendation) :
  StronglySorted scoresAtLeast (picked ++ candidates) ->
  StronglySorted scoresAtLeast (pick topK m candidates picked).
Proof.
  revert picked. induction candidates as [| c rest IH]; intros picked Hs; cbn [pick].
  - now rewrite app_nil_r in Hs.
  - destruct (Fin (INR (List.length picked)) >=? topK)%num.
    + now apply StronglySorted_app_l in Hs.
    + destruct (negb _); apply IH.
      * now rewrite <- app_assoc.
      * now apply StronglySorted_remove in Hs.
Qed.

Lemma pick_head (topK m : num) (c best : Recommendation)
    (candidates rest : list Recommendation) :
  pick topK m (c :: candidates) [] = best :: rest -> best = c.
Proof.
  cbn [pick existsb negb]. destruct (Fin (INR (List.length [])) >=? topK)%num; [discriminate|].
  destruct (pick_extends topK m candidates ([] ++ [c])) as [more ->].
  cbn. now intros [= ->].
Qed.

Lemma lattice_finite_scores (wf ws p r : R) allowed (fuel : nat) (cands : list Recommendation) :
  lattice fuel (Fin wf) (Fin ws) (Fin r) (Fin p) allowed (Fin 0) [] = Some cands ->
  Forall finiteScore cands.
Proof.
  intros Hlat.
  apply (lattice_candidates finiteScore _ _ _ _ _ _ _ _ _) in Hlat; [assumption | | constructor].
  intros y. eexists. apply candidate_score.
Qed.

(** With finite wind data, [recommendHeadings] returns its headings in
    order of score, best first. *)
Theorem recommendHeadings_sorted_by_score
    (fuel : nat) (wf ws r p : R) (opts : RecommendOptions) (out : list Recommendation) :
  orDefault (resolutionDeg opts) (Fin 5) = Fin r ->
  orDefault (crosswindPenalty opts) (Fin 0.4) = Fin p ->
  recommendHeadings fuel (Fin wf) (Fin ws) opts = Some out ->
  StronglySorted scoresAtLeast out.
Proof.
  intros Hr Hp Hrun. unfold recommendHeadings in Hrun. rewrite Hr, Hp in Hrun.
  destruct (lattice _ _ _ _ _ _ _ _) as [cands |] eqn:Hlat; [| discriminate].
  injection Hrun as <-. apply pick_sorted. cbn [app].
  apply sortByScore_sorted. eapply lattice_finite_scores. exact Hlat.
Qed.

Lemma lattice_contains (wf ws pen : num) (r : R) allowed :
  0 < r ->
  forall (fuel : nat) (x : R) (acc out : list Recommendation) (n : nat),
    lattice fuel wf ws (Fin r) pen allowed (Fin x) acc = Some out ->
    x + INR n * r < 360 ->
    inIntervals (Fin (x + INR n * r)) allowed = true ->
    In (candidate wf ws pen (Fin (x + INR n * r))) out.
Proof.
  intros Hr. induction fuel as [| fuel IH]; intros x acc out n Hrun Hn Hin.
  - discriminate.
  - pose proof (pos_INR n) as Hn0.
    assert (Hx : x < 360).
    { assert (0 <= INR n * r) by (apply Rmult_le_pos; lra). lra. }
    cbn [lattice Num.lt Num.add] in Hrun. rewrite Rltb_true in Hrun by assumption.
    destruct n as [| n].
    + replace (x + INR 0 * r) with x in * by (cbn; ring).
      rewrite Hin in Hrun. cbn [negb] in Hrun.
      apply lattice_extends in Hrun. destruct Hrun as [rest ->].
      apply in_or_app. left. apply in_or_app. right. now left.
    + replace (x + INR (S n) * r) with (x + r + INR n * r) in *
        by (rewrite S_INR; ring).
      eapply IH; eassumption.
Qed.

(** With finite wind data, the first heading [recommendHeadings] returns
    scores at least as high as [scoreHeading] does at any allowed heading of
    the lattice, [n * resolutionDeg < 360]. *)
Theorem recommendHeadings_best_first
    (fuel : nat) (wf ws r p : R) (opts : RecommendOptions)
    (best : Recommendation) (rest : list Recommendation) (n : nat) :
  orDefault (resolutionDeg opts) (Fin 5) = Fin r -> 0 < r ->
  orDefault (crosswindPenalty opts) (Fin 0.4) = Fin p ->
  recommendHeadings fuel (Fin wf) (Fin ws) opts = Some (best :: rest) ->
  INR n * r < 360 ->
  inIntervals (Fin (INR n * r)) (allowedHeadings opts) = true ->
  (Scored.score (scoreHeading (Fin wf) (Fin ws) (Fin (INR n * r)) (Some (Fin p)))
   <=? score best)%num = true.
Proof.
  intros Hres Hr Hp Hrun Hn Hin. unfold recommendHeadings in Hrun. rewrite Hres, Hp in Hrun.
  destruct (lattice _ _ _ _ _ _ _ _) as [cands |] eqn:Hlat; [| discriminate].
  injection Hrun as Hpick.
  pose proof (lattice_finite_scores _ _ _ _ _ _ _ Hlat) as Hfin.
  pose proof (sortByScore_sorted cands Hfin) as Hsorted.
  assert (Hc : In (candidate (Fin wf) (Fin ws) (Fin p) (Fin (INR n * r))) (sortByScore cands)).
  { apply sortByScore_In_inv.
    replace (INR n * r) with (0 + INR n * r) by ring.
    eapply lattice_contains; try eassumption.
    - now replace (0 + INR n * r) with (INR n * r) by ring.
    - now replace (0 + INR n * r) with (INR n * r) by ring. }
  destruct (sortByScore cands) as [| c sorted] eqn:Hs; [destruct Hc|].
  apply pick_head in Hpick. subst best.
  change (scoresAtLeast c (candidate (Fin wf) (Fin ws) (Fin p) (Fin (INR n * r)))).
  inversion Hsorted as [| ? ? _ Hall]; subst.
  destruct Hc as [-> | Hc].
  - unfold scoresAtLeast. rewrite candidate_score. apply le_Fin_true. lra.
  - rewrite Forall_forall in Hall. now apply Hall.
Qed.

End ResultOrder.

(** ** A run under allowed headings *)

Section RestrictedRun.

Ltac run_length :=
  cbn [List.length app]; rewrite length_ge_Fin; cbn [INR];
  first [rewrite Rltb_true by lra | rewrite Rltb_false by lra]; reflexivity.

Ltac run_tooClose :=
  cbn [existsb app];
  repeat (erewrite tooClose_Fin by reflexivity;
          rewrite wrap180_small by lra;
          first [rewrite Rltb_Rabs_false by lra | rewrite Rltb_Rabs_true by lra]);
  reflexivity.

Lemma lattice_skip (wf ws pen : num) allowed (fuel : nat) (r x : R)
    (acc : list Recommendation) :
  x < 360 -> inIntervals (Fin x) allowed = false ->
  lattice (S fuel) wf ws (Fin r) pen allowed (Fin x) acc
  = lattice fuel wf ws (Fin r) pen allowed (Fin (x + r)) acc.
Proof.
  intros Hx Hin. cbn [lattice Num.lt]. rewrite Rltb_true by assumption.
  rewrite Hin. reflexivity.
Qed.

Lemma inIntervals_wrapped (x a b : R) :
  0 <= x < 360 -> 0 <= a < 360 -> 0 <= b < 360 -> b < a ->
  inIntervals (Fin x) (Some [(Fin a, Fin b)]) = negb (Rltb x a) || negb (Rltb b x).
Proof.
  intros Hx Ha Hb Hab. unfold inIntervals. cbn [existsb fst snd].
  rewrite !clampDeg_Fin, !Rfmod_small by lra.
  cbn. rewrite (Rltb_true b a) by assumption. cbn. now rewrite orb_false_r.
Qed.

(** A run under allowed headings: the same west wind on the quarter-turn
    lattice, restricted to the wrapped interval 270..90 with [topK] 2.  South
    (180) is not a candidate; east and north are returned, and west (270),
    allowed but a pure headwind, is cut by [topK]. *)
Example recommendHeadings_northern_half :
  recommendHeadings 5 (Fin 270) (Fin 12) northernHalf
  = Some [westWind (0 + 90); westWind 0].
Proof.
  unfold recommendHeadings.
  cbn [northernHalf resolutionDeg crosswindPenalty allowedHeadings minSeparationDeg topK orDefault].
  rewrite lattice_step
    by (try lra; rewrite inIntervals_wrapped by lra;
        rewrite (Rltb_false 90 0) by lra; apply orb_true_r).
  rewrite lattice_step
    by (try lra; rewrite inIntervals_wrapped by lra;
        rewrite (Rltb_false 90 (0 + 90)) by lra; apply orb_true_r).
  rewrite lattice_skip
    by (try lra; rewrite inIntervals_wrapped by lra;
        rewrite (Rltb_true (0 + 90 + 90) 270), (Rltb_true 90 (0 + 90 + 90)) by lra;
        reflexivity).
  rewrite lattice_step
    by (try lra; rewrite inIntervals_wrapped by lra;
        rewrite (Rltb_false (0 + 90 + 90 + 90) 270) by lra; reflexivity).
  rewrite lattice_stop by lra. cbn [app].
  fold (westWind 0) (westWind (0 + 90)) (westWind (0 + 90 + 90 + 90)).
  pose proof westWind_score_0 as H0. pose proof westWind_score_90 as H90.
  pose proof westWind_score_270 as H270.
  cbn [sortByScore].
  change (insertSorted (westWind (0 + 90 + 90 + 90)) []) with [westWind (0 + 90 + 90 + 90)].
  rewrite insertSorted_before
    by (rewrite (compareScore_Fin _ _ _ _ H90 H270); apply Rltb_false; lra).
  rewrite insertSorted_after
    by (rewrite (compareScore_Fin _ _ _ _ H0 H90); apply Rltb_true; lra).
  rewrite insertSorted_before
    by (rewrite (compareScore_Fin _ _ _ _ H0 H270); apply Rltb_false; lra).
  rewrite pick_take; [| run_length | run_tooClose].
  rewrite pick_take; [| run_length | run_tooClose].
  rewrite pick_full by run_length.
  reflexivity.
Qed.

(** The headings of the restricted run lie in the interval 270..90. *)
Lemma recommendHeadings_within_allowed_witness :
  Forall (fun c => inIntervals (headingDeg c) (Some [(Fin 270, Fin 90)]) = true)
         [westWind (0 + 90); westWind 0].
Proof.
  exact (recommendHeadings_within_allowed 5 (Fin 270) (Fin 12) northernHalf _
           recommendHeadings_northern_half).
Defined.

(** The restricted run, with [topK] 2, returns two headings. *)
Lemma recommendHeadings_at_most_topK_witness :
  (List.length [westWind (0 + 90); westWind 0] <= 2)%nat.
Proof.
  apply (recommendHeadings_at_most_topK 5 (Fin 270) (Fin 12) northernHalf 2).
  - cbn [northernHalf topK orDefault]. now rewrite INR_IZR_INZ.
  - exact recommendHeadings_northern_half.
Defined.

(** The quarter-turn run is in order of score: 12, then -4.8 twice. *)
Lemma recommendHeadings_sorted_by_score_witness :
  StronglySorted scoresAtLeast [westWind (0 + 90); westWind 0; westWind (0 + 90 + 90)].
Proof.
  apply (recommendHeadings_sorted_by_score 5 270 12 90 0.4 quarterTurns).
  - reflexivity.
  - reflexivity.
  - exact recommendHeadings_west_wind.
Defined.

(** In the restricted run the first heading, east, scores at least as high
    as the allowed lattice heading 3 * 90 = 270 that was not returned. *)
Lemma recommendHeadings_best_first_witness :
  (Scored.score (scoreHeading (Fin 270) (Fin 12) (Fin (INR 3 * 90)) (Some (Fin 0.4)))
   <=? score (westWind (0 + 90)))%num = true.
Proof.
  apply (recommendHeadings_best_first 5 270 12 90 0.4 northernHalf
           (westWind (0 + 90)) [westWind 0] 3).
  - reflexivity.
  - lra.
  - reflexivity.
  - exact recommendHeadings_northern_half.
  - cbn [INR]. lra.
  - cbn [northernHalf allowedHeadings INR].
    rewrite inIntervals_wrapped by lra.
    rewrite (Rltb_false ((1 + 1 + 1) * 90) 270) by lra. reflexivity.
Defined.

End RestrictedRun.


(** ** Wind components: magnitude, best heading and side *)

Section WindMagnitude.

Lemma component_within (ws c : R) : -1 <= c <= 1 -> Rabs (ws * c) <= Rabs ws.
Proof.
  intros Hc. rewrite Rabs_mult.
  assert (Rabs c <= 1) by (apply Rabs_le; lra).
  pose proof (Rabs_pos ws). nra.
Qed.

(** Neither decomposition gives a component larger than the wind: the tail
    component of [scoreHeading] lies within the wind speed in magnitude, and
    its cross component, and the headwind and the crosswind of
    [windComponents], lie between 0 and the magnitude of the wind speed, for
    every finite wind and heading. *)
Theorem wind_components_within_speed (windFromDeg headingDeg windSpeed : R)
    (crosswindPenalty : option num) :
  let sh := scoreHeading (Fin windFromDeg) (Fin windSpeed) (Fin headingDeg) crosswindPenalty in
  let wc := windComponents (Fin windFromDeg) (Fin headingDeg) (Fin windSpeed) in
  exists tail cross head crosswind' : R,
    Scored.tailComponent sh = Fin tail /\ Scored.crossComponent sh = Fin cross
    /\ headwind wc = Fin head /\ crosswind wc = Fin crosswind'
    /\ Rabs tail <= Rabs windSpeed
    /\ 0 <= cross <= Rabs windSpeed
    /\ 0 <= head <= Rabs windSpeed
    /\ 0 <= crosswind' <= Rabs windSpeed.
Proof.
  cbv zeta. rewrite scoreHeading_tail, scoreHeading_cross.
  rewrite windComponents_headwind, windComponents_crosswind, headwindSigned_Fin.
  cbn [Num.abs].
  pose proof (COS_bound (windAngle windFromDeg headingDeg)) as Hc.
  pose proof (SIN_bound (windAngle windFromDeg headingDeg)) as Hs.
  do 4 eexists. do 4 (split; [reflexivity|]).
  repeat split; try apply Rabs_pos; apply component_within; lra.
Qed.

Lemma scoreHeading_score (wf ws h p : R) :
  Scored.score (scoreHeading (Fin wf) (Fin ws) (Fin h) (Some (Fin p)))
  = Fin (ws * - cos (windAngle wf h) - p * Rabs (ws * sin (windAngle wf h))).
Proof. exact (candidate_score wf ws p h). Qed.

(** With a non-negative wind speed and a non-negative crosswind penalty, no
    heading scores higher than the heading along the wind (the direction it
    blows toward), whose score is the wind speed. *)
Theorem scoreHeading_along_wind_is_best (windFromDeg windSpeed headingDeg crosswindPenalty : R) :
  0 <= windSpeed -> 0 <= crosswindPenalty ->
  Scored.score (scoreHeading (Fin windFromDeg) (Fin windSpeed) (Fin (windFromDeg + 180))
                  (Some (Fin crosswindPenalty))) = Fin windSpeed
  /\ (Scored.score (scoreHeading (Fin windFromDeg) (Fin windSpeed) (Fin headingDeg)
                      (Some (Fin crosswindPenalty)))
      <=? Fin windSpeed)%num = true.
Proof.
  intros Hs Hp. rewrite !scoreHeading_score. split.
  - f_equal.
    replace (windAngle windFromDeg (windFromDeg + 180)) with (- PI)
      by (unfold windAngle; field).
    rewrite cos_neg, sin_neg, cos_PI, sin_PI.
    rewrite Ropp_0, Rmult_0_r, Rabs_R0. ring.
  - apply le_Fin_true.
    pose proof (COS_bound (windAngle windFromDeg headingDeg)) as [Hc _].
    pose proof (Rabs_pos (windSpeed * sin (windAngle windFromDeg headingDeg))) as Ha.
    assert (Hpa : 0 <= crosswindPenalty
                       * Rabs (windSpeed * sin (windAngle windFromDeg headingDeg)))
      by now apply Rmult_le_pos.
    assert (Ht : windSpeed * - cos (windAngle windFromDeg headingDeg) <= windSpeed * 1)
      by (apply Rmult_le_compat_l; lra).
    lra.
Qed.

(** A west wind of 12 with the default penalty, against a north-east heading. *)
Lemma scoreHeading_along_wind_is_best_witness :
  Scored.score (scoreHeading (Fin 270) (Fin 12) (Fin (270 + 180)) (Some (Fin 0.4))) = Fin 12
  /\ (Scored.score (scoreHeading (Fin 270) (Fin 12) (Fin 45) (Some (Fin 0.4)))
      <=? Fin 12)%num = true.
Proof.
  apply (scoreHeading_along_wind_is_best 270 12 45 0.4); lra.
Defined.



End WindMagnitude.

(** ** The application: displayed pressures and the weight check *)

Section Application.

(** Whatever the label, a weight split is found (the road split when the
    label is unknown), its front share is positive and at most its rear
    share, and the two shares sum to one. *)
Lemma split_shares (splitLabel : string) :
  exists (s : App.WeightSplit) (a b : R),
    App.split splitLabel = Some s /\ In s App.WEIGHT_SPLITS
    /\ App.front s = Fin a /\ App.rear s = Fin b
    /\ 0 < a <= b /\ a + b = 1.
Proof.
  unfold App.split, App.WEIGHT_SPLITS. cbn [find App.label nth_error].
  repeat match goal with
         | |- context [if (?x =? splitLabel)%string then _ else _] =>
             destruct (x =? splitLabel)%string
         end;
    eexists; do 2 eexists;
    (split; [reflexivity|]); (split; [cbn; tauto|]);
    (split; [reflexivity|]); (split; [reflexivity|]); split; lra.
Qed.

Lemma round_Fin (x : R) : Num.round (Fin x) = Fin (IZR (Zround x)).
Proof. reflexivity. Qed.

Lemma Zround_band (x : R) : 15 <= x <= 130 -> (15 <= Zround x <= 130)%Z.
Proof.
  intros Hx. pose proof (Zround_near x) as Hn. split.
  - apply Zfloor_lub. cbn. lra.
  - apply Z.lt_succ_r. apply lt_IZR. cbn. lra.
Qed.

Lemma names_selected (s : Surface) (v : Speed) (t : TireType) :
  App.surfaceOfName (App.surfaceName s) = Some s
  /\ App.speedOfName (App.speedName v) = Some v
  /\ App.tireTypeOfName (App.tireTypeName t) = Some t.
Proof. destruct s, v, t; repeat split; reflexivity. Qed.

(** The displayed pressures.  When the surface, the speed and the tire type
    are options of the form, then for every finite weight in either unit,
    every split label, every finite tire width and any wheel string, both
    pressures are whole numbers of PSI between 15 and 130 and the front one
    is never above the rear one; the [frontPsi > 0 && rearPsi > 0] part of
    the weather guard is then true, so that the weather update is attempted
    exactly when the weight is valid.  When one of the three strings, as read
    from the URL, is not an option, both pressures are [NaN] and the weather
    update is not attempted, whatever the weight. *)
Theorem wheelPsi_displayed (unitWeight : App.UnitWeight) (systemWeight tireWidthMm : R)
    (splitLabel wheelDiameter : string) :
  (forall (s : Surface) (v : Speed) (t : TireType),
      exists front rear : Z,
        App.wheelPsi unitWeight (Fin systemWeight) splitLabel (Fin tireWidthMm)
          (App.surfaceName s) (App.speedName v) (App.tireTypeName t) wheelDiameter
        = Some {| App.frontPsi := Fin (IZR front); App.rearPsi := Fin (IZR rear) |}
        /\ (15 <= front <= rear)%Z /\ (rear <= 130)%Z
        /\ App.weatherUpdateAttempted (App.weightValid unitWeight (Fin systemWeight))
             {| App.frontPsi := Fin (IZR front); App.rearPsi := Fin (IZR rear) |}
           = App.weightValid unitWeight (Fin systemWeight))
  /\ (forall surface speed tireType : string,
         App.surfaceOfName surface = None \/ App.speedOfName speed = None
         \/ App.tireTypeOfName tireType = None ->
         App.wheelPsi unitWeight (Fin systemWeight) splitLabel (Fin tireWidthMm)
           surface speed tireType wheelDiameter
         = Some {| App.frontPsi := NaN; App.rearPsi := NaN |}
         /\ forall weightValid : bool,
              App.weatherUpdateAttempted weightValid
                {| App.frontPsi := NaN; App.rearPsi := NaN |} = false).
Proof.
  destruct (split_shares splitLabel) as (sp & a & b & Hsp & _ & Ha & Hb & Hab & Hsum).
  split.
  - intros s v t.
    assert (HW : exists W : R, App.weightLbs unitWeight (Fin systemWeight) = Fin W)
      by (destruct unitWeight; eexists; reflexivity).
    destruct HW as [W HW].
    pose proof (width_clamped_range tireWidthMm) as Hw.
    set (P := fun load : R => Rclamp (raw_psi load (width_clamped tireWidthMm) s v t) 15 130).
    assert (Hband : forall load, 15 <= P load <= 130)
      by (intros load; apply Rclamp_bounds; lra).
    assert (Hfr : P (W * a) <= P (W * b)).
    { unfold P. destruct (Rle_lt_dec 0 W) as [Hpos | Hneg].
      - apply Rclamp_mono, raw_psi_mono_load; [lra|].
        apply Rmult_le_compat_l; lra.
      - assert (W * a < 0 /\ W * b < 0) as [Hna Hnb].
        { split.
          - pose proof (Rmult_lt_0_compat (- W) a ltac:(lra) ltac:(lra)). lra.
          - pose proof (Rmult_lt_0_compat (- W) b ltac:(lra) ltac:(lra)). lra. }
        rewrite !Rclamp_below; try lra; apply raw_psi_negative_load; lra. }
    exists (Zround (P (W * a))), (Zround (P (W * b))).
    pose proof (Zround_band _ (Hband (W * a))) as Hza.
    pose proof (Zround_band _ (Hband (W * b))) as Hzb.
    pose proof (Zround_le _ _ Hfr) as Hzle.
    repeat split; try lia.
    + unfold App.wheelPsi, App.computeWheelPsiOf.
      destruct (names_selected s v t) as (-> & -> & ->).
      rewrite Hsp, HW, Ha, Hb. cbn [Num.mul].
      set (wd := match App.wheelDiameterOfName wheelDiameter with
                 | Some w => w
                 | None => W700C_29
                 end).
      change (computeWheelPsi {| loadLbs := Fin (W * a); tireWidthMm := Fin tireWidthMm;
                                 surface := s; speed := v; tireType := t;
                                 wheelDiameter := wd |})
        with (computeWheelPsi (params (Fin (W * a)) (Fin tireWidthMm) s v t wd)).
      change (computeWheelPsi {| loadLbs := Fin (W * b); tireWidthMm := Fin tireWidthMm;
                                 surface := s; speed := v; tireType := t;
                                 wheelDiameter := wd |})
        with (computeWheelPsi (params (Fin (W * b)) (Fin tireWidthMm) s v t wd)).
      rewrite !computeWheelPsi_finite, !round_Fin. reflexivity.
    + unfold App.weatherUpdateAttempted. cbn [App.frontPsi App.rearPsi Num.gt Num.lt].
      assert (H0a : 0 < IZR (Zround (P (W * a)))) by (apply (IZR_lt 0); lia).
      assert (H0b : 0 < IZR (Zround (P (W * b)))) by (apply (IZR_lt 0); lia).
      rewrite !Rltb_true by assumption. now rewrite !andb_true_r.
  - intros surface speed tireType Hbad. split.
    + unfold App.wheelPsi. rewrite Hsp.
      assert (HN : forall load, App.computeWheelPsiOf load (Fin tireWidthMm) surface speed
                                  tireType wheelDiameter = NaN).
      { intros load. unfold App.computeWheelPsiOf.
        destruct Hbad as [-> | [H | H]].
        - reflexivity.
        - rewrite H. now destruct (App.surfaceOfName surface).
        - rewrite H.
          now destruct (App.surfaceOfName surface), (App.speedOfName speed). }
      rewrite !HN. reflexivity.
    + intros weightValid. unfold App.weatherUpdateAttempted.
      cbn [App.frontPsi App.rearPsi Num.gt Num.lt]. now rewrite andb_false_r.
Qed.

(** The weight check against the weight field: in pounds both bounds of the
    input field (75 and 450) are valid weights; in kilograms neither bound of
    the field (34 and 205) is, every valid weight lying strictly between. *)
Theorem weightValid_against_input_bounds :
  App.weightValid App.lbs (App.weightInputMin App.lbs) = true
  /\ App.weightValid App.lbs (App.weightInputMax App.lbs) = true
  /\ App.weightValid App.kg (App.weightInputMin App.kg) = false
  /\ App.weightValid App.kg (App.weightInputMax App.kg) = false
  /\ forall w : R, App.weightValid App.kg (Fin w) = true -> 34 < w < 205.
Proof.
  unfold App.weightValid, App.weightLbs, App.weightInputMin, App.weightInputMax.
  cbn [Num.mul Num.ge Num.le Num.lt]. repeat split.
  - rewrite !Rltb_false by lra. reflexivity.
  - rewrite !Rltb_false by lra. reflexivity.
  - rewrite (Rltb_true (34 * 2.20462262) 75) by lra. reflexivity.
  - rewrite (Rltb_true 450 (205 * 2.20462262)) by lra. apply andb_false_r.
  - apply andb_true_iff in H. destruct H as [H1 _].
    apply negb_true_iff in H1. unfold Rltb in H1.
    destruct (Rlt_dec (w * 2.20462262) 75); [discriminate | lra].
  - apply andb_true_iff in H. destruct H as [_ H2].
    apply negb_true_iff in H2. unfold Rltb in H2.
    destruct (Rlt_dec 450 (w * 2.20462262)); [discriminate | lra].
Qed.

End Application.

(** ** URL state *)

Section UrlStateProperties.

Import UrlState.

Variable numberToString : num -> string.

Lemma get_delete_same (k : string) (ps : SearchParams) : get k (delete k ps) = None.
Proof.
  induction ps as [| [k' v'] ps IH]; cbn; [reflexivity|].
  destruct (k' =? k)%string eqn:E; cbn; [assumption|]. now rewrite E.
Qed.

Lemma get_delete_other (k k' : string) (ps : SearchParams) :
  k <> k' -> get k (delete k' ps) = get k ps.
Proof.
  intros Hne. induction ps as [| [k0 v0] ps IH]; cbn; [reflexivity|].
  destruct (k0 =? k')%string eqn:E; cbn.
  - apply String.eqb_eq in E. subst k0.
    rewrite (proj2 (String.eqb_neq k' k)) by congruence. assumption.
  - destruct (k0 =? k)%string; [reflexivity | assumption].
Qed.

Lemma get_set_same (k v : string) (ps : SearchParams) : get k (set k v ps) = Some v.
Proof.
  induction ps as [| [k' v'] ps IH]; cbn.
  - now rewrite String.eqb_refl.
  - destruct (k' =? k)%string eqn:E; cbn.
    + now rewrite String.eqb_refl.
    + now rewrite E.
Qed.

Lemma get_set_other (k k' v : string) (ps : SearchParams) :
  k <> k' -> get k (set k' v ps) = get k ps.
Proof.
  intros Hne. induction ps as [| [k0 v0] ps IH]; cbn.
  - now rewrite (proj2 (String.eqb_neq k' k)) by congruence.
  - destruct (k0 =? k')%string eqn:E; cbn.
    + apply String.eqb_eq in E. subst k0.
      rewrite (proj2 (String.eqb_neq k' k)) by congruence.
      now apply get_delete_other.
    + destruct (k0 =? k)%string; [reflexivity | assumption].
Qed.

Lemma get_setEntry_same (k : string) (v : Value) (url : SearchParams) :
  get k (setEntry numberToString url (k, v)) = storedValue numberToString v.
Proof.
  unfold setEntry, storedValue.
  destruct v as [| | [| c s] | n];
    first [apply get_delete_same | apply get_set_same].
Qed.

Lemma get_setEntry_other (k k' : string) (v : Value) (url : SearchParams) :
  k <> k' -> get k (setEntry numberToString url (k', v)) = get k url.
Proof.
  intros Hne. unfold setEntry.
  destruct v as [| | [| c s] | n];
    first [now apply get_delete_other | now apply get_set_other].
Qed.

Lemma get_setQuery_other (k : string) (params : list (string * Value)) :
  forall url : SearchParams,
    ~ In k (map fst params) ->
    get k (setQuery numberToString params url) = get k url.
Proof.
  induction params as [| [k' v'] params IH]; intros url Hk; cbn; [reflexivity|].
  cbn in Hk. unfold setQuery in IH. rewrite IH by tauto.
  apply get_setEntry_other. intros ->. tauto.
Qed.

Lemma get_setQuery_same (params : list (string * Value)) :
  NoDup (map fst params) ->
  forall (url : SearchParams) (k : string) (v : Value),
    In (k, v) params ->
    get k (setQuery numberToString params url) = storedValue numberToString v.
Proof.
  induction params as [| [k' v'] params IH]; intros Hnd url k v Hin; [destruct Hin|].
  cbn in Hnd. inversion Hnd as [| ? ? Hk' Hnd']; subst.
  unfold setQuery in *. cbn [fold_left].
  destruct Hin as [[= -> ->] | Hin].
  - fold (setQuery numberToString params (setEntry numberToString url (k, v))).
    rewrite get_setQuery_other by assumption. apply get_setEntry_same.
  - now apply IH.
Qed.

(** Reading back what was written: after [setQuery], [getQuery] returns for
    every key of the parameters the string of its value, or [null] when the
    value was [undefined], [null] or empty, and for every other key what it
    returned before. *)
Theorem setQuery_then_getQuery (params : list (string * Value)) (url : SearchParams) :
  NoDup (map fst params) ->
  (forall k v, In (k, v) params ->
     getQuery k (setQuery numberToString params url) = storedValue numberToString v)
  /\ (forall k, ~ In k (map fst params) ->
        getQuery k (setQuery numberToString params url) = getQuery k url).
Proof.
  intros Hnd. split.
  - intros k v Hin. now apply get_setQuery_same.
  - intros k Hk. now apply get_setQuery_other.
Qed.

Lemma occurrences_delete_same (k : string) (ps : SearchParams) :
  occurrences k (delete k ps) = 0%nat.
Proof.
  unfold occurrences, delete. induction ps as [| [k' v'] ps IH]; cbn; [reflexivity|].
  destruct (k' =? k)%string eqn:E; cbn; [assumption|]. now rewrite E.
Qed.

Lemma delete_absent (k : string) (ps : SearchParams) :
  occurrences k ps = 0%nat -> delete k ps = ps.
Proof.
  unfold occurrences, delete. induction ps as [| [k' v'] ps IH]; cbn; [reflexivity|].
  destruct (k' =? k)%string; cbn; [discriminate|]. intros H. f_equal. now apply IH.
Qed.

Lemma set_settled (k v : string) (ps : SearchParams) :
  occurrences k ps = 1%nat -> get k ps = Some v -> set k v ps = ps.
Proof.
  unfold occurrences. induction ps as [| [k' v'] ps IH]; cbn; [discriminate|].
  destruct (k' =? k)%string eqn:E; cbn.
  - intros Hocc [= ->]. apply String.eqb_eq in E. subst k'. f_equal.
    apply delete_absent. unfold occurrences. lia.
  - intros Hocc Hget. f_equal. now apply IH.
Qed.

Lemma occurrences_delete_other (k k' : string) (ps : SearchParams) :
  k <> k' -> occurrences k (delete k' ps) = occurrences k ps.
Proof.
  intros Hne. unfold occurrences, delete.
  induction ps as [| [k0 v0] ps IH]; cbn; [reflexivity|].
  destruct (k0 =? k')%string eqn:E; cbn.
  - apply String.eqb_eq in E. subst k0.
    rewrite (proj2 (String.eqb_neq k' k)) by congruence. assumption.
  - destruct (k0 =? k)%string; cbn; [f_equal|]; assumption.
Qed.

Lemma occurrences_set_same (k v : string) (ps : SearchParams) :
  occurrences k (set k v ps) = 1%nat.
Proof.
  induction ps as [| [k' v'] ps IH]; cbn.
  - unfold occurrences. cbn. now rewrite String.eqb_refl.
  - destruct (k' =? k)%string eqn:E.
    + unfold occurrences. cbn. rewrite String.eqb_refl. cbn. f_equal.
      apply occurrences_delete_same.
    + unfold occurrences in *. cbn. now rewrite E.
Qed.

Lemma occurrences_set_other (k k' v : string) (ps : SearchParams) :
  k <> k' -> occurrences k (set k' v ps) = occurrences k ps.
Proof.
  intros Hne. induction ps as [| [k0 v0] ps IH]; cbn.
  - unfold occurrences. cbn. now rewrite (proj2 (String.eqb_neq k' k)) by congruence.
  - destruct (k0 =? k')%string eqn:E.
    + apply String.eqb_eq in E. subst k0.
      pose proof (occurrences_delete_other k k' ps Hne) as Hd.
      unfold occurrences in *. cbn.
      rewrite (proj2 (String.eqb_neq k' k)) by congruence.
      exact Hd.
    + unfold occurrences in *. cbn. destruct (k0 =? k)%string; cbn; [f_equal|]; assumption.
Qed.

Lemma get_Some_occurs (k v : string) (ps : SearchParams) :
  get k ps = Some v -> (1 <= occurrences k ps)%nat.
Proof.
  unfold occurrences. induction ps as [| [k' v'] ps IH]; cbn; [discriminate|].
  destruct (k' =? k)%string; cbn; [lia | assumption].
Qed.

Lemma setEntry_settled (url : SearchParams) (k : string) (v : Value) :
  settled numberToString url (k, v) -> setEntry numberToString url (k, v) = url.
Proof.
  unfold settled, setEntry, storedValue. cbn [fst snd]. intros (Hget & Hocc & Hnone).
  destruct v as [| | [| c s] | n];
    first [ apply delete_absent; now apply Hnone
          | apply set_settled; [pose proof (get_Some_occurs _ _ _ Hget); lia | exact Hget] ].
Qed.

Lemma setEntry_settles (url : SearchParams) (k : string) (v : Value) :
  settled numberToString (setEntry numberToString url (k, v)) (k, v).
Proof.
  unfold settled. cbn [fst snd]. rewrite get_setEntry_same. split; [reflexivity|].
  unfold setEntry, storedValue.
  destruct v as [| | [| c s] | n];
    first [ rewrite occurrences_delete_same; split; [lia | reflexivity]
          | rewrite occurrences_set_same; split; [lia | discriminate] ].
Qed.

Lemma setEntry_keeps_settled (url : SearchParams) (k : string) (v : Value)
    (entry : string * Value) :
  fst entry <> k -> settled numberToString url entry ->
  settled numberToString (setEntry numberToString url (k, v)) entry.
Proof.
  intros Hne (Hget & Hocc & Hnone). unfold settled.
  rewrite get_setEntry_other by assumption.
  assert (Ho : occurrences (fst entry) (setEntry numberToString url (k, v))
               = occurrences (fst entry) url).
  { unfold setEntry.
    destruct v as [| | [| c s] | n];
      first [now apply occurrences_delete_other | now apply occurrences_set_other]. }
  rewrite Ho. repeat split; assumption.
Qed.

Lemma setQuery_settles (params : list (string * Value)) :
  NoDup (map fst params) ->
  forall (url : SearchParams) (done : list (string * Value)),
    Forall (settled numberToString url) done ->
    (forall e, In e done -> ~ In (fst e) (map fst params)) ->
    Forall (settled numberToString (setQuery numberToString params url)) (done ++ params).
Proof.
  induction params as [| [k v] params IH]; intros Hnd url done Hdone Hfresh; cbn.
  - now rewrite app_nil_r.
  - inversion Hnd as [| ? ? Hk Hnd']; subst.
    replace (done ++ (k, v) :: params) with ((done ++ [(k, v)]) ++ params)
      by now rewrite <- app_assoc.
    apply (IH Hnd').
    + apply Forall_app. split.
      * rewrite Forall_forall in *. intros e He.
        apply setEntry_keeps_settled; [| now apply Hdone].
        intros Heq. apply (Hfresh e He). left. now symmetry.
      * constructor; [apply setEntry_settles | constructor].
    + intros e He. apply in_app_or in He. destruct He as [He | [<- | []]].
      * intros Hin. apply (Hfresh e He). now right.
      * exact Hk.
Qed.

Lemma setQuery_fixed (params : list (string * Value)) :
  forall url : SearchParams,
    Forall (settled numberToString url) params -> setQuery numberToString params url = url.
Proof.
  induction params as [| [k v] params IH]; intros url Hs; [reflexivity|].
  inversion Hs as [| ? ? Hkv Hrest]; subst.
  unfold setQuery in *. cbn [fold_left].
  rewrite setEntry_settled by assumption. now apply IH.
Qed.

(** Writing the same parameters a second time leaves the URL as the first
    write left it: each of their keys is by then held by at most one pair,
    with the value written. *)
Theorem setQuery_idempotent (params : list (string * Value)) (url : SearchParams) :
  NoDup (map fst params) ->
  setQuery numberToString params (setQuery numberToString params url)
  = setQuery numberToString params url
  /\ forall k, In k (map fst params) ->
       (occurrences k (setQuery numberToString params url) <= 1)%nat.
Proof.
  intros Hnd.
  pose proof (setQuery_settles params Hnd url [] (Forall_nil _) (fun e H => match H with end))
    as Hs.
  cbn [app] in Hs. split; [now apply setQuery_fixed|].
  intros k Hk. apply in_map_iff in Hk. destruct Hk as ([k' v] & <- & Hin).
  rewrite Forall_forall in Hs. apply (Hs _ Hin).
Qed.

End UrlStateProperties.

Section PersistedForm.

Lemma persistedParams_keys (st : App.Form.t) :
  map fst (App.persistedParams st)
  = ["uw"; "w"; "surface"; "width"; "wheel"; "tt"; "speed"; "split"; "preset"]%string.
Proof. reflexivity. Qed.

Lemma persistedParams_NoDup (st : App.Form.t) : NoDup (map fst (App.persistedParams st)).
Proof.
  rewrite persistedParams_keys.
  repeat (constructor; [cbn; intuition discriminate|]). constructor.
Qed.

(** The parameters the application persists for the default road form,
    written to an empty URL. *)
Lemma setQuery_then_getQuery_witness :
  (forall k v, In (k, v) (App.persistedParams roadForm) ->
     UrlState.getQuery k (UrlState.setQuery showAs28 (App.persistedParams roadForm) [])
     = storedValue showAs28 v)
  /\ (forall k, ~ In k (map fst (App.persistedParams roadForm)) ->
        UrlState.getQuery k (UrlState.setQuery showAs28 (App.persistedParams roadForm) [])
        = UrlState.getQuery k []).
Proof.
  apply (setQuery_then_getQuery showAs28 (App.persistedParams roadForm) []).
  apply persistedParams_NoDup.
Defined.

(** Persisting the default road form twice, from a URL that holds the width
    twice. *)
Lemma setQuery_idempotent_witness :
  UrlState.setQuery showAs28 (App.persistedParams roadForm)
    (UrlState.setQuery showAs28 (App.persistedParams roadForm)
       [("width", "25"); ("width", "32")]%string)
  = UrlState.setQuery showAs28 (App.persistedParams roadForm)
      [("width", "25"); ("width", "32")]%string
  /\ forall k, In k (map fst (App.persistedParams roadForm)) ->
       (occurrences k (UrlState.setQuery showAs28 (App.persistedParams roadForm)
                         [("width", "25"); ("width", "32")]%string) <= 1)%nat.
Proof.
  apply (setQuery_idempotent showAs28 (App.persistedParams roadForm)
           [("width", "25"); ("width", "32")]%string).
  apply persistedParams_NoDup.
Defined.

End PersistedForm.

(** ** Presets against the persisted URL *)

Section Presets.

Import UrlState App.

Variable numberToString : num -> string.

Lemma persist_width (st : Form.t) (url : SearchParams) :
  getQuery "width" (persist numberToString st url)
  = Some (numberToString (Form.tireWidthMm st)).
Proof.
  unfold getQuery, persist.
  apply (get_setQuery_same numberToString (persistedParams st) (persistedParams_NoDup st)
           url "width" (VNumber (Form.tireWidthMm st))).
  cbn. tauto.
Qed.

(** Once the inputs have been persisted, the URL holds a width, so a preset
    no longer applies its default width: [applyPreset] leaves the tire width
    as it is, for every preset name.  On a URL without a width, a preset
    applies its default width, its surface and its split label, and that
    label names one of the weight splits. *)
Theorem applyPreset_after_persist (name' : string) (st shown : Form.t) (url : SearchParams) :
  (forall n : num, numberToString n <> EmptyString) ->
  Form.tireWidthMm (applyPreset name' (persist numberToString shown url) st)
  = Form.tireWidthMm st
  /\ forall p : Preset, In p PRESETS -> getQuery "width" url = None ->
       let st' := applyPreset (name p) url st in
       Form.tireWidthMm st' = defaultWidth p
       /\ Form.surface st' = surface p
       /\ Form.splitLabel st' = splitLabel p
       /\ Form.presetName st' = name p
       /\ exists s : WeightSplit, split (Form.splitLabel st') = Some s /\ label s = splitLabel p.
Proof.
  intros Hstr. split.
  - unfold applyPreset. rewrite persist_width.
    destruct (find _ PRESETS) as [p |]; cbn [Form.tireWidthMm]; [| reflexivity].
    destruct (numberToString (Form.tireWidthMm shown)) eqn:E; [| reflexivity].
    now apply Hstr in E.
  - intros p Hp Hw. cbn zeta. unfold applyPreset. rewrite Hw.
    cbn in Hp. destruct Hp as [<- | [<- | [<- | []]]]; cbn;
      (repeat split; eexists; split; reflexivity).
Qed.

End Presets.

(** A first visit (empty URL) persists the default road form; the "Gravel"
    preset then keeps the 28 mm width. *)
Lemma applyPreset_after_persist_witness :
  App.Form.tireWidthMm
    (App.applyPreset "Gravel" (App.persist showAs28 roadForm []) roadForm)
  = Fin 28.
Proof.
  apply (applyPreset_after_persist showAs28 "Gravel" roadForm roadForm []).
  intros n. discriminate.
Defined.

(** ** Binary64: rounding to the nearest Number *)

Section B64Facts.

Import B64.

Lemma bpow_pos (e : Z) : 0 < bpow e.
Proof. unfold bpow. apply powerRZ_lt. lra. Qed.

Lemma bpow_add (a b : Z) : bpow (a + b) = bpow a * bpow b.
Proof. unfold bpow. apply powerRZ_add. lra. Qed.

Lemma bpow_0 : bpow 0 = 1.
Proof. reflexivity. Qed.

Lemma bpow_1 : bpow 1 = 2.
Proof. unfold bpow, powerRZ. simpl. lra. Qed.

Lemma bpow_succ (e : Z) : bpow (e + 1) = 2 * bpow e.
Proof. rewrite bpow_add, bpow_1. ring. Qed.

Lemma bpow_pred (e : Z) : bpow (e - 1) = bpow e / 2.
Proof.
  replace e with (e - 1 + 1)%Z at 2 by lia. rewrite bpow_succ. field.
Qed.

Lemma bpow_nonneg_IZR (k : Z) : (0 <= k)%Z -> bpow k = IZR (2 ^ k).
Proof.
  intros Hk. unfold bpow. rewrite <- (Z2Nat.id k Hk).
  rewrite <- pow_powerRZ, pow_IZR. reflexivity.
Qed.

Lemma bpow_ge_1 (k : Z) : (0 <= k)%Z -> 1 <= bpow k.
Proof.
  intros Hk. rewrite bpow_nonneg_IZR by assumption. apply IZR_le.
  assert (0 < 2 ^ k)%Z by (apply Z.pow_pos_nonneg; lia). lia.
Qed.

Lemma bpow_le (a b : Z) : (a <= b)%Z -> bpow a <= bpow b.
Proof.
  intros H. replace b with (a + (b - a))%Z by lia. rewrite bpow_add.
  pose proof (bpow_pos a). pose proof (bpow_ge_1 (b - a) ltac:(lia)). nra.
Qed.

Lemma bpow_lt (a b : Z) : (a < b)%Z -> bpow a < bpow b.
Proof.
  intros H. apply Rlt_le_trans with (bpow (a + 1)).
  - rewrite bpow_succ. pose proof (bpow_pos a). lra.
  - apply bpow_le. lia.
Qed.

Lemma bpow_lt_inv (a b : Z) : bpow a < bpow b -> (a < b)%Z.
Proof.
  intros H. destruct (Z_lt_le_dec a b) as [Hlt | Hge]; [assumption|].
  apply bpow_le in Hge. lra.
Qed.

Lemma ln_2_pos : 0 < ln 2.
Proof. rewrite <- ln_1. apply ln_increasing; lra. Qed.

Lemma bpow_exp (e : Z) : bpow e = exp (IZR e * ln 2).
Proof. unfold bpow. rewrite powerRZ_Rpower by lra. reflexivity. Qed.

(** The magnitude brackets the number between two powers of two. *)
Lemma mag_spec (x : R) : x <> 0 -> bpow (mag x - 1) <= Rabs x < bpow (mag x).
Proof.
  intros Hx. assert (Ha : 0 < Rabs x) by now apply Rabs_pos_lt.
  unfold mag. pose proof (Zfloor_bound (ln (Rabs x) / ln 2)) as [Hlo Hhi].
  set (f := Zfloor (ln (Rabs x) / ln 2)) in *.
  pose proof ln_2_pos as H2.
  assert (Hlo' : IZR f * ln 2 <= ln (Rabs x)).
  { apply (Rmult_le_compat_r (ln 2)) in Hlo; [| lra].
    unfold Rdiv in Hlo. rewrite Rmult_assoc, Rinv_l, Rmult_1_r in Hlo by lra. exact Hlo. }
  assert (Hhi' : ln (Rabs x) < (IZR f + 1) * ln 2).
  { apply (Rmult_lt_compat_r (ln 2)) in Hhi; [| lra].
    unfold Rdiv in Hhi. rewrite Rmult_assoc, Rinv_l, Rmult_1_r in Hhi by lra. exact Hhi. }
  replace (f + 1 - 1)%Z with f by lia. rewrite !bpow_exp, plus_IZR.
  rewrite <- (exp_ln (Rabs x)) at 1 2 by assumption. split.
  - destruct Hlo' as [Hlt | Heq]; [left; now apply exp_increasing | right; now rewrite Heq].
  - now apply exp_increasing.
Qed.

Lemma mag_unique (x : R) (e : Z) : bpow (e - 1) <= Rabs x < bpow e -> mag x = e.
Proof.
  intros [Hlo Hhi].
  assert (Hx : x <> 0).
  { intros ->. rewrite Rabs_R0 in Hlo. pose proof (bpow_pos (e - 1)). lra. }
  destruct (mag_spec x Hx) as [Hlo' Hhi'].
  assert (mag x - 1 < e)%Z by (apply bpow_lt_inv; lra).
  assert (e - 1 < mag x)%Z by (apply bpow_lt_inv; lra).
  lia.
Qed.

Lemma nearestEven_near (y : R) : Rabs (IZR (nearestEven y) - y) <= / 2.
Proof.
  unfold nearestEven. pose proof (Zfloor_bound y) as [Hlo Hhi].
  set (f := Zfloor y) in *. unfold Rltb.
  destruct (Rlt_dec (y - IZR f) (/ 2)).
  - rewrite Rabs_left1; lra.
  - destruct (Rlt_dec (/ 2) (y - IZR f)).
    + rewrite plus_IZR. rewrite Rabs_right; lra.
    + destruct (Z.even f); [rewrite Rabs_left1; lra | rewrite plus_IZR, Rabs_right; lra].
Qed.

Lemma nearestEven_eq (y : R) (n : Z) : Rabs (y - IZR n) < / 2 -> nearestEven y = n.
Proof.
  intros H. apply Rabs_def2 in H. destruct H as [H1 H2].
  unfold nearestEven. set (f := Zfloor y). unfold Rltb.
  destruct (Rle_lt_dec (IZR n) y) as [Hle | Hlt].
  - assert (Hf : f = n) by (apply Zfloor_eq; lra).
    rewrite Hf. destruct (Rlt_dec (y - IZR n) (/ 2)); [reflexivity | lra].
  - assert (Hf : f = (n - 1)%Z) by (apply Zfloor_eq; rewrite minus_IZR; lra).
    rewrite Hf, minus_IZR.
    destruct (Rlt_dec (y - (IZR n - 1)) (/ 2)); [lra|].
    destruct (Rlt_dec (/ 2) (y - (IZR n - 1))); [lia | lra].
Qed.

Lemma nearestEven_IZR (n : Z) : nearestEven (IZR n) = n.
Proof. apply nearestEven_eq. rewrite Rminus_diag, Rabs_R0. lra. Qed.

(** A tie goes to the even neighbour. *)
Lemma nearestEven_tie (n : Z) : Z.even n = true -> nearestEven (IZR n + / 2) = n.
Proof.
  intros He. unfold nearestEven.
  assert (Hf : Zfloor (IZR n + / 2) = n) by (apply Zfloor_eq; lra).
  rewrite Hf. unfold Rltb.
  destruct (Rlt_dec (IZR n + / 2 - IZR n) (/ 2)); [lra|].
  destruct (Rlt_dec (/ 2) (IZR n + / 2 - IZR n)); [lra|].
  now rewrite He.
Qed.

Lemma roundReal_0 : roundReal 0 = 0.
Proof. unfold roundReal. now rewrite Reqb_true. Qed.

Lemma roundReal_nonzero (x : R) :
  x <> 0 ->
  roundReal x = IZR (nearestEven (x / bpow (fexp (mag x)))) * bpow (fexp (mag x)).
Proof. intros Hx. unfold roundReal. now rewrite Reqb_false. Qed.

(** Rounding moves a number by at most half a unit in its last place. *)
Lemma roundReal_half_ulp (x : R) :
  x <> 0 -> Rabs (roundReal x - x) <= bpow (fexp (mag x)) / 2.
Proof.
  intros Hx. rewrite roundReal_nonzero by assumption.
  set (b := bpow (fexp (mag x))). pose proof (bpow_pos (fexp (mag x))) as Hb. fold b in Hb.
  pose proof (nearestEven_near (x / b)) as Hn.
  replace (IZR (nearestEven (x / b)) * b - x)
    with ((IZR (nearestEven (x / b)) - x / b) * b) by (field; lra).
  rewrite Rabs_mult, (Rabs_right b) by lra. nra.
Qed.

Lemma u_pos : 0 < u. Proof. apply bpow_pos. Qed.
Lemma eta_pos : 0 < eta. Proof. apply bpow_pos. Qed.

(** The relative error of rounding is at most [2^-53], up to [2^-1075] below
    the normal range. *)
Lemma roundReal_error (x : R) : Rabs (roundReal x - x) <= u * Rabs x + eta.
Proof.
  pose proof u_pos. pose proof eta_pos.
  destruct (Req_dec_T x 0) as [-> | Hx].
  - rewrite roundReal_0, Rminus_diag, Rabs_R0. lra.
  - pose proof (roundReal_half_ulp x Hx) as Hh.
    pose proof (mag_spec x Hx) as [Hlo _].
    unfold fexp, prec, emin in Hh.
    destruct (Z.max_spec (mag x - 53) (-1074)) as [[_ E] | [_ E]]; rewrite E in Hh.
    + change (-1074)%Z with (-1075 + 1)%Z in Hh.
      rewrite bpow_succ in Hh. unfold eta. pose proof (Rabs_pos x). nra.
    + replace (mag x - 53)%Z with ((mag x - 1) + (-53) + 1)%Z in Hh by lia.
      rewrite bpow_succ, bpow_add in Hh. unfold u.
      pose proof (bpow_pos (-53)). nra.
Qed.

End B64Facts.

Section B64Format.

Import B64.

Lemma Rabs_le_bounds (x a : R) : Rabs x <= a -> - a <= x <= a.
Proof. unfold Rabs. destruct (Rcase_abs x); lra. Qed.

Lemma Rabs_IZR_lt (m k : Z) : (Z.abs m < k)%Z -> Rabs (IZR m) < IZR k.
Proof. intros H. rewrite <- abs_IZR. now apply IZR_lt. Qed.

(** A number [m * 2^e] with fewer than 53 bits in [m] and [e] at least
    [-1074] is a binary64 number: rounding leaves it as it is. *)
Lemma roundReal_representable (m e : Z) :
  (Z.abs m < 2 ^ 53)%Z -> (emin <= e)%Z ->
  roundReal (IZR m * bpow e) = IZR m * bpow e.
Proof.
  intros Hm He. set (x := IZR m * bpow e).
  destruct (Z.eq_dec m 0) as [-> | Hm0].
  - unfold x. rewrite Rmult_0_l. apply roundReal_0.
  - pose proof (bpow_pos e) as Hbe.
    assert (Hx : x <> 0).
    { unfold x. apply Rmult_integral_contrapositive_currified; [| lra].
      intros H0. apply eq_IZR_R0 in H0. contradiction. }
    rewrite roundReal_nonzero by assumption.
    assert (Hf : (fexp (mag x) <= e)%Z).
    { pose proof (mag_spec x Hx) as [Hlo _].
      assert (Hlt : Rabs x < bpow (53 + e)).
      { unfold x. rewrite Rabs_mult, (Rabs_right (bpow e)) by lra.
        rewrite bpow_add, (bpow_nonneg_IZR 53) by lia.
        apply Rmult_lt_compat_r; [assumption | now apply Rabs_IZR_lt]. }
      assert (mag x - 1 < 53 + e)%Z by (apply bpow_lt_inv; lra).
      unfold fexp, prec. lia. }
    set (f := fexp (mag x)) in *.
    assert (Hq : x / bpow f = IZR (m * 2 ^ (e - f))).
    { unfold x. rewrite mult_IZR, <- bpow_nonneg_IZR by lia.
      replace e with (f + (e - f))%Z at 1 by lia. rewrite bpow_add.
      field. pose proof (bpow_pos f). lra. }
    rewrite Hq, nearestEven_IZR, mult_IZR, <- bpow_nonneg_IZR by lia.
    unfold x. replace e with (f + (e - f))%Z at 2 by lia. rewrite bpow_add. ring.
Qed.

Lemma roundReal_representable_le (m e : Z) :
  (Z.abs m <= 2 ^ 53)%Z -> (emin <= e)%Z ->
  roundReal (IZR m * bpow e) = IZR m * bpow e.
Proof.
  intros Hm He. destruct (Z_lt_le_dec (Z.abs m) (2 ^ 53)) as [Hlt | Hge].
  - now apply roundReal_representable.
  - assert (Hm' : m = (2 * (m / 2))%Z).
    { assert (Z.abs m = 2 ^ 53)%Z by lia.
      destruct (Z.abs_eq_or_opp m) as [E | E]; rewrite E in H.
      - rewrite H. reflexivity.
      - assert (m = - 2 ^ 53)%Z by lia. subst m. reflexivity. }
    rewrite Hm', mult_IZR.
    replace (2 * IZR (m / 2) * bpow e) with (IZR (m / 2) * bpow (e + 1))
      by (rewrite bpow_succ; ring).
    apply roundReal_representable; [| lia].
    assert (Z.abs m = 2 ^ 53)%Z by lia.
    destruct (Z.abs_eq_or_opp m) as [E | E]; rewrite E in H.
    + rewrite H. reflexivity.
    + assert (m = - 2 ^ 53)%Z by lia. subst m. reflexivity.
Qed.

Lemma roundReal_IZR (k : Z) : (Z.abs k <= 2 ^ 53)%Z -> roundReal (IZR k) = IZR k.
Proof.
  intros Hk. rewrite <- (Rmult_1_r (IZR k)), <- bpow_0.
  apply roundReal_representable_le; [assumption | unfold emin; lia].
Qed.

(** The integer significand of a rounded number has at most 53 bits. *)
Lemma significand_bound (x : R) :
  x <> 0 -> (Z.abs (nearestEven (x / bpow (fexp (mag x)))) <= 2 ^ 53)%Z.
Proof.
  intros Hx. pose proof (mag_spec x Hx) as [_ Hhi].
  set (f := fexp (mag x)). pose proof (bpow_pos f) as Hf.
  assert (Hy : Rabs (x / bpow f) < IZR (2 ^ 53)).
  { unfold Rdiv. rewrite Rabs_mult, Rabs_inv, (Rabs_right (bpow f)) by lra.
    apply (Rmult_lt_reg_r (bpow f)); [assumption|].
    rewrite Rmult_assoc, Rinv_l, Rmult_1_r by lra.
    rewrite <- (bpow_nonneg_IZR 53), <- bpow_add by lia.
    eapply Rlt_le_trans; [exact Hhi|]. apply bpow_le. unfold f, fexp, prec. lia. }
  pose proof (nearestEven_near (x / bpow f)) as Hn.
  set (n := nearestEven (x / bpow f)) in *.
  assert (Habs : Rabs (IZR n) < IZR (2 ^ 53) + 1).
  { replace (IZR n) with ((IZR n - x / bpow f) + x / bpow f) by ring.
    eapply Rle_lt_trans; [apply Rabs_triang|]. lra. }
  rewrite <- abs_IZR, <- plus_IZR in Habs. apply lt_IZR in Habs. lia.
Qed.

Lemma fexp_ge_emin (e : Z) : (emin <= fexp e)%Z.
Proof. unfold fexp. lia. Qed.

(** A rounded number is a binary64 number. *)
Lemma roundReal_idempotent (x : R) : roundReal (roundReal x) = roundReal x.
Proof.
  destruct (Req_dec_T x 0) as [-> | Hx].
  - now rewrite !roundReal_0.
  - rewrite (roundReal_nonzero x Hx).
    apply roundReal_representable_le; [now apply significand_bound | apply fexp_ge_emin].
Qed.

Lemma roundReal_nonneg (x : R) : 0 <= x -> 0 <= roundReal x.
Proof.
  intros Hx. destruct (Req_dec_T x 0) as [-> | Hx0].
  - rewrite roundReal_0. lra.
  - rewrite roundReal_nonzero by assumption.
    set (f := fexp (mag x)). pose proof (bpow_pos f) as Hf.
    apply Rmult_le_pos; [| lra]. apply IZR_le.
    assert (Hq : 0 <= x / bpow f) by (apply Rmult_le_pos; [lra | left; now apply Rinv_0_lt_compat]).
    pose proof (nearestEven_near (x / bpow f)) as Hn.
    set (n := nearestEven (x / bpow f)) in *.
    destruct (Z_lt_le_dec n 0) as [Hneg | Hpos]; [| assumption].
    assert (IZR n <= -1) by (apply IZR_le; lia).
    rewrite Rabs_left1 in Hn by lra. lra.
Qed.

Lemma nearestEven_opp (y : R) : nearestEven (- y) = (- nearestEven y)%Z.
Proof.
  pose proof (nearestEven_near y) as Hn. set (n := nearestEven y) in *.
  destruct (Rle_lt_or_eq_dec _ _ Hn) as [Hlt | Heq].
  - apply nearestEven_eq. rewrite opp_IZR.
    replace (- y - - IZR n) with (- (y - IZR n)) by ring.
    rewrite Rabs_Ropp, Rabs_minus_sym. exact Hlt.
  - (* a tie *)
    unfold n, nearestEven in *. set (f := Zfloor y) in *.
    pose proof (Zfloor_bound y) as [Hlo Hhi]. fold f in Hlo, Hhi.
    unfold Rltb in *.
    destruct (Rlt_dec (y - IZR f) (/ 2)) as [H1 | H1].
    + rewrite Rabs_left1 in Heq by lra. lra.
    + destruct (Rlt_dec (/ 2) (y - IZR f)) as [H2 | H2].
      * rewrite plus_IZR, Rabs_right in Heq by lra. lra.
      * assert (Hy : y = IZR f + / 2) by lra.
        assert (Hf' : Zfloor (- y) = (- f - 1)%Z).
        { apply Zfloor_eq. rewrite minus_IZR, opp_IZR. lra. }
        rewrite Hf', minus_IZR, opp_IZR.
        destruct (Rlt_dec (- y - (- IZR f - 1)) (/ 2)); [lra|].
        destruct (Rlt_dec (/ 2) (- y - (- IZR f - 1))); [lra|].
        replace (- f - 1)%Z with (- (f + 1))%Z by lia.
        rewrite Z.even_opp, Z.even_add. cbn.
        destruct (Z.even f); cbn; lia.
Qed.

Lemma mag_opp (x : R) : mag (- x) = mag x.
Proof. unfold mag. now rewrite Rabs_Ropp. Qed.

Lemma roundReal_opp (x : R) : roundReal (- x) = - roundReal x.
Proof.
  destruct (Req_dec_T x 0) as [-> | Hx].
  - rewrite Ropp_0, roundReal_0. ring.
  - rewrite !roundReal_nonzero by lra. rewrite mag_opp.
    replace (- x / bpow (fexp (mag x))) with (- (x / bpow (fexp (mag x))))
      by (field; pose proof (bpow_pos (fexp (mag x))); lra).
    rewrite nearestEven_opp, opp_IZR. ring.
Qed.

Lemma roundReal_nonpos (x : R) : x <= 0 -> roundReal x <= 0.
Proof.
  intros Hx. replace x with (- - x) by ring. rewrite roundReal_opp.
  pose proof (roundReal_nonneg (- x) ltac:(lra)). lra.
Qed.

(** Evaluating a rounding: [x] lies in the binade of exponent [e] and
    closer to [m * 2^e] than half a unit in the last place. *)
Lemma roundReal_at (x : R) (m e : Z) :
  (emin <= e)%Z ->
  bpow (e + 52) <= Rabs x < bpow (e + 53) ->
  Rabs (x - IZR m * bpow e) < bpow e / 2 ->
  roundReal x = IZR m * bpow e.
Proof.
  intros He Hx Hm.
  assert (Hmag : mag x = (e + 53)%Z).
  { apply mag_unique. now replace (e + 53 - 1)%Z with (e + 52)%Z by lia. }
  assert (Hx0 : x <> 0).
  { intros ->. rewrite Rabs_R0 in Hx. pose proof (bpow_pos (e + 52)). lra. }
  rewrite roundReal_nonzero, Hmag by assumption.
  replace (fexp (e + 53)) with e by (unfold fexp, prec; lia).
  pose proof (bpow_pos e) as Hb. f_equal. f_equal. apply nearestEven_eq.
  replace (x / bpow e - IZR m) with ((x - IZR m * bpow e) / bpow e) by (field; lra).
  unfold Rdiv. rewrite Rabs_mult, Rabs_inv, (Rabs_right (bpow e)) by lra.
  apply (Rmult_lt_reg_r (bpow e)); [assumption|].
  rewrite Rmult_assoc, Rinv_l by lra. lra.
Qed.

(** The same at a tie: [x] is half a unit above [m * 2^e] with [m] even. *)
Lemma roundReal_tie (x : R) (m e : Z) :
  (emin <= e)%Z ->
  bpow (e + 52) <= Rabs x < bpow (e + 53) ->
  x = IZR m * bpow e + bpow e / 2 -> Z.even m = true ->
  roundReal x = IZR m * bpow e.
Proof.
  intros He Hx Hm Hev.
  assert (Hmag : mag x = (e + 53)%Z).
  { apply mag_unique. now replace (e + 53 - 1)%Z with (e + 52)%Z by lia. }
  assert (Hx0 : x <> 0).
  { intros H0. rewrite H0, Rabs_R0 in Hx. pose proof (bpow_pos (e + 52)). lra. }
  rewrite roundReal_nonzero, Hmag by assumption.
  replace (fexp (e + 53)) with e by (unfold fexp, prec; lia).
  pose proof (bpow_pos e) as Hb. f_equal. f_equal.
  replace (x / bpow e) with (IZR m + / 2) by (rewrite Hm; field; lra).
  now apply nearestEven_tie.
Qed.

(** ** The Number value *)

Lemma round_finite (x : R) : Rabs (roundReal x) < bpow emax -> round x = Fin (roundReal x).
Proof. intros H. unfold round. now rewrite Rltb_true. Qed.

Lemma round_cases (x : R) :
  round x = Fin (roundReal x) \/ (round x = PInf /\ 0 < x) \/ (round x = NInf /\ x < 0).
Proof.
  unfold round. unfold Rltb.
  destruct (Rlt_dec (Rabs (roundReal x)) (bpow emax)) as [H | H]; [now left | right].
  pose proof (bpow_pos emax) as Hb.
  destruct (Rlt_dec (roundReal x) 0) as [Hneg | Hpos].
  - right. split; [reflexivity|].
    destruct (Rlt_le_dec x 0); [assumption|].
    pose proof (roundReal_nonneg x ltac:(lra)). lra.
  - left. split; [reflexivity|].
    destruct (Rlt_le_dec 0 x); [assumption|].
    pose proof (roundReal_nonpos x ltac:(lra)).
    assert (roundReal x = 0) by lra. rewrite H1, Rabs_R0 in H. lra.
Qed.

Lemma round_Fin_inv (x r : R) : round x = Fin r -> r = roundReal x /\ Rabs r < bpow emax.
Proof.
  unfold round, Rltb.
  destruct (Rlt_dec (Rabs (roundReal x)) (bpow emax)) as [H | H].
  - intros [= <-]. now split.
  - destruct (Rlt_dec (roundReal x) 0); discriminate.
Qed.

Lemma round_idempotent (x r : R) : round x = Fin r -> round r = Fin r.
Proof.
  intros H. apply round_Fin_inv in H. destruct H as [-> Hb].
  rewrite round_finite; rewrite roundReal_idempotent; [reflexivity | assumption].
Qed.

(** Below [2^1023] in magnitude a number rounds to a finite Number, within
    the relative error [2^-53] (up to [2^-1075]). *)
Lemma round_error (x : R) :
  Rabs x <= bpow 1023 ->
  exists r : R, round x = Fin r /\ Rabs (r - x) <= u * Rabs x + eta.
Proof.
  intros Hx. exists (roundReal x). pose proof (roundReal_error x) as He.
  split; [| assumption]. apply round_finite.
  assert (Hr : Rabs (roundReal x) <= Rabs x + (u * Rabs x + eta)).
  { replace (roundReal x) with (x + (roundReal x - x)) by ring.
    eapply Rle_trans; [apply Rabs_triang|]. lra. }
  assert (Hu : u <= / 4).
  { unfold u. apply Rle_trans with (bpow (-2)); [apply bpow_le; lia|].
    unfold bpow, powerRZ. simpl. lra. }
  assert (Heta : eta <= bpow 1023 / 4).
  { unfold eta. apply Rle_trans with (bpow 1021); [apply bpow_le; lia|].
    replace 1023%Z with (1021 + 1 + 1)%Z by lia. rewrite !bpow_succ.
    pose proof (bpow_pos 1021). lra. }
  unfold emax. replace 1024%Z with (1023 + 1)%Z by lia. rewrite bpow_succ.
  pose proof (bpow_pos 1023). pose proof (Rabs_pos x). nra.
Qed.

Lemma round_0 : round 0 = Fin 0.
Proof.
  rewrite round_finite; rewrite roundReal_0; [reflexivity|].
  rewrite Rabs_R0. apply bpow_pos.
Qed.

Lemma round_IZR (k : Z) : (Z.abs k <= 2 ^ 53)%Z -> round (IZR k) = Fin (IZR k).
Proof.
  intros Hk. rewrite round_finite; rewrite roundReal_IZR by assumption; [reflexivity|].
  rewrite <- abs_IZR. apply Rle_lt_trans with (IZR (2 ^ 53)); [now apply IZR_le|].
  rewrite <- bpow_nonneg_IZR by lia. apply bpow_lt. unfold emax. lia.
Qed.

End B64Format.

(** ** Binary64: evaluating an operation *)

Section Binary64Evaluation.

Import B64.

Lemma bpow_neg_IZR (k : Z) : (0 <= k)%Z -> bpow (- k) = / IZR (2 ^ k).
Proof.
  intros Hk. rewrite <- bpow_nonneg_IZR by assumption.
  pose proof (bpow_pos k) as Hp.
  apply (Rmult_eq_reg_r (bpow k)); [| lra].
  rewrite <- bpow_add, Rinv_l by lra. replace (- k + k)%Z with 0%Z by lia. reflexivity.
Qed.

End Binary64Evaluation.

(** Powers of two with a literal exponent, as numerals. *)
Ltac bpow_num :=
  repeat match goal with
  | |- context [B64.bpow ?e] =>
      let e' := eval vm_compute in e in
      lazymatch e' with
      | Z0 => change (B64.bpow e) with 1
      | Zpos ?p =>
          let v := eval vm_compute in (2 ^ e')%Z in
          replace (B64.bpow e) with (IZR v)
            by (symmetry; exact (bpow_nonneg_IZR e' ltac:(lia) <: B64.bpow e = IZR v))
      | Zneg ?p =>
          let v := eval vm_compute in (2 ^ (Zpos p))%Z in
          replace (B64.bpow e) with (/ IZR v)
            by (symmetry; exact (bpow_neg_IZR (Zpos p) ltac:(lia) <: B64.bpow e = / IZR v))
      end
  end.

(** [round x] for a literal [x], given the significand and the exponent. *)
Ltac round_at m e :=
  rewrite (round_finite _);
  [ rewrite (roundReal_at _ m e);
    [ | unfold B64.emin; lia
      | bpow_num; split; [| apply Rabs_def1]; try (rewrite Rabs_right by lra); try (rewrite Rabs_left by lra); lra
      | bpow_num; apply Rabs_def1; lra ]
  | rewrite (roundReal_at _ m e);
    [ unfold B64.emax; bpow_num; apply Rabs_def1; lra
    | unfold B64.emin; lia
    | bpow_num; split; [| apply Rabs_def1]; try (rewrite Rabs_right by lra); try (rewrite Rabs_left by lra); lra
    | bpow_num; apply Rabs_def1; lra ] ].

(** The same at a tie. *)
Ltac round_tie m e :=
  rewrite (round_finite _);
  [ rewrite (roundReal_tie _ m e);
    [ | unfold B64.emin; lia
      | bpow_num; split; [| apply Rabs_def1]; try (rewrite Rabs_right by lra); try (rewrite Rabs_left by lra); lra
      | bpow_num; lra
      | reflexivity ]
  | rewrite (roundReal_tie _ m e);
    [ unfold B64.emax; bpow_num; apply Rabs_def1; lra
    | unfold B64.emin; lia
    | bpow_num; split; [| apply Rabs_def1]; try (rewrite Rabs_right by lra); try (rewrite Rabs_left by lra); lra
    | bpow_num; lra
    | reflexivity ] ].

Section Literals.

Import B64.

Lemma lit_60_1 : Binary64.lit 60.1 = Fin (IZR 8458323050155213 * bpow (-47)).
Proof. unfold Binary64.lit. round_at 8458323050155213%Z (-47)%Z. reflexivity. Qed.

End Literals.

(** ** Binary64: pressure compensation *)

Section CompensationBinary64.

Import B64.

Lemma lit_14_7 : Binary64.lit 14.7 = Fin (IZR 8275364315293286 * bpow (-49)).
Proof. unfold Binary64.lit. round_at 8275364315293286%Z (-49)%Z. reflexivity. Qed.

Lemma lit_0_1 : Binary64.lit 0.1 = Fin (IZR 7205759403792794 * bpow (-56)).
Proof. unfold Binary64.lit. round_at 7205759403792794%Z (-56)%Z. reflexivity. Qed.

Lemma lit_273_15 : Binary64.lit 273.15 = Fin (IZR 4805305618032230 * bpow (-44)).
Proof. unfold Binary64.lit. round_at 4805305618032230%Z (-44)%Z. reflexivity. Qed.

(** 20 degrees Celsius are 293.15 K, as a Number. *)
Lemma C_to_K_20 : Binary64.C_to_K (Fin 20) = Fin (IZR 5157149338920550 * bpow (-44)).
Proof.
  unfold Binary64.C_to_K. rewrite lit_273_15. cbn [Binary64.add].
  round_at 5157149338920550%Z (-44)%Z. reflexivity.
Qed.

Lemma div_self (T : R) : T <> 0 -> Binary64.div (Fin T) (Fin T) = Fin 1.
Proof.
  intros HT. cbn [Binary64.div]. rewrite Reqb_false by assumption.
  replace (T / T) with (IZR 1) by (field; assumption). apply round_IZR. lia.
Qed.

Lemma mul_one_r (s x : R) : round x = Fin s -> Binary64.mul (Fin s) (Fin 1) = Fin s.
Proof. intros H. cbn [Binary64.mul]. rewrite Rmult_1_r. eapply round_idempotent, H. Qed.

Lemma bpow_1021_1023 : 4 * bpow 1021 = bpow 1023.
Proof.
  replace 1023%Z with (1021 + 1 + 1)%Z by lia. rewrite !bpow_succ. ring.
Qed.

(** The sum of gauge and ambient pressure, and the gauge pressure read back
    from it, with the rounding errors of the two operations. *)
Lemma gauge_read_back (g amb : R) :
  Rabs (g + amb) <= bpow 1021 -> Rabs amb <= bpow 1021 ->
  exists s r : R,
    round (g + amb) = Fin s /\ round (s - amb) = Fin r
    /\ Rabs (r - g) <= bpow (-52) * (Rabs g + Rabs (g + amb)) + bpow (-1073).
Proof.
  intros Hs Ha. pose proof bpow_1021_1023 as H23. pose proof (bpow_pos 1021) as Hp.
  pose proof u_pos as Hu. pose proof eta_pos as He.
  assert (Hu4 : u <= / 4).
  { unfold u. apply Rle_trans with (bpow (-2)); [apply bpow_le; lia|].
    unfold bpow, powerRZ. simpl. lra. }
  assert (Heta : eta <= bpow 1021 / 4).
  { unfold eta. apply Rle_trans with (bpow 1019); [apply bpow_le; lia|].
    replace 1021%Z with (1019 + 1 + 1)%Z by lia. rewrite !bpow_succ.
    pose proof (bpow_pos 1019). lra. }
  destruct (round_error (g + amb) ltac:(lra)) as (s & Hrs & Hes).
  assert (Hsb : Rabs (s - (g + amb)) <= u * bpow 1021 + eta).
  { eapply Rle_trans; [exact Hes|]. apply Rplus_le_compat_r. apply Rmult_le_compat_l; lra. }
  assert (Hsa : Rabs (s - amb) <= bpow 1023).
  { replace (s - amb) with ((s - (g + amb)) + (g + amb) + - amb) by ring.
    eapply Rle_trans; [apply Rabs_triang|].
    eapply Rle_trans; [apply Rplus_le_compat_r, Rabs_triang|].
    rewrite Rabs_Ropp. nra. }
  destruct (round_error (s - amb) Hsa) as (r & Hrr & Her).
  exists s, r. repeat split; try assumption.
  assert (Hsg : Rabs (s - amb) <= Rabs g + Rabs (s - (g + amb))).
  { replace (s - amb) with (g + (s - (g + amb))) by ring. apply Rabs_triang. }
  replace (r - g) with ((r - (s - amb)) + (s - (g + amb))) by ring.
  eapply Rle_trans; [apply Rabs_triang|].
  change (bpow (-52)) with (bpow (-53 + 1)). change (bpow (-1073)) with (bpow (-1075 + 1 + 1)).
  rewrite !bpow_succ. fold u eta.
  pose proof (Rabs_pos g). pose proof (Rabs_pos (g + amb)).
  pose proof (Rabs_pos (s - (g + amb))). pose proof (Rabs_pos (s - amb)).
  nra.
Qed.

(** C6, amended.  In absolute-constant mode the result does not depend on
    the two temperatures and is the gauge reference up to the rounding of
    the sum and of the difference. *)
Theorem compensatePressurePsi_absolute_constant_rounded (gaugePsiRef ambientPressurePsi : R) :
  Rabs (gaugePsiRef + ambientPressurePsi) <= bpow 1021 ->
  Rabs ambientPressurePsi <= bpow 1021 ->
  exists r : R,
    (forall refTempC ambientTempC : num,
        Binary64.compensatePressurePsi (Fin gaugePsiRef) refTempC ambientTempC
          (Fin ambientPressurePsi) true = Fin r)
    /\ Rabs (r - gaugePsiRef)
       <= bpow (-52) * (Rabs gaugePsiRef + Rabs (gaugePsiRef + ambientPressurePsi))
          + bpow (-1073).
Proof.
  intros Hs Ha. destruct (gauge_read_back _ _ Hs Ha) as (s & r & Hrs & Hrr & Hb).
  exists r. split; [| exact Hb].
  intros tr ta. unfold Binary64.compensatePressurePsi. cbn [Binary64.add].
  rewrite Hrs. cbn [Binary64.sub]. exact Hrr.
Qed.

(** C5, amended.  In gauge-constant mode at an ambient temperature equal
    to the reference temperature (whose Kelvin value is finite and not 0) the
    scaling factor is exactly 1 and the result is that of absolute-constant
    mode: the gauge reference up to the rounding of the sum and of the
    difference. *)
Theorem compensatePressurePsi_same_temperature_rounded
    (gaugePsiRef refTempC ambientPressurePsi T : R) :
  Binary64.C_to_K (Fin refTempC) = Fin T -> T <> 0 ->
  Rabs (gaugePsiRef + ambientPressurePsi) <= bpow 1021 ->
  Rabs ambientPressurePsi <= bpow 1021 ->
  exists r : R,
    Binary64.compensatePressurePsi (Fin gaugePsiRef) (Fin refTempC) (Fin refTempC)
      (Fin ambientPressurePsi) false = Fin r
    /\ Binary64.compensatePressurePsi (Fin gaugePsiRef) (Fin refTempC) (Fin refTempC)
         (Fin ambientPressurePsi) true = Fin r
    /\ Rabs (r - gaugePsiRef)
       <= bpow (-52) * (Rabs gaugePsiRef + Rabs (gaugePsiRef + ambientPressurePsi))
          + bpow (-1073).
Proof.
  intros HT HT0 Hs Ha. destruct (gauge_read_back _ _ Hs Ha) as (s & r & Hrs & Hrr & Hb).
  exists r. unfold Binary64.compensatePressurePsi. rewrite HT.
  cbn [Binary64.add]. rewrite Hrs, div_self by assumption.
  rewrite (mul_one_r s _ Hrs). cbn [Binary64.sub]. repeat split; assumption.
Qed.

Lemma bpow_1021_large : 1000 <= bpow 1021.
Proof.
  apply Rle_trans with (bpow 10); [| apply bpow_le; lia].
  unfold bpow, powerRZ. simpl. lra.
Qed.

(** A reference of 60.1 PSI at 20 degrees under an ambient pressure of
    14.7 PSI. *)
Lemma compensatePressurePsi_same_temperature_rounded_witness :
  exists r : R,
    Binary64.compensatePressurePsi (Fin 60.1) (Fin 20) (Fin 20) (Fin 14.7) false = Fin r
    /\ Binary64.compensatePressurePsi (Fin 60.1) (Fin 20) (Fin 20) (Fin 14.7) true = Fin r
    /\ Rabs (r - 60.1) <= bpow (-52) * (Rabs 60.1 + Rabs (60.1 + 14.7)) + bpow (-1073).
Proof.
  pose proof bpow_1021_large as Hl.
  apply (compensatePressurePsi_same_temperature_rounded 60.1 20 14.7
           (IZR 5157149338920550 * bpow (-44))).
  - exact C_to_K_20.
  - bpow_num. lra.
  - rewrite Rabs_right by lra. lra.
  - rewrite Rabs_right by lra. lra.
Defined.

(** The same reference and ambient pressure in absolute-constant mode. *)
Lemma compensatePressurePsi_absolute_constant_rounded_witness :
  exists r : R,
    (forall refTempC ambientTempC : num,
        Binary64.compensatePressurePsi (Fin 60.1) refTempC ambientTempC (Fin 14.7) true = Fin r)
    /\ Rabs (r - 60.1) <= bpow (-52) * (Rabs 60.1 + Rabs (60.1 + 14.7)) + bpow (-1073).
Proof.
  pose proof bpow_1021_large as Hl.
  apply (compensatePressurePsi_absolute_constant_rounded 60.1 14.7).
  - rewrite Rabs_right by lra. lra.
  - rewrite Rabs_right by lra. lra.
Defined.

(** C5 as stated fails: with the Numbers 60.1, 20 and 14.7 the sum
    60.1 + 14.7 is rounded to 74.8, the factor is 1, and 74.8 - 14.7 is
    rounded to 60.099999999999994, the Number below 60.1. *)
Lemma compensatePressurePsi_same_temperature_inexact :
  Binary64.compensatePressurePsi (Binary64.lit 60.1) (Fin 20) (Fin 20) (Binary64.lit 14.7) false
  = Fin (IZR 8458323050155212 * bpow (-47))
  /\ Binary64.lit 60.1 = Fin (IZR 8458323050155213 * bpow (-47)).
Proof.
  split; [| exact lit_60_1].
  unfold Binary64.compensatePressurePsi. rewrite C_to_K_20, lit_60_1, lit_14_7.
  rewrite div_self by (bpow_num; lra).
  assert (Hs : round (IZR 8458323050155213 * bpow (-47) + IZR 8275364315293286 * bpow (-49))
               = Fin (IZR 5263582064489267 * bpow (-46))).
  { round_at 5263582064489267%Z (-46)%Z. reflexivity. }
  cbn [Binary64.add]. rewrite Hs, (mul_one_r _ _ Hs). cbn [Binary64.sub].
  round_tie 8458323050155212%Z (-47)%Z. reflexivity.
Qed.

(** C6 as stated fails: with the Numbers 0.1 and 14.7 the sum is rounded to
    14.799999999999999 and the difference is 0.09999999999999964, not 0.1;
    and under an infinite ambient pressure the result is [NaN]. *)
Lemma compensatePressurePsi_absolute_constant_inexact :
  Binary64.compensatePressurePsi (Binary64.lit 0.1) (Fin 20) (Fin 20) (Binary64.lit 14.7) true
  = Fin (IZR 7205759403792768 * bpow (-56))
  /\ Binary64.lit 0.1 = Fin (IZR 7205759403792794 * bpow (-56))
  /\ Binary64.compensatePressurePsi (Fin 60) (Fin 20) (Fin 20) PInf true = NaN.
Proof.
  split; [| split; [exact lit_0_1 | reflexivity]].
  unfold Binary64.compensatePressurePsi. rewrite lit_0_1, lit_14_7.
  assert (Hs : round (IZR 7205759403792794 * bpow (-56) + IZR 8275364315293286 * bpow (-49))
               = Fin (IZR 8331659310635417 * bpow (-49))).
  { round_at 8331659310635417%Z (-49)%Z. reflexivity. }
  cbn [Binary64.add]. rewrite Hs. cbn [Binary64.sub].
  round_at 7205759403792768%Z (-56)%Z. reflexivity.
Qed.

End CompensationBinary64.

(** ** Binary64: the lattice loop *)

Section LatticeBinary64.

Import B64 Wind.

Variables (wf ws pen : num) (allowed : option (list (num * num))).

(** While the loop variable is a multiple [k * 2^-57] with [k <= 2^53], so
    is the next one: the sum is exact below [2^-4], and at [2^-4] the step is
    half a unit in the last place and the tie goes back to [2^-4]. *)
Lemma add_tiny_step (k : Z) :
  (0 <= k <= 2 ^ 53)%Z ->
  exists k' : Z,
    (0 <= k' <= 2 ^ 53)%Z
    /\ Binary64.add (Fin (IZR k * bpow (-57))) (Fin (bpow (-57))) = Fin (IZR k' * bpow (-57)).
Proof.
  intros Hk. cbn [Binary64.add].
  destruct (Z_lt_le_dec k (2 ^ 53)) as [Hlt | Hge].
  - exists (k + 1)%Z. split; [lia|].
    replace (IZR k * bpow (-57) + bpow (-57)) with (IZR (k + 1) * bpow (-57))
      by (rewrite plus_IZR; ring).
    rewrite round_finite; rewrite roundReal_representable_le; try reflexivity;
      try (unfold emin; lia); try lia.
    pose proof (bpow_pos (-57)) as Hp.
    rewrite Rabs_mult, (Rabs_right (bpow (-57))), <- abs_IZR by lra.
    apply Rle_lt_trans with (IZR (2 ^ 53) * bpow (-57)).
    + apply Rmult_le_compat_r; [lra|]. apply IZR_le. lia.
    + rewrite <- bpow_nonneg_IZR, <- bpow_add by lia. apply bpow_lt. unfold emax. lia.
  - exists (2 ^ 53)%Z. split; [lia|]. assert (k = 2 ^ 53)%Z by lia. subst k.
    replace (IZR (2 ^ 53) * bpow (-57)) with (IZR (2 ^ 52) * bpow (-56))
      by (change (-56)%Z with (-57 + 1)%Z; rewrite bpow_succ;
          change (2 ^ 53)%Z with (2 * 2 ^ 52)%Z; rewrite mult_IZR; ring).
    round_tie (2 ^ 52)%Z (-56)%Z. reflexivity.
Qed.

Lemma tiny_multiple_below_360 (k : Z) : (0 <= k <= 2 ^ 53)%Z -> IZR k * bpow (-57) < 360.
Proof.
  intros Hk. pose proof (bpow_pos (-57)) as Hp.
  apply Rle_lt_trans with (IZR (2 ^ 53) * bpow (-57)).
  - apply Rmult_le_compat_r; [lra|]. apply IZR_le. lia.
  - bpow_num. lra.
Qed.

(** With a step of [2^-57] the loop variable never leaves [0, 2^-4]: no
    amount of fuel lets the loop finish. *)
Lemma lattice_tiny_step_diverges :
  forall (fuel : nat) (k : Z) (cands : list Recommendation),
    (0 <= k <= 2 ^ 53)%Z ->
    Binary64Wind.lattice fuel wf ws (Fin (bpow (-57))) pen allowed
      (Fin (IZR k * bpow (-57))) cands = None.
Proof.
  induction fuel as [| fuel IH]; intros k cands Hk; [reflexivity|].
  cbn [Binary64Wind.lattice Num.lt].
  rewrite Rltb_true by now apply tiny_multiple_below_360.
  destruct (add_tiny_step k Hk) as (k' & Hk' & ->). now apply IH.
Qed.

(** A step that is zero or negative never lets the loop variable rise
    above 0. *)
Lemma lattice_nonpositive_step_diverges (res : num) :
  (res <=? Fin 0)%num = true ->
  forall (fuel : nat) (h : num) (cands : list Recommendation),
    (h <=? Fin 0)%num = true ->
    Binary64Wind.lattice fuel wf ws res pen allowed h cands = None.
Proof.
  intros Hres. induction fuel as [| fuel IH]; intros h cands Hh; [reflexivity|].
  cbn [Binary64Wind.lattice].
  assert (Hlt : (h <? Fin 360)%num = true).
  { destruct h as [x | | |]; cbn in Hh |- *; try discriminate; try reflexivity.
    apply Rltb_true. unfold Rltb in Hh. destruct (Rlt_dec 0 x); [discriminate | lra]. }
  rewrite Hlt. apply IH.
  destruct h as [x | | |], res as [r | | |]; cbn in Hh, Hres |- *;
    try discriminate; try reflexivity.
  assert (Hx : x <= 0) by (unfold Rltb in Hh; destruct (Rlt_dec 0 x); [discriminate | lra]).
  assert (Hr : r <= 0) by (unfold Rltb in Hres; destruct (Rlt_dec 0 r); [discriminate | lra]).
  destruct (round_cases (x + r)) as [-> | [[-> H0] | [-> H0]]]; [| lra | reflexivity].
  cbn. rewrite Rltb_false; [reflexivity|]. apply roundReal_nonpos. lra.
Qed.

(** A step of at least [2^-20] degrees survives the rounding of the sum: the
    loop variable grows by at least half the step. *)
Lemma add_step_progress (x r : R) :
  0 <= x < 360 -> bpow (-20) <= r ->
  Binary64.add (Fin x) (Fin r) = PInf
  \/ exists x' : R, Binary64.add (Fin x) (Fin r) = Fin x' /\ x + r / 2 <= x'.
Proof.
  intros Hx Hr. cbn [Binary64.add].
  assert (Hr0 : 0 < r) by (pose proof (bpow_pos (-20)); lra).
  destruct (round_cases (x + r)) as [-> | [[-> _] | [_ H0]]]; [| now left | lra].
  right. eexists. split; [reflexivity|].
  pose proof (roundReal_error (x + r)) as He.
  rewrite (Rabs_right (x + r)) in He by lra.
  apply Rabs_le_bounds in He. destruct He as [He _].
  assert (Hu : u * 360 <= r / 8).
  { unfold u. assert (bpow (-53) * 360 <= bpow (-20) / 8) by (bpow_num; lra). lra. }
  assert (Hu' : u <= / 8) by (unfold u; bpow_num; lra).
  assert (Heta : eta <= r / 8).
  { unfold eta. assert (bpow (-1075) <= bpow (-23)) by (apply bpow_le; lia).
    assert (bpow (-23) = bpow (-20) / 8) by (bpow_num; lra). lra. }
  pose proof u_pos. nra.
Qed.

Lemma lattice_length_step (fuel : nat) (res : num) :
  forall (h : num) (acc out : list Recommendation),
    Binary64Wind.lattice fuel wf ws res pen allowed h acc = Some out ->
    (List.length out <= List.length acc + fuel)%nat.
Proof.
  induction fuel as [| fuel IH]; intros h acc out Hrun; [discriminate|].
  cbn [Binary64Wind.lattice] in Hrun. destruct (h <? Fin 360)%num.
  - apply IH in Hrun. destruct (negb _); [lia|]. rewrite length_app in Hrun. cbn in Hrun. lia.
  - injection Hrun as <-. lia.
Qed.

(** With a step of at least [2^-20], [n] iterations suffice once
    [360 - x <= n * (r / 2)], and no more than [n] candidates are added. *)
Lemma lattice_terminates_rounded (r : R) :
  bpow (-20) <= r ->
  forall (n : nat) (x : R) (acc : list Recommendation),
    0 <= x -> 360 - x <= INR n * (r / 2) ->
    forall fuel : nat, (n < fuel)%nat ->
      exists out,
        Binary64Wind.lattice fuel wf ws (Fin r) pen allowed (Fin x) acc = Some out
        /\ (List.length out <= List.length acc + n)%nat.
Proof.
  intros Hr. assert (Hr0 : 0 < r) by (pose proof (bpow_pos (-20)); lra).
  induction n as [| n IH]; intros x acc Hx Hn fuel Hfuel.
  - destruct fuel as [| fuel]; [lia|]. exists acc. cbn [Binary64Wind.lattice Num.lt].
    rewrite Rltb_false by (cbn in Hn; lra). split; [reflexivity | lia].
  - destruct fuel as [| fuel]; [lia|]. cbn [Binary64Wind.lattice Num.lt].
    unfold Rltb. destruct (Rlt_dec x 360) as [Hlt | Hge]; [| exists acc; split; [reflexivity | lia]].
    set (acc' := if negb (Binary64Wind.inIntervals (Fin x) allowed) then acc
                 else acc ++ [Binary64Wind.candidate wf ws pen (Fin x)]).
    assert (Hacc : (List.length acc' <= List.length acc + 1)%nat).
    { unfold acc'. destruct (negb _); [lia|]. rewrite length_app. cbn. lia. }
    destruct (add_step_progress x r ltac:(lra) Hr) as [-> | (x' & -> & Hx')].
    + destruct fuel as [| fuel]; [lia|]. exists acc'. cbn [Binary64Wind.lattice Num.lt].
      split; [reflexivity | lia].
    + destruct (IH x' acc' ltac:(lra)) with (fuel := fuel) as (out & Hout & Hlen); [| lia |].
      * rewrite S_INR in Hn. lra.
      * exists out. split; [exact Hout | lia].
Qed.

End LatticeBinary64.

Section RecommendHeadingsBinary64.

Import B64 Wind.

Lemma iterations_bound (r : R) :
  bpow (-20) <= r ->
  exists n : nat, (Z.of_nat n < 2 ^ 32 - 1)%Z /\ 360 - 0 <= INR n * (r / 2).
Proof.
  intros Hr. assert (Hb : bpow (-20) = / 1048576) by (bpow_num; reflexivity).
  assert (Hr0 : 0 < r) by lra.
  pose proof (Zceil_bound (720 / r)) as [Hlo Hhi].
  assert (Hq : 0 < 720 / r <= 754974720).
  { split; [apply Rdiv_lt_0_compat; lra|].
    apply (Rmult_le_reg_r r); [assumption|].
    unfold Rdiv. rewrite Rmult_assoc, Rinv_l by lra. lra. }
  assert (Hz : (0 <= Zceil (720 / r) <= 754974720)%Z).
  { split.
    - apply le_IZR. lra.
    - apply Z.lt_succ_r. apply lt_IZR. rewrite succ_IZR. lra. }
  exists (Z.to_nat (Zceil (720 / r))). rewrite Z2Nat.id by lia. split; [lia|].
  rewrite INR_IZR_INZ, Z2Nat.id by lia.
  apply (Rmult_le_compat_r (r / 2)) in Hhi; [| lra].
  replace (720 / r * (r / 2)) with 360 in Hhi by (field; lra). lra.
Qed.

(** C10, amended.  [recommendHeadings] returns when the resolution is at
    least [2^-20] degrees (about one millionth) or [+Infinity]: each
    iteration then raises the loop variable by at least half the step, and
    fewer than [2^32 - 1] candidates are built; and it never returns when the
    resolution is zero or negative. *)
Theorem recommendHeadings_terminates_rounded (windFromDeg windSpeed : num)
    (opts : RecommendOptions) :
  (forall r : R,
      orDefault (resolutionDeg opts) (Fin 5) = Fin r -> bpow (-20) <= r ->
      exists n : nat,
        (Z.of_nat n < 2 ^ 32 - 1)%Z
        /\ forall fuel : nat, (n < fuel)%nat ->
             exists cands out : list Recommendation,
               Binary64Wind.lattice fuel windFromDeg windSpeed (Fin r)
                 (orDefault (crosswindPenalty opts) (Binary64.lit 0.4))
                 (allowedHeadings opts) (Fin 0) [] = Some cands
               /\ (List.length cands <= n)%nat
               /\ Binary64Wind.recommendHeadings fuel windFromDeg windSpeed opts = Some out)
  /\ (orDefault (resolutionDeg opts) (Fin 5) = PInf ->
      forall fuel : nat, (2 <= fuel)%nat ->
        exists out, Binary64Wind.recommendHeadings fuel windFromDeg windSpeed opts = Some out)
  /\ ((orDefault (resolutionDeg opts) (Fin 5) <=? Fin 0)%num = true ->
      forall fuel : nat,
        Binary64Wind.recommendHeadings fuel windFromDeg windSpeed opts = None).
Proof.
  split; [| split].
  - intros r Hres Hr. destruct (iterations_bound r Hr) as (n & Hn & Hsteps).
    exists n. split; [exact Hn|]. intros fuel Hfuel.
    destruct (lattice_terminates_rounded windFromDeg windSpeed
                (orDefault (crosswindPenalty opts) (Binary64.lit 0.4)) (allowedHeadings opts)
                r Hr n 0 [] ltac:(lra) Hsteps fuel Hfuel) as (cands & Hrun & Hlen).
    exists cands. eexists. split; [exact Hrun|]. split; [exact Hlen|].
    unfold Binary64Wind.recommendHeadings. rewrite Hres, Hrun. reflexivity.
  - intros Hres fuel Hfuel. unfold Binary64Wind.recommendHeadings. rewrite Hres.
    destruct fuel as [| [| fuel]]; [lia | lia |].
    cbn [Binary64Wind.lattice Num.lt Binary64.add Num.add].
    rewrite Rltb_true by lra. eexists. reflexivity.
  - intros Hres fuel. unfold Binary64Wind.recommendHeadings.
    rewrite lattice_nonpositive_step_diverges; [reflexivity | assumption |].
    apply le_Fin_true. lra.
Qed.

(** The default options: a resolution of 5 degrees. *)
Lemma recommendHeadings_terminates_rounded_witness :
  exists n : nat,
    (Z.of_nat n < 2 ^ 32 - 1)%Z
    /\ forall fuel : nat, (n < fuel)%nat ->
         exists cands out : list Recommendation,
           Binary64Wind.lattice fuel (Fin 270) (Fin 12) (Fin 5)
             (orDefault (crosswindPenalty noOptions) (Binary64.lit 0.4))
             (allowedHeadings noOptions) (Fin 0) [] = Some cands
           /\ (List.length cands <= n)%nat
           /\ Binary64Wind.recommendHeadings fuel (Fin 270) (Fin 12) noOptions = Some out.
Proof.
  apply (proj1 (recommendHeadings_terminates_rounded (Fin 270) (Fin 12) noOptions) 5).
  - reflexivity.
  - bpow_num. lra.
Defined.

(** C10 as stated fails: a resolution of [2^-57] degrees is strictly
    positive, but the loop variable, which the additions bring exactly to
    [2^-4] = 0.0625, stays there, since [0.0625 + 2^-57] is rounded back to
    0.0625; no heading below 350 being allowed, no candidate is built either,
    and the call never returns. *)
Lemma recommendHeadings_tiny_step_never_returns :
  Binary64.add (Fin (bpow (-4))) (Fin (bpow (-57))) = Fin (bpow (-4))
  /\ forall fuel : nat,
       Binary64Wind.recommendHeadings fuel (Fin 270) (Fin 12) tinyStep = None.
Proof.
  split.
  - cbn [Binary64.add].
    replace (bpow (-4)) with (IZR (2 ^ 52) * bpow (-56)) by (bpow_num; lra).
    round_tie (2 ^ 52)%Z (-56)%Z. reflexivity.
  - intros fuel. unfold Binary64Wind.recommendHeadings.
    cbn [tinyStep resolutionDeg crosswindPenalty allowedHeadings orDefault].
    replace 0 with (IZR 0 * bpow (-57)) by ring.
    rewrite lattice_tiny_step_diverges; [reflexivity | lia].
Qed.

End RecommendHeadingsBinary64.

(** ** Binary64: angles *)

Section PiBounds.

Import B64.

Lemma PI_lower : 3.14159265358979313 <= PI.
Proof.
  pose proof (PI_2_3_7_ineq 8) as [Hlo _].
  unfold sum_f_R0, tg_alt, PI_2_3_7_tg, Ratan_seq in Hlo. simpl in Hlo. lra.
Qed.

Lemma PI_upper : PI <= 3.14159265358979333.
Proof.
  pose proof (PI_2_3_7_ineq 9) as [_ Hhi].
  unfold sum_f_R0, tg_alt, PI_2_3_7_tg, Ratan_seq in Hhi. simpl in Hhi. lra.
Qed.

(** [Math.PI] lies below pi, by more than [2^-56] and less than [2^-52]. *)
Lemma piNumber_below : piNumber + bpow (-56) <= PI.
Proof. pose proof PI_lower. unfold piNumber. bpow_num. lra. Qed.

Lemma piNumber_error : Rabs (piNumber - PI) <= 2 * u.
Proof.
  pose proof PI_lower. pose proof PI_upper. unfold piNumber, u.
  apply Rabs_le. bpow_num. lra.
Qed.

Lemma piNumber_range : 3 < piNumber < 3.2.
Proof. unfold piNumber. bpow_num. lra. Qed.

End PiBounds.

Section Lipschitz.

Lemma Rabs_sin_le (x : R) : Rabs (sin x) <= Rabs x.
Proof.
  assert (Hpos : forall y, 0 <= y -> Rabs (sin y) <= y).
  { intros y Hy. destruct (Rle_lt_dec y 1) as [H1 | H1].
    - destruct Hy as [Hy | <-]; [| rewrite sin_0, Rabs_R0; lra].
      pose proof (sin_lt_x y Hy).
      assert (0 < sin y).
      { apply sin_gt_0; [assumption|]. pose proof PI_lower. lra. }
      rewrite Rabs_right; lra.
    - pose proof (SIN_bound y). apply Rabs_le. lra. }
  destruct (Rle_lt_dec 0 x) as [Hx | Hx].
  - rewrite (Rabs_right x) by lra. now apply Hpos.
  - rewrite (Rabs_left x) by assumption.
    replace (sin x) with (- sin (- x)) by (rewrite sin_neg; ring).
    rewrite Rabs_Ropp. apply Hpos. lra.
Qed.

Lemma cos_Lipschitz (a b : R) : Rabs (cos a - cos b) <= Rabs (a - b).
Proof.
  rewrite form2. rewrite !Rabs_mult.
  replace (Rabs (-2)) with 2 by (rewrite Rabs_left; lra).
  pose proof (Rabs_sin_le ((a - b) / 2)) as H1.
  pose proof (SIN_bound ((a + b) / 2)) as H2.
  assert (H3 : Rabs (sin ((a + b) / 2)) <= 1) by (apply Rabs_le; lra).
  replace (Rabs ((a - b) / 2)) with (Rabs (a - b) / 2) in H1
    by (unfold Rdiv; rewrite Rabs_mult, (Rabs_right (/ 2)); lra).
  pose proof (Rabs_pos (sin ((a - b) / 2))). pose proof (Rabs_pos (sin ((a + b) / 2))).
  nra.
Qed.

Lemma sin_Lipschitz (a b : R) : Rabs (sin a - sin b) <= Rabs (a - b).
Proof.
  rewrite form4. rewrite !Rabs_mult.
  replace (Rabs 2) with 2 by (rewrite Rabs_right; lra).
  pose proof (Rabs_sin_le ((a - b) / 2)) as H1.
  pose proof (COS_bound ((a + b) / 2)) as H2.
  assert (H3 : Rabs (cos ((a + b) / 2)) <= 1) by (apply Rabs_le; lra).
  replace (Rabs ((a - b) / 2)) with (Rabs (a - b) / 2) in H1
    by (unfold Rdiv; rewrite Rabs_mult, (Rabs_right (/ 2)); lra).
  pose proof (Rabs_pos (sin ((a - b) / 2))). pose proof (Rabs_pos (cos ((a + b) / 2))).
  nra.
Qed.

End Lipschitz.

Section RoundedAngles.

Import B64.

(** Rounding a number bounded by [B]. *)
Lemma round_bounded (x B : R) :
  Rabs x <= B -> B <= bpow 1023 ->
  exists r : R, round x = Fin r /\ Rabs (r - x) <= u * B + eta /\ Rabs r <= B + (u * B + eta).
Proof.
  intros Hx HB. destruct (round_error x ltac:(lra)) as (r & Hr & He).
  pose proof u_pos. pose proof (Rabs_pos x).
  assert (He' : Rabs (r - x) <= u * B + eta) by nra.
  exists r. repeat split; try assumption.
  replace r with (x + (r - x)) by ring.
  eapply Rle_trans; [apply Rabs_triang|]. lra.
Qed.

Lemma bpow_1023_large : 16777216 <= bpow 1023.
Proof.
  apply Rle_trans with (bpow 24); [| apply bpow_le; lia]. bpow_num. lra.
Qed.

Lemma u_val : u = / 9007199254740992.
Proof. unfold u. bpow_num. reflexivity. Qed.

Lemma eta_small : eta <= u * u.
Proof.
  unfold eta, u. rewrite <- bpow_add. apply bpow_le. lia.
Qed.

Lemma near_refl (a : R) : near 0 a a.
Proof. exists 0%Z. rewrite Rabs_right; lra. Qed.

Lemma near_step (e1 e2 a b c : R) : near e1 a b -> Rabs (c - a) <= e2 -> near (e1 + e2) c b.
Proof.
  intros [k Hk] Hc. exists k.
  replace (c - b - 360 * IZR k) with ((a - b - 360 * IZR k) + (c - a)) by ring.
  eapply Rle_trans; [apply Rabs_triang|]. lra.
Qed.

Lemma near_turns (e a b : R) (k : Z) : near e a b -> near e (a - 360 * IZR k) b.
Proof.
  intros [k0 Hk]. exists (k0 - k)%Z. rewrite minus_IZR.
  replace (a - 360 * IZR k - b - 360 * (IZR k0 - IZR k)) with (a - b - 360 * IZR k0) by ring.
  exact Hk.
Qed.

Lemma near_trans (e1 e2 a b c : R) : near e1 a b -> near e2 b c -> near (e1 + e2) a c.
Proof.
  intros [k1 H1] [k2 H2]. exists (k1 + k2)%Z. rewrite plus_IZR.
  replace (a - c - 360 * (IZR k1 + IZR k2))
    with ((a - b - 360 * IZR k1) + (b - c - 360 * IZR k2)) by ring.
  eapply Rle_trans; [apply Rabs_triang|]. lra.
Qed.

Lemma near_weaken (e1 e2 a b : R) : near e1 a b -> e1 <= e2 -> near e2 a b.
Proof. intros [k Hk] He. exists k. lra. Qed.

Lemma near_sub (e1 e2 a a' b b' : R) :
  near e1 a a' -> near e2 b b' -> near (e1 + e2) (a - b) (a' - b').
Proof.
  intros [k1 H1] [k2 H2]. exists (k1 - k2)%Z. rewrite minus_IZR.
  replace (a - b - (a' - b') - 360 * (IZR k1 - IZR k2))
    with ((a - a' - 360 * IZR k1) + - (b - b' - 360 * IZR k2)) by ring.
  eapply Rle_trans; [apply Rabs_triang|]. rewrite Rabs_Ropp. lra.
Qed.

Lemma near_rem (x : R) : near 0 (Rrem x 360) x.
Proof.
  destruct (Rrem_congruent 360 x) as [k ->]. exists (- k)%Z. rewrite opp_IZR.
  replace (x - 360 * IZR k - x - 360 * - IZR k) with 0 by ring. rewrite Rabs_R0. lra.
Qed.

(** [clampDeg] on a finite Number: a Number in [0, 360) that is the angle,
    within the rounding of one addition. *)
Lemma clampDeg_near (x : R) :
  exists c : R,
    Binary64Wind.clampDeg (Fin x) = Fin c /\ 0 <= c < 360 /\ near (720 * u + eta) c x.
Proof.
  unfold Binary64Wind.clampDeg. rewrite (rem_Fin 360) by lra. cbn [Binary64.add].
  pose proof (Rrem_range 360 ltac:(lra) x) as Hr.
  pose proof bpow_1023_large as HL. pose proof u_pos as Hu. pose proof eta_pos as He.
  pose proof u_val as Hus.
  destruct (round_bounded (Rrem x 360 + 360) 720) as (y & Hy & Hey & _).
  { rewrite Rabs_right; lra. }
  { lra. }
  rewrite Hy. rewrite (rem_Fin 360) by lra.
  assert (Hy0 : 0 <= y).
  { apply round_Fin_inv in Hy. destruct Hy as [-> _]. apply roundReal_nonneg. lra. }
  exists (Rrem y 360). split; [reflexivity|]. split.
  - rewrite Rrem_nonneg by lra. apply Rfmod_range. lra.
  - apply (near_weaken (0 + (0 + (720 * u + eta)))); [| lra].
    eapply near_trans; [apply near_rem|].
    eapply near_step with (a := Rrem x 360 + 360).
    + destruct (near_rem x) as [k Hk]. exists (k + 1)%Z. rewrite plus_IZR.
      replace (Rrem x 360 + 360 - x - 360 * (IZR k + 1)) with (Rrem x 360 - x - 360 * IZR k)
        by ring.
      exact Hk.
    + nra.
Qed.

End RoundedAngles.

Section WindBinary64.

Import B64.

Lemma eta_val : eta <= / 1267650600228229401496703205376.
Proof.
  unfold eta. apply Rle_trans with (bpow (-100)); [apply bpow_le; lia|]. bpow_num. lra.
Qed.

Lemma near_add (e a b c : R) : near e a b -> near e (a + c) (b + c).
Proof.
  intros [k Hk]. exists k.
  replace (a + c - (b + c) - 360 * IZR k) with (a - b - 360 * IZR k) by ring. exact Hk.
Qed.

Lemma near_turns_r (e a b : R) (k : Z) : near e a (b + 360 * IZR k) -> near e a b.
Proof.
  intros [k0 Hk]. exists (k0 + k)%Z. rewrite plus_IZR.
  replace (a - b - 360 * (IZR k0 + IZR k)) with (a - (b + 360 * IZR k) - 360 * IZR k0) by ring.
  exact Hk.
Qed.

(** [angleDiff] on finite Numbers: a Number of magnitude at most 181 that is
    the difference of the angles, within the rounding of five additions. *)
Lemma angleDiff_near (a b : R) :
  exists d : R,
    Binary64Wind.angleDiff (Fin a) (Fin b) = Fin d
    /\ Rabs d <= 181 /\ near (2881 * u + 5 * eta) d (a - b).
Proof.
  pose proof bpow_1023_large as HL. pose proof u_pos as Hu. pose proof eta_pos as He.
  pose proof u_val as Hus. pose proof eta_val as Hes.
  unfold Binary64Wind.angleDiff.
  destruct (clampDeg_near a) as (ca & -> & Hca & Hna).
  destruct (clampDeg_near b) as (cb & -> & Hcb & Hnb).
  cbn [Binary64.sub].
  destruct (round_bounded (ca - cb) 360) as (d & -> & Hed & Hd).
  { apply Rabs_le. lra. } { lra. }
  cbn [Binary64.add].
  assert (Hd' : -361 <= d <= 361) by (apply Rabs_le_bounds in Hd; lra).
  destruct (round_bounded (d + 540) 901) as (w & Hw & Hew & _).
  { apply Rabs_le. lra. } { lra. }
  rewrite Hw. rewrite (rem_Fin 360) by lra.
  assert (Hw0 : 0 <= w).
  { apply round_Fin_inv in Hw. destruct Hw as [-> _]. apply roundReal_nonneg. lra. }
  pose proof (Rfmod_range 360 ltac:(lra) w) as Hm.
  rewrite Rrem_nonneg by lra. cbn [Binary64.sub].
  destruct (round_bounded (Rfmod w 360 - 180) 180) as (r & -> & Her & Hr).
  { apply Rabs_le. lra. } { lra. }
  exists r. split; [reflexivity|]. split; [lra|].
  apply (near_weaken ((720 * u + eta) + (720 * u + eta) + (u * 360 + eta) + (u * 901 + eta)
                      + 0 + (u * 180 + eta))); [| lra].
  eapply near_step; [| exact Her].
  apply near_turns_r with (k := 1%Z).
  replace (a - b + 360 * 1) with (a - b + 540 + - 180) by ring.
  apply near_add.
  rewrite <- (Rrem_nonneg 360 ltac:(lra) w) by lra.
  replace ((720 * u + eta) + (720 * u + eta) + (u * 360 + eta) + (u * 901 + eta) + 0)
    with (0 + ((720 * u + eta) + (720 * u + eta) + (u * 360 + eta) + (u * 901 + eta))) by ring.
  eapply near_trans; [apply near_rem|].
  eapply near_step; [| exact Hew].
  apply near_add.
  eapply near_step; [| exact Hed].
  now apply near_sub.
Qed.

(** [toRad] on a Number of magnitude at most 181. *)
Lemma toRad_near (d : R) :
  Rabs d <= 181 ->
  exists q : R,
    Binary64Wind.toRad (Fin d) = Fin q /\ Rabs (q - d * PI / 180) <= 10 * u + 2 * eta.
Proof.
  intros Hd. pose proof bpow_1023_large as HL. pose proof u_pos as Hu. pose proof eta_pos as He.
  pose proof u_val as Hus. pose proof eta_val as Hes.
  pose proof piNumber_range as Hp. pose proof piNumber_error as Hpe.
  unfold Binary64Wind.toRad, Binary64Wind.MathPI. fold piNumber. cbn [Binary64.mul].
  assert (Hdp : Rabs (d * piNumber) <= 580).
  { rewrite Rabs_mult, (Rabs_right piNumber) by lra. pose proof (Rabs_pos d). nra. }
  destruct (round_bounded (d * piNumber) 580 Hdp ltac:(lra)) as (p & -> & Hep & Hpb).
  cbn [Binary64.div]. rewrite Reqb_false by lra.
  assert (Hp180 : Rabs (p / 180) <= 4).
  { unfold Rdiv. rewrite Rabs_mult, (Rabs_right (/ 180)) by lra. lra. }
  destruct (round_bounded (p / 180) 4 Hp180 ltac:(lra)) as (q & -> & Heq & _).
  exists q. split; [reflexivity|].
  replace (q - d * PI / 180)
    with ((q - p / 180) + (p - d * piNumber) / 180 + d * (piNumber - PI) / 180) by field.
  eapply Rle_trans; [apply Rabs_triang|].
  eapply Rle_trans; [apply Rplus_le_compat_r, Rabs_triang|].
  assert (H2 : Rabs ((p - d * piNumber) / 180) <= (u * 580 + eta) / 180).
  { unfold Rdiv. rewrite Rabs_mult, (Rabs_right (/ 180)) by lra.
    apply Rmult_le_compat_r; lra. }
  assert (H3 : Rabs (d * (piNumber - PI) / 180) <= 181 * (2 * u) / 180).
  { unfold Rdiv. rewrite !Rabs_mult, (Rabs_right (/ 180)) by lra.
    apply Rmult_le_compat_r; [lra|].
    pose proof (Rabs_pos d). pose proof (Rabs_pos (piNumber - PI)). nra. }
  lra.
Qed.

Lemma cos_rounded (x : R) :
  exists c : R,
    Binary64Wind.cos (Fin x) = Fin c /\ Rabs (c - cos x) <= u + eta /\ Rabs c <= 2.
Proof.
  pose proof bpow_1023_large as HL. pose proof u_val as Hus. pose proof eta_val as Hes.
  pose proof eta_pos. pose proof (COS_bound x) as Hb. cbn [Binary64Wind.cos].
  destruct (round_bounded (cos x) 1) as (c & -> & He & Hc).
  { apply Rabs_le. lra. } { lra. }
  exists c. repeat split; lra.
Qed.

Lemma sin_rounded (x : R) :
  exists s : R,
    Binary64Wind.sin (Fin x) = Fin s /\ Rabs (s - sin x) <= u + eta /\ Rabs s <= 2.
Proof.
  pose proof bpow_1023_large as HL. pose proof u_val as Hus. pose proof eta_val as Hes.
  pose proof eta_pos. pose proof (SIN_bound x) as Hb. cbn [Binary64Wind.sin].
  destruct (round_bounded (sin x) 1) as (c & -> & He & Hc).
  { apply Rabs_le. lra. } { lra. }
  exists c. repeat split; lra.
Qed.

(** The product of the wind speed and a rounded cosine or sine. *)
Lemma speed_times (ws c c0 e : R) :
  Rabs ws <= bpow 1000 -> Rabs c <= 2 -> Rabs (c - c0) <= e ->
  exists t : R,
    Binary64.mul (Fin ws) (Fin c) = Fin t
    /\ Rabs (t - ws * c0) <= (e + 2 * u) * Rabs ws + eta.
Proof.
  intros Hws Hc Hce. cbn [Binary64.mul].
  pose proof (Rabs_pos ws) as Hw0. pose proof (Rabs_pos c) as Hc0. pose proof u_pos as Hu.
  assert (Hprod : Rabs (ws * c) <= bpow 1023).
  { rewrite Rabs_mult. apply Rle_trans with (bpow 1000 * 2); [nra|].
    replace 1023%Z with (1000 + 23)%Z by lia. rewrite bpow_add.
    assert (2 <= bpow 23) by (bpow_num; lra). pose proof (bpow_pos 1000). nra. }
  destruct (round_error (ws * c) Hprod) as (t & -> & Het).
  exists t. split; [reflexivity|].
  replace (t - ws * c0) with ((t - ws * c) + ws * (c - c0)) by ring.
  eapply Rle_trans; [apply Rabs_triang|].
  rewrite Rabs_mult in Het. rewrite (Rabs_mult ws (c - c0)).
  pose proof (Rabs_pos (c - c0)).
  assert (H1 : Rabs ws * Rabs c <= 2 * Rabs ws) by nra.
  assert (H2 : u * (Rabs ws * Rabs c) <= u * (2 * Rabs ws))
    by (apply Rmult_le_compat_l; lra).
  assert (H3 : Rabs ws * Rabs (c - c0) <= Rabs ws * e)
    by (apply Rmult_le_compat_l; lra).
  lra.
Qed.

Lemma pi_degree : PI / 180 <= / 50.
Proof. pose proof PI_upper. lra. Qed.

(** The cosine and sine of a rounded angle in radians against those of the
    exact angle in degrees it is near to. *)
Lemma cos_near (q d D e eq : R) :
  near e d D -> Rabs (q - d * PI / 180) <= eq -> 0 <= e ->
  Rabs (cos q - cos (D * PI / 180)) <= e / 50 + eq.
Proof.
  intros [k Hk] Hq He. rewrite <- (cos_deg_turns D k).
  eapply Rle_trans; [apply cos_Lipschitz|].
  replace (q - (D + 360 * IZR k) * PI / 180)
    with ((q - d * PI / 180) + (d - D - 360 * IZR k) * (PI / 180)) by field.
  eapply Rle_trans; [apply Rabs_triang|].
  rewrite Rabs_mult, (Rabs_right (PI / 180)) by (pose proof PI_lower; lra).
  pose proof pi_degree. pose proof (Rabs_pos (d - D - 360 * IZR k)).
  pose proof PI_lower. nra.
Qed.

Lemma sin_near (q d D e eq : R) :
  near e d D -> Rabs (q - d * PI / 180) <= eq -> 0 <= e ->
  Rabs (sin q - sin (D * PI / 180)) <= e / 50 + eq.
Proof.
  intros [k Hk] Hq He. rewrite <- (sin_deg_turns D k).
  eapply Rle_trans; [apply sin_Lipschitz|].
  replace (q - (D + 360 * IZR k) * PI / 180)
    with ((q - d * PI / 180) + (d - D - 360 * IZR k) * (PI / 180)) by field.
  eapply Rle_trans; [apply Rabs_triang|].
  rewrite Rabs_mult, (Rabs_right (PI / 180)) by (pose proof PI_lower; lra).
  pose proof pi_degree. pose proof (Rabs_pos (d - D - 360 * IZR k)).
  pose proof PI_lower. nra.
Qed.

End WindBinary64.

(** ** Binary64: the two wind decompositions *)

Section WindAgreement.

Import B64.

Lemma near_step_r (e1 e2 a b b' : R) : near e1 a b -> Rabs (b - b') <= e2 -> near (e1 + e2) a b'.
Proof.
  intros [k Hk] Hb. exists k.
  replace (a - b' - 360 * IZR k) with ((a - b - 360 * IZR k) + (b - b')) by ring.
  eapply Rle_trans; [apply Rabs_triang|]. lra.
Qed.

Lemma bpow_m38 : bpow (-38) = 32768 * u.
Proof. unfold u. bpow_num. lra. Qed.

Lemma bpow_m36 : bpow (-36) = 131072 * u.
Proof. unfold u. bpow_num. lra. Qed.

Lemma bpow_m35 : bpow (-35) = bpow (-36) + bpow (-36).
Proof. bpow_num. lra. Qed.

Lemma bpow_m1074 : bpow (-1074) = eta + eta.
Proof. unfold eta. change (-1074)%Z with (-1075 + 1)%Z. rewrite bpow_succ. ring. Qed.

(** The angle of [scoreHeading], in radians, against the exact one. *)
Lemma scoreHeading_angle (wf h : R) :
  Rabs wf <= 1048576 -> Rabs h <= 1048576 ->
  exists cw q : R,
    Binary64Wind.clampDeg (Binary64.add (Fin wf) (Fin 180)) = Fin cw
    /\ Binary64Wind.toRad (Binary64Wind.angleDiff (Fin h) (Fin cw)) = Fin q
    /\ Rabs (cos q - - cos (windAngle wf h)) <= 21058 * u + 3 * eta
    /\ Rabs (sin q - sin (windAngle wf h)) <= 21058 * u + 3 * eta.
Proof.
  intros Hwf Hh. pose proof bpow_1023_large as HL. pose proof u_pos as Hu.
  pose proof eta_pos as He. pose proof u_val as Hus. pose proof eta_val as Hes.
  cbn [Binary64.add].
  apply Rabs_le_bounds in Hwf.
  destruct (round_bounded (wf + 180) 1048756) as (t1 & -> & Het & _).
  { apply Rabs_le. lra. } { lra. }
  destruct (clampDeg_near t1) as (cw & Hcw & _ & Hncw).
  destruct (angleDiff_near h cw) as (d & Hd & Hdb & Hnd).
  destruct (toRad_near d Hdb) as (q & Hq & Heq).
  exists cw, q. rewrite Hd. split; [exact Hcw|]. split; [exact Hq|].
  assert (Hnear : near (1052357 * u + 7 * eta) d (h - (wf + 180))).
  { apply (near_weaken ((2881 * u + 5 * eta) + (0 + (720 * u + eta)) + (u * 1048756 + eta)));
      [| lra].
    eapply near_step_r with (b := h - t1).
    - eapply near_trans; [exact Hnd|]. apply near_sub; [apply near_refl | exact Hncw].
    - replace (h - t1 - (h - (wf + 180))) with (- (t1 - (wf + 180))) by ring.
      now rewrite Rabs_Ropp. }
  assert (HA : (h - (wf + 180)) * PI / 180 = - (windAngle wf h + PI))
    by (unfold windAngle; field).
  split.
  - replace (- cos (windAngle wf h)) with (cos ((h - (wf + 180)) * PI / 180))
      by (rewrite HA, cos_neg, neg_cos; reflexivity).
    eapply Rle_trans; [apply (cos_near q d _ _ _ Hnear Heq); lra|]. lra.
  - replace (sin (windAngle wf h)) with (sin ((h - (wf + 180)) * PI / 180))
      by (rewrite HA, sin_neg, neg_sin; ring).
    eapply Rle_trans; [apply (sin_near q d _ _ _ Hnear Heq); lra|]. lra.
Qed.


(** The angle of [windComponents], in radians, against the exact one. *)
Lemma windComponents_angle (wf h : R) :
  Rabs wf <= 1048576 -> Rabs h <= 1048576 ->
  exists alpha : R,
    Binary64.mul
      (Num.rem (Binary64.add (Binary64.sub (Fin wf) (Fin h)) (Fin 360)) (Fin 360))
      (Binary64.div Binary64Wind.MathPI (Fin 180)) = Fin alpha
    /\ Rabs (cos alpha - cos (windAngle wf h)) <= 83914 * u + 362 * eta
    /\ Rabs (sin alpha - sin (windAngle wf h)) <= 83914 * u + 362 * eta.
Proof.
  intros Hwf Hh. pose proof bpow_1023_large as HL. pose proof u_pos as Hu.
  pose proof eta_pos as He. pose proof u_val as Hus. pose proof eta_val as Hes.
  pose proof piNumber_range as Hp. pose proof piNumber_error as Hpe.
  apply Rabs_le_bounds in Hwf. apply Rabs_le_bounds in Hh.
  cbn [Binary64.sub].
  destruct (round_bounded (wf - h) 2097152) as (x1 & -> & He1 & Hx1).
  { apply Rabs_le. lra. } { lra. }
  cbn [Binary64.add]. apply Rabs_le_bounds in Hx1.
  destruct (round_bounded (x1 + 360) 2097513) as (x2 & -> & He2 & _).
  { apply Rabs_le. lra. } { lra. }
  rewrite (rem_Fin 360) by lra.
  pose proof (Rrem_range 360 ltac:(lra) x2) as Ha. set (a := Rrem x2 360) in *.
  unfold Binary64Wind.MathPI. fold piNumber. cbn [Binary64.div]. rewrite Reqb_false by lra.
  destruct (round_bounded (piNumber / 180) (/ 50)) as (k & -> & Hek & Hk).
  { apply Rabs_le. lra. } { lra. }
  cbn [Binary64.mul]. apply Rabs_le_bounds in Hk.
  assert (Hak : Rabs (a * k) <= 8).
  { rewrite Rabs_mult. assert (Rabs a <= 360) by (apply Rabs_le; lra).
    assert (Rabs k <= / 45) by (apply Rabs_le; lra).
    pose proof (Rabs_pos a). pose proof (Rabs_pos k). nra. }
  destruct (round_bounded (a * k) 8 Hak ltac:(lra)) as (alpha & -> & Hea & _).
  exists alpha. split; [reflexivity|].
  assert (Hnear : near (4194665 * u + 2 * eta) a (wf - h)).
  { apply (near_weaken (0 + ((0 + (u * 2097152 + eta)) + (u * 2097513 + eta)))); [| lra].
    eapply near_trans; [apply near_rem|].
    eapply near_step; [| exact He2].
    apply near_turns_r with (k := 1%Z).
    replace (wf - h + 360 * 1) with (wf - h + 360) by ring. apply near_add.
    eapply near_step; [apply near_refl|]. exact He1. }
  assert (Heq : Rabs (alpha - a * PI / 180) <= 20 * u + 361 * eta).
  { replace (alpha - a * PI / 180)
      with ((alpha - a * k) + a * (k - piNumber / 180) + a * (piNumber - PI) / 180) by field.
    eapply Rle_trans; [apply Rabs_triang|].
    eapply Rle_trans; [apply Rplus_le_compat_r, Rabs_triang|].
    assert (Habs : Rabs a <= 360) by (apply Rabs_le; lra).
    assert (H2 : Rabs (a * (k - piNumber / 180)) <= 360 * (u * / 50 + eta)).
    { rewrite Rabs_mult. pose proof (Rabs_pos a). pose proof (Rabs_pos (k - piNumber / 180)).
      nra. }
    assert (H3 : Rabs (a * (piNumber - PI) / 180) <= 360 * (2 * u) / 180).
    { unfold Rdiv. rewrite !Rabs_mult, (Rabs_right (/ 180)) by lra.
      apply Rmult_le_compat_r; [lra|].
      pose proof (Rabs_pos a). pose proof (Rabs_pos (piNumber - PI)). nra. }
    lra. }
  unfold windAngle. split.
  - eapply Rle_trans; [apply (cos_near alpha a _ _ _ Hnear Heq); lra|]. lra.
  - eapply Rle_trans; [apply (sin_near alpha a _ _ _ Hnear Heq); lra|]. lra.
Qed.

Lemma Rabs_sub_le (x y z e1 e2 : R) :
  Rabs (x - y) <= e1 -> Rabs (y - z) <= e2 -> Rabs (x - z) <= e1 + e2.
Proof.
  intros H1 H2. replace (x - z) with ((x - y) + (y - z)) by ring.
  eapply Rle_trans; [apply Rabs_triang|]. lra.
Qed.

(** C7, amended.  For directions within [2^20] degrees and a finite speed,
    [windComponents] agrees with [scoreHeading] up to rounding: the signed
    headwind is the negated tail component and the crosswind is the cross
    component within [2^-35] of the wind speed (and [2^-1074]), and the wind
    is classified as a tailwind or a headwind by the sign of the tail
    component whenever that component exceeds the tolerance. *)
Theorem windComponents_agrees_with_scoreHeading_rounded
    (windFromDeg headingDeg windSpeed : R) (crosswindPenalty : option num) :
  Rabs windFromDeg <= 1048576 -> Rabs headingDeg <= 1048576 ->
  Rabs windSpeed <= bpow 1000 ->
  exists tail cross signed cw : R,
    Scored.tailComponent
      (Binary64Wind.scoreHeading (Fin windFromDeg) (Fin windSpeed) (Fin headingDeg)
         crosswindPenalty) = Fin tail
    /\ Scored.crossComponent
         (Binary64Wind.scoreHeading (Fin windFromDeg) (Fin windSpeed) (Fin headingDeg)
            crosswindPenalty) = Fin cross
    /\ Binary64Wind.headwindSigned (Fin windFromDeg) (Fin headingDeg) (Fin windSpeed)
       = Fin signed
    /\ headwind (Binary64Wind.windComponents (Fin windFromDeg) (Fin headingDeg) (Fin windSpeed))
       = Fin (Rabs signed)
    /\ crosswind (Binary64Wind.windComponents (Fin windFromDeg) (Fin headingDeg) (Fin windSpeed))
       = Fin cw
    /\ Rabs (signed + tail) <= agreementTolerance windSpeed
    /\ Rabs (Rabs signed - Rabs tail) <= agreementTolerance windSpeed
    /\ Rabs (cw - cross) <= agreementTolerance windSpeed
    /\ (agreementTolerance windSpeed < tail ->
        headOrTail (Binary64Wind.windComponents (Fin windFromDeg) (Fin headingDeg)
                      (Fin windSpeed)) = "tailwind"%string)
    /\ (tail < - agreementTolerance windSpeed ->
        headOrTail (Binary64Wind.windComponents (Fin windFromDeg) (Fin headingDeg)
                      (Fin windSpeed)) = "headwind"%string).
Proof.
  intros Hwf Hh Hws. pose proof u_pos as Hu. pose proof eta_pos as He.
  pose proof u_val as Hus. pose proof eta_val as Hes. pose proof (Rabs_pos windSpeed) as Hw0.
  set (A := windAngle windFromDeg headingDeg).
  destruct (scoreHeading_angle windFromDeg headingDeg Hwf Hh) as (cwd & q & Hcw & Hq & Hcq & Hsq).
  destruct (cos_rounded q) as (c & Hc & Hec & Hcb).
  destruct (sin_rounded q) as (s & Hs & Hes' & Hsb).
  destruct (speed_times windSpeed c (- cos A) (21059 * u + 4 * eta) Hws Hcb)
    as (tail & Htail & Hetail).
  { replace (21059 * u + 4 * eta) with ((u + eta) + (21058 * u + 3 * eta)) by ring.
    eapply Rabs_sub_le; eassumption. }
  destruct (speed_times windSpeed s (sin A) (21059 * u + 4 * eta) Hws Hsb)
    as (x & Hx & Hex).
  { replace (21059 * u + 4 * eta) with ((u + eta) + (21058 * u + 3 * eta)) by ring.
    eapply Rabs_sub_le; eassumption. }
  destruct (windComponents_angle windFromDeg headingDeg Hwf Hh) as (alpha & Halpha & Hca & Hsa).
  destruct (cos_rounded alpha) as (c' & Hc' & Hec' & Hcb').
  destruct (sin_rounded alpha) as (s' & Hs' & Hes'' & Hsb').
  destruct (speed_times windSpeed c' (cos A) (83915 * u + 363 * eta) Hws Hcb')
    as (signed & Hsigned & Hesigned).
  { replace (83915 * u + 363 * eta) with ((u + eta) + (83914 * u + 362 * eta)) by ring.
    eapply Rabs_sub_le; eassumption. }
  destruct (speed_times windSpeed s' (sin A) (83915 * u + 363 * eta) Hws Hsb')
    as (y & Hy & Hey).
  { replace (83915 * u + 363 * eta) with ((u + eta) + (83914 * u + 362 * eta)) by ring.
    eapply Rabs_sub_le; eassumption. }
  assert (Htol : (21059 * u + 4 * eta + 2 * u) * Rabs windSpeed + eta
                 + ((83915 * u + 363 * eta + 2 * u) * Rabs windSpeed + eta)
                 <= agreementTolerance windSpeed).
  { unfold agreementTolerance. rewrite bpow_m35, bpow_m36, bpow_m1074. nra. }
  assert (Hst : Rabs (signed + tail) <= agreementTolerance windSpeed).
  { replace (signed + tail)
      with ((signed - windSpeed * cos A) + (tail - windSpeed * - cos A)) by ring.
    eapply Rle_trans; [apply Rabs_triang|]. lra. }
  assert (Hsigned' : Binary64Wind.headwindSigned (Fin windFromDeg) (Fin headingDeg)
                       (Fin windSpeed) = Fin signed).
  { unfold Binary64Wind.headwindSigned. now rewrite Halpha, Hc'. }
  exists tail, (Rabs x), signed, (Rabs y).
  unfold Binary64Wind.scoreHeading. cbn [Scored.tailComponent Scored.crossComponent].
  rewrite Hcw, Hq, Hc, Hs, Htail, Hx.
  unfold Binary64Wind.windComponents. cbn [headwind crosswind headOrTail].
  rewrite Halpha, Hc', Hs', Hsigned, Hy. cbn [Num.abs].
  repeat split; try reflexivity; try assumption.
  - replace (Rabs tail) with (Rabs (- tail)) by apply Rabs_Ropp.
    eapply Rle_trans; [apply Rabs_triang_inv2|].
    replace (signed - - tail) with (signed + tail) by ring. exact Hst.
  - eapply Rle_trans; [apply Rabs_triang_inv2|].
    replace (y - x) with ((y - windSpeed * sin A) + - (x - windSpeed * sin A)) by ring.
    eapply Rle_trans; [apply Rabs_triang|]. rewrite Rabs_Ropp. lra.
  - intros Ht. apply Rabs_le_bounds in Hst.
    cbn [Num.ge Num.le Num.lt]. rewrite Rltb_true by lra. reflexivity.
  - intros Ht. apply Rabs_le_bounds in Hst.
    cbn [Num.ge Num.le Num.lt]. rewrite Rltb_false by lra. reflexivity.
Qed.

End WindAgreement.

Section Crosswind.

Import B64.

Lemma Rrem_IZR (n : Z) : (0 <= n)%Z -> Rrem (IZR n) 360 = IZR (n mod 360).
Proof.
  intros Hn. rewrite Rrem_nonneg; [| lra | now apply IZR_le].
  apply (Rfmod_IZR n 360). lia.
Qed.

(** On a whole number of degrees within a turn [clampDeg] is exact. *)
Lemma clampDeg_whole (k : Z) :
  (0 <= k < 360)%Z -> Binary64Wind.clampDeg (Fin (IZR k)) = Fin (IZR k).
Proof.
  intros Hk. unfold Binary64Wind.clampDeg. rewrite (rem_Fin 360) by lra.
  rewrite Rrem_IZR by lia. rewrite Z.mod_small by lia. cbn [Binary64.add].
  rewrite <- plus_IZR, round_IZR by lia. rewrite (rem_Fin 360) by lra.
  rewrite Rrem_IZR by lia. f_equal. f_equal.
  rewrite <- (Z.mod_small k 360) at 2 by lia.
  replace (k + 360)%Z with (k + 1 * 360)%Z by lia. apply Z.mod_add. lia.
Qed.

(** A quarter turn in radians, by either conversion, is half of
    [Math.PI]. *)
Lemma toRad_90 : Binary64Wind.toRad (Fin 90) = Fin (piNumber / 2).
Proof.
  unfold Binary64Wind.toRad, Binary64Wind.MathPI. cbn [Binary64.mul].
  assert (H1 : round (90 * (IZR 884279719003555 * bpow (-48)))
               = Fin (IZR 4974073419394997 * bpow (-44))).
  { round_at 4974073419394997%Z (-44)%Z. reflexivity. }
  rewrite H1. cbn [Binary64.div]. rewrite Reqb_false by lra.
  assert (H2 : round (IZR 4974073419394997 * bpow (-44) / 180)
               = Fin (IZR 7074237752028440 * bpow (-52))).
  { round_at 7074237752028440%Z (-52)%Z. reflexivity. }
  rewrite H2. f_equal. unfold piNumber. bpow_num. lra.
Qed.

Lemma degree_times_90 :
  Binary64.mul (Fin 90) (Binary64.div Binary64Wind.MathPI (Fin 180)) = Fin (piNumber / 2).
Proof.
  unfold Binary64Wind.MathPI. cbn [Binary64.div]. rewrite Reqb_false by lra.
  assert (H1 : round (IZR 884279719003555 * bpow (-48) / 180)
               = Fin (IZR 5030569068109113 * bpow (-58))).
  { round_at 5030569068109113%Z (-58)%Z. reflexivity. }
  rewrite H1. cbn [Binary64.mul].
  assert (H2 : round (90 * (IZR 5030569068109113 * bpow (-58)))
               = Fin (IZR 7074237752028440 * bpow (-52))).
  { round_at 7074237752028440%Z (-52)%Z. reflexivity. }
  rewrite H2. f_equal. unfold piNumber. bpow_num. lra.
Qed.

(** Half of [Math.PI] lies below a quarter turn, so its cosine is positive:
    at least [2^-59]. *)
Lemma cos_half_piNumber : bpow (-59) <= cos (piNumber / 2) <= 1.
Proof.
  pose proof piNumber_below as Hlo. pose proof piNumber_error as Hhi.
  pose proof piNumber_range as Hr. pose proof u_val as Hus.
  apply Rabs_le_bounds in Hhi.
  split; [| apply COS_bound].
  set (y := PI / 2 - piNumber / 2).
  assert (H56 : bpow (-56) = 2 * bpow (-57)) by (bpow_num; lra).
  assert (Hy : bpow (-57) <= y <= u) by (unfold y; lra).
  replace (piNumber / 2) with (PI / 2 - y) by (unfold y; ring).
  rewrite cos_shift.
  assert (Hb : bpow (-57) = / 144115188075855872) by (bpow_num; reflexivity).
  assert (Hb' : bpow (-59) = / 576460752303423488) by (bpow_num; reflexivity).
  pose proof (SIN y ltac:(lra) ltac:(pose proof PI_lower; lra)) as [Hs _].
  unfold sin_lb, sin_approx, sin_term in Hs. simpl in Hs.
  assert (Hy2 : 0 <= y * y <= / 1000000) by nra.
  assert (Hy3 : 0 <= y * y * y <= y / 1000000) by nra.
  assert (Hy5 : 0 <= y * (y * (y * (y * (y * 1))))) by (repeat apply Rmult_le_pos; lra).
  assert (Hy7 : 0 <= y * (y * (y * (y * (y * (y * (y * 1)))))) <= y / 1000000).
  { split; [repeat apply Rmult_le_pos; lra|].
    assert (0 <= y * y * y * y <= / 1000000) by nra.
    replace (y * (y * (y * (y * (y * (y * (y * 1)))))))
      with ((y * y * y * y) * (y * y * y)) by ring. nra. }
  lra.
Qed.


(** A number between [2^-62] and 32 stays positive when rounded. *)
Lemma round_positive (x : R) :
  bpow (-62) <= x <= 32 ->
  exists r : R, round x = Fin r /\ x / 4 <= r <= 2 * x.
Proof.
  intros Hx. pose proof u_val as Hus. pose proof eta_val as Hes. pose proof eta_pos as He.
  assert (H62 : bpow (-62) = / 4611686018427387904) by (bpow_num; reflexivity).
  pose proof bpow_1023_large as HL.
  destruct (round_error x) as (r & Hr & Her).
  { rewrite Rabs_right; lra. }
  exists r. split; [exact Hr|]. rewrite (Rabs_right x) in Her by lra.
  apply Rabs_le_bounds in Her. nra.
Qed.

(** C7 as stated fails at a pure crosswind: with the wind from 90 degrees
    and a heading of 0, both functions take the cosine of half of [Math.PI],
    which is positive; [scoreHeading] returns a strictly positive tail
    component, and [windComponents] has the same number as its signed
    headwind, not its negation, and says "headwind". *)
Lemma windComponents_disagrees_at_crosswind :
  exists tail : R,
    Scored.tailComponent (Binary64Wind.scoreHeading (Fin 90) (Fin 12) (Fin 0) None) = Fin tail
    /\ Binary64Wind.headwindSigned (Fin 90) (Fin 0) (Fin 12) = Fin tail
    /\ 0 < tail
    /\ headOrTail (Binary64Wind.windComponents (Fin 90) (Fin 0) (Fin 12)) = "headwind"%string.
Proof.
  pose proof cos_half_piNumber as Hc.
  assert (H59 : bpow (-59) = / 576460752303423488) by (bpow_num; reflexivity).
  assert (H62 : bpow (-62) = / 4611686018427387904) by (bpow_num; reflexivity).
  destruct (round_positive (cos (piNumber / 2)) ltac:(lra)) as (c & Hrc & Hcb).
  destruct (round_positive (12 * c) ltac:(lra)) as (tail & Hrt & Htb).
  assert (Hdelta : Binary64Wind.angleDiff (Fin 0) (Fin 270) = Fin 90).
  { unfold Binary64Wind.angleDiff.
    rewrite (clampDeg_whole 0), (clampDeg_whole 270) by lia.
    cbn [Binary64.sub]. replace (0 - 270) with (IZR (-270)) by lra.
    rewrite round_IZR by lia. cbn [Binary64.add].
    replace (IZR (-270) + 540) with (IZR 270) by lra. rewrite round_IZR by lia.
    rewrite (rem_Fin 360) by lra. rewrite Rrem_IZR by lia.
    cbn [Binary64.sub]. change (270 mod 360)%Z with 270%Z.
    replace (IZR 270 - 180) with (IZR 90) by lra. now rewrite round_IZR by lia. }
  assert (Hsh : Scored.tailComponent
                  (Binary64Wind.scoreHeading (Fin 90) (Fin 12) (Fin 0) None) = Fin tail).
  { unfold Binary64Wind.scoreHeading. cbn [Scored.tailComponent Binary64.add].
    replace (90 + 180) with (IZR 270) by lra. rewrite round_IZR by lia.
    rewrite (clampDeg_whole 270) by lia. rewrite Hdelta, toRad_90.
    cbn [Binary64Wind.cos]. rewrite Hrc. cbn [Binary64.mul]. exact Hrt. }
  assert (Hangle : Num.rem (Binary64.add (Binary64.sub (Fin 90) (Fin 0)) (Fin 360)) (Fin 360)
                   = Fin 90).
  { cbn [Binary64.sub]. replace (90 - 0) with (IZR 90) by lra. rewrite round_IZR by lia.
    cbn [Binary64.add]. replace (IZR 90 + 360) with (IZR 450) by lra.
    rewrite round_IZR by lia. rewrite (rem_Fin 360) by lra. rewrite Rrem_IZR by lia.
    reflexivity. }
  assert (Hhs : Binary64Wind.headwindSigned (Fin 90) (Fin 0) (Fin 12) = Fin tail).
  { unfold Binary64Wind.headwindSigned. rewrite Hangle, degree_times_90.
    cbn [Binary64Wind.cos]. rewrite Hrc. cbn [Binary64.mul]. exact Hrt. }
  exists tail. split; [exact Hsh|]. split; [exact Hhs|]. split; [lra|].
  unfold Binary64Wind.windComponents. cbn [headOrTail].
  rewrite Hangle, degree_times_90. cbn [Binary64Wind.cos]. rewrite Hrc.
  cbn [Binary64.mul]. rewrite Hrt. cbn [Num.ge Num.le Num.lt].
  rewrite Rltb_false by lra. reflexivity.
Qed.

(** The amended statement at the same crosswind. *)
Lemma windComponents_agrees_with_scoreHeading_rounded_witness :
  exists tail cross signed cw : R,
    Scored.tailComponent
      (Binary64Wind.scoreHeading (Fin 90) (Fin 12) (Fin 0) None) = Fin tail
    /\ Scored.crossComponent
         (Binary64Wind.scoreHeading (Fin 90) (Fin 12) (Fin 0) None) = Fin cross
    /\ Binary64Wind.headwindSigned (Fin 90) (Fin 0) (Fin 12) = Fin signed
    /\ headwind (Binary64Wind.windComponents (Fin 90) (Fin 0) (Fin 12)) = Fin (Rabs signed)
    /\ crosswind (Binary64Wind.windComponents (Fin 90) (Fin 0) (Fin 12)) = Fin cw
    /\ Rabs (signed + tail) <= agreementTolerance 12
    /\ Rabs (Rabs signed - Rabs tail) <= agreementTolerance 12
    /\ Rabs (cw - cross) <= agreementTolerance 12
    /\ (agreementTolerance 12 < tail ->
        headOrTail (Binary64Wind.windComponents (Fin 90) (Fin 0) (Fin 12)) = "tailwind"%string)
    /\ (tail < - agreementTolerance 12 ->
        headOrTail (Binary64Wind.windComponents (Fin 90) (Fin 0) (Fin 12)) = "headwind"%string).
Proof.
  apply (windComponents_agrees_with_scoreHeading_rounded 90 0 12 None).
  - rewrite Rabs_right; lra.
  - rewrite Rabs_R0. lra.
  - rewrite Rabs_right by lra. pose proof bpow_1023_large.
    apply Rle_trans with (bpow 4); [bpow_num; lra | apply bpow_le; lia].
Defined.

End Crosswind.

(** ** Binary64: bar and PSI *)

Section ConversionBinary64.

Import B64.

Lemma PSI_PER_BAR_value :
  exists P : R, Binary64.PSI_PER_BAR = Fin P /\ 14 <= P <= 15.
Proof.
  unfold Binary64.PSI_PER_BAR, Binary64.lit.
  destruct (round_bounded 14.5037738 14.5037738) as (P & HP & He & _).
  - rewrite Rabs_right by lra. lra.
  - pose proof bpow_1023_large. lra.
  - exists P. split; [exact HP|].
    pose proof u_val as Hu. pose proof eta_val as He'. pose proof eta_pos.
    apply Rabs_le_bounds in He. rewrite Hu in He. lra.
Qed.

(** With binary64 arithmetic, converting a pressure to bar and back gives the
    pressure up to two roundings: within [2^-51] of it, relatively (and
    [2^-1070]). *)
Theorem toBar_round_trip_rounded (psi : R) :
  Rabs psi <= bpow 1000 ->
  exists bar back : R,
    Binary64.toBar (Fin psi) = Fin bar
    /\ Binary64.mul (Fin bar) Binary64.PSI_PER_BAR = Fin back
    /\ Rabs (back - psi) <= bpow (-51) * Rabs psi + bpow (-1070).
Proof.
  intros Hpsi. destruct PSI_PER_BAR_value as (P & HP & HPr).
  unfold Binary64.toBar. rewrite HP. unfold Binary64.div.
  rewrite Reqb_false by lra.
  pose proof (Rabs_pos psi) as Hp0.
  assert (H1000 : bpow 1000 * 8388608 = bpow 1023).
  { replace 1023%Z with (1000 + 23)%Z by lia. rewrite bpow_add. f_equal.
    bpow_num. reflexivity. }
  pose proof (bpow_pos 1000) as Hb.
  pose proof (bpow_ge_1 1000 ltac:(lia)) as Hb1.
  assert (Hq : Rabs (psi / P) <= Rabs psi / 14).
  { unfold Rdiv. rewrite Rabs_mult, (Rabs_right (/ P)).
    - apply Rmult_le_compat_l; [assumption|]. apply Rinv_le_contravar; lra.
    - apply Rle_ge. left. apply Rinv_0_lt_compat. lra. }
  destruct (round_error (psi / P)) as (bar & Hbar & Ebar); [lra|].
  rewrite Hbar. exists bar. unfold Binary64.mul.
  pose proof u_val as Hu. pose proof eta_val as He. pose proof eta_pos as He0.
  assert (Hbarabs : Rabs bar <= Rabs psi / 14 * (1 + u) + eta).
  { replace bar with (psi / P + (bar - psi / P)) by ring.
    eapply Rle_trans; [apply Rabs_triang|]. nra. }
  assert (HbP : Rabs (bar * P) <= 15 * (Rabs psi / 14 * (1 + u) + eta)).
  { rewrite Rabs_mult, (Rabs_right P) by lra.
    pose proof (Rabs_pos bar). nra. }
  destruct (round_error (bar * P)) as (back & Hback & Eback); [rewrite Hu in *; lra|].
  exists back. split; [reflexivity|]. split; [exact Hback|].
  assert (Hmid : Rabs (bar * P - psi) <= 15 * (u * (Rabs psi / 14) + eta)).
  { replace (bar * P - psi) with ((bar - psi / P) * P) by (field; lra).
    rewrite Rabs_mult, (Rabs_right P) by lra.
    pose proof (Rabs_pos (bar - psi / P)). nra. }
  replace (back - psi) with ((back - bar * P) + (bar * P - psi)) by ring.
  eapply Rle_trans; [apply Rabs_triang|].
  assert (Hb51 : bpow (-51) = 4 * u) by (rewrite Hu; bpow_num; lra).
  assert (Hb1070 : bpow (-1070) = 32 * eta).
  { unfold eta. replace (-1070)%Z with (-1075 + 1 + 1 + 1 + 1 + 1)%Z by lia.
    rewrite !bpow_succ. ring. }
  rewrite Hb51, Hb1070. rewrite Hu in *. nra.
Qed.

(** At 61.7 PSI. *)
Lemma toBar_round_trip_rounded_witness :
  exists bar back : R,
    Binary64.toBar (Fin 61.7) = Fin bar
    /\ Binary64.mul (Fin bar) Binary64.PSI_PER_BAR = Fin back
    /\ Rabs (back - 61.7) <= bpow (-51) * Rabs 61.7 + bpow (-1070).
Proof.
  apply (toBar_round_trip_rounded 61.7).
  rewrite Rabs_right by lra. pose proof bpow_1021_large.
  apply Rle_trans with (bpow 20); [bpow_num; lra | apply bpow_le; lia].
Defined.

Lemma lit_61_7 : Binary64.lit 61.7 = Fin (IZR 8683503031523738 * bpow (-47)).
Proof. unfold Binary64.lit. round_at 8683503031523738%Z (-47)%Z. reflexivity. Qed.

Lemma PSI_PER_BAR_Number :
  Binary64.PSI_PER_BAR = Fin (IZR 8164898785143245 * bpow (-49)).
Proof.
  unfold Binary64.PSI_PER_BAR, Binary64.lit. round_at 8164898785143245%Z (-49)%Z.
  reflexivity.
Qed.

(** Not exactly, though: 61.7 comes back as 61.699999999999996, one unit in
    the last place below. *)
Lemma toBar_round_trip_inexact :
  Binary64.mul (Binary64.toBar (Binary64.lit 61.7)) Binary64.PSI_PER_BAR
  = Fin (IZR 8683503031523737 * bpow (-47))
  /\ Binary64.lit 61.7 = Fin (IZR 8683503031523738 * bpow (-47)).
Proof.
  split; [| exact lit_61_7].
  unfold Binary64.toBar. rewrite lit_61_7, PSI_PER_BAR_Number.
  unfold Binary64.div.
  rewrite Reqb_false by (bpow_num; lra).
  assert (Hbar : round (IZR 8683503031523738 * bpow (-47) / (IZR 8164898785143245 * bpow (-49)))
                 = Fin (IZR 4789651659638397 * bpow (-50))).
  { replace (IZR 8683503031523738 * bpow (-47) / (IZR 8164898785143245 * bpow (-49)))
      with (IZR 8683503031523738 * 4 / IZR 8164898785143245)
      by (bpow_num; field).
    round_at 4789651659638397%Z (-50)%Z. reflexivity. }
  rewrite Hbar. unfold Binary64.mul.
  round_at 8683503031523737%Z (-47)%Z. reflexivity.
Qed.

End ConversionBinary64.

(** ** Binary64: riding along the wind *)

Section AlongTheWindBinary64.

Import B64.

Lemma nearestEven_ge (y : R) (k : Z) : IZR k <= y -> (k <= nearestEven y)%Z.
Proof.
  intros Hk. pose proof (nearestEven_near y) as Hn. apply Rabs_le_bounds in Hn.
  assert (H : IZR k < IZR (nearestEven y + 1)) by (rewrite plus_IZR; lra).
  apply lt_IZR in H. lia.
Qed.

Lemma nearestEven_le (y : R) (k : Z) : y <= IZR k -> (nearestEven y <= k)%Z.
Proof.
  intros Hk. pose proof (nearestEven_near y) as Hn. apply Rabs_le_bounds in Hn.
  assert (H : IZR (nearestEven y) < IZR (k + 1)) by (rewrite plus_IZR; lra).
  apply lt_IZR in H. lia.
Qed.

(** Rounding keeps a number between two Numbers of its binade. *)
Lemma roundReal_between (x : R) (lo hi e : Z) :
  bpow (e + 52) <= Rabs x < bpow (e + 53) -> (emin <= e)%Z ->
  IZR lo * bpow e <= x <= IZR hi * bpow e ->
  IZR lo * bpow e <= roundReal x <= IZR hi * bpow e.
Proof.
  intros Hx He [Hlo Hhi].
  assert (Hmag : mag x = (e + 53)%Z).
  { apply mag_unique. now replace (e + 53 - 1)%Z with (e + 52)%Z by lia. }
  assert (Hx0 : x <> 0).
  { intros ->. rewrite Rabs_R0 in Hx. pose proof (bpow_pos (e + 52)). lra. }
  rewrite roundReal_nonzero, Hmag by assumption.
  replace (fexp (e + 53)) with e by (unfold fexp, prec; lia).
  pose proof (bpow_pos e) as Hb.
  assert (H1 : IZR lo <= x / bpow e).
  { apply (Rmult_le_reg_r (bpow e)); [assumption|].
    replace (x / bpow e * bpow e) with x by (field; lra). assumption. }
  assert (H2 : x / bpow e <= IZR hi).
  { apply (Rmult_le_reg_r (bpow e)); [assumption|].
    replace (x / bpow e * bpow e) with x by (field; lra). assumption. }
  apply nearestEven_ge, IZR_le in H1. apply nearestEven_le, IZR_le in H2.
  split; apply Rmult_le_compat_r; lra.
Qed.

(** The sum of a remainder and a full turn rounds into [360, 720]. *)
Lemma turn_added (r : R) :
  0 <= r < 360 ->
  exists y : R, round (r + 360) = Fin y /\ 360 <= y <= 720.
Proof.
  intros Hr.
  assert (Hy : 360 <= roundReal (r + 360) <= 720).
  { destruct (Rlt_le_dec (r + 360) 512) as [Hlt | Hge].
    - pose proof (roundReal_between (r + 360) 6333186975989760 9007199254740992 (-44)) as H.
      replace (IZR 6333186975989760 * bpow (-44)) with 360 in H
        by (bpow_num; lra).
      replace (IZR 9007199254740992 * bpow (-44)) with 512 in H
        by (bpow_num; lra).
      assert (360 <= roundReal (r + 360) <= 512); [| lra].
      apply H; [| unfold emin; lia | lra].
      rewrite Rabs_right by lra. cbn [Z.add Z.pos_sub Pos.pred_double]. bpow_num. lra.
    - pose proof (roundReal_between (r + 360) 4503599627370496 6333186975989760 (-43)) as H.
      replace (IZR 4503599627370496 * bpow (-43)) with 512 in H
        by (bpow_num; lra).
      replace (IZR 6333186975989760 * bpow (-43)) with 720 in H
        by (bpow_num; lra).
      assert (512 <= roundReal (r + 360) <= 720); [| lra].
      apply H; [| unfold emin; lia | lra].
      rewrite Rabs_right by lra. cbn [Z.add Z.pos_sub Pos.pred_double]. bpow_num. lra. }
  exists (roundReal (r + 360)). split; [| exact Hy].
  apply round_finite. rewrite Rabs_right by lra.
  apply Rle_lt_trans with (bpow 10); [bpow_num; lra | apply bpow_lt; unfold emax; lia].
Qed.

(** On a Number that is not negative, [clampDeg] gives a Number it leaves
    unchanged. *)
Lemma clampDeg_fixed (t : R) :
  0 <= t ->
  exists c : R,
    Binary64Wind.clampDeg (Fin t) = Fin c /\ Binary64Wind.clampDeg (Fin c) = Fin c.
Proof.
  intros Ht. unfold Binary64Wind.clampDeg. rewrite (rem_Fin 360) by lra.
  rewrite Rrem_nonneg by lra. cbn [Binary64.add].
  pose proof (Rfmod_range 360 ltac:(lra) t) as Hr.
  destruct (turn_added _ Hr) as (y & Hy & Hyr). rewrite Hy.
  rewrite (rem_Fin 360) by lra. exists (Rrem y 360). split; [reflexivity|].
  rewrite (Rrem_nonneg 360 ltac:(lra) y) by lra.
  pose proof (Rfmod_range 360 ltac:(lra) y) as Hc.
  rewrite (rem_Fin 360) by lra.
  rewrite (Rrem_nonneg 360 ltac:(lra) (Rfmod y 360)) by lra.
  rewrite (Rfmod_small 360 ltac:(lra) (Rfmod y 360)) by assumption.
  cbn [Binary64.add].
  destruct (Req_dec y 720) as [-> | Hne].
  - replace (Rfmod 720 360) with 0.
    + replace (0 + 360) with (IZR 360) by lra. rewrite round_IZR by lia.
      rewrite (rem_Fin 360) by lra. rewrite Rrem_nonneg by lra. f_equal.
      symmetry. apply (Rfmod_unique 360 ltac:(lra) 360 0 1); lra.
    + apply (Rfmod_unique 360 ltac:(lra) 720 0 2); lra.
  - assert (Hm : Rfmod y 360 = y - 360).
    { symmetry. apply (Rfmod_unique 360 ltac:(lra) y (y - 360) 1); lra. }
    rewrite Hm. replace (y - 360 + 360) with y by ring.
    rewrite (round_idempotent _ _ Hy). rewrite (rem_Fin 360) by lra.
    rewrite Rrem_nonneg by lra. now rewrite Hm.
Qed.

(** With binary64 arithmetic, riding along the direction the wind blows
    toward gives the whole wind as tailwind and no crosswind, exactly: for a
    wind direction from -180 degrees upwards, a wind speed that is a Number
    and the heading [windFromDeg + 180] as a caller computes it, the tail
    component and the score are the wind speed and the cross component is
    0. *)
Theorem scoreHeading_along_wind_binary64 (windFromDeg windSpeed : R) :
  -180 <= windFromDeg <= bpow 1000 -> isNumber windSpeed ->
  let along := Binary64Wind.scoreHeading (Fin windFromDeg) (Fin windSpeed)
                 (Binary64.add (Fin windFromDeg) (Fin 180)) None in
  Scored.tailComponent along = Fin windSpeed
  /\ Scored.crossComponent along = Fin 0
  /\ Scored.score along = Fin windSpeed.
Proof.
  intros Hwf Hws. unfold isNumber in Hws.
  assert (Hb : bpow 1000 + 180 <= bpow 1023).
  { pose proof (bpow_ge_1 1000 ltac:(lia)).
    replace 1023%Z with (1000 + 23)%Z by lia. rewrite bpow_add.
    replace (bpow 23) with 8388608 by (bpow_num; reflexivity). lra. }
  destruct (round_error (windFromDeg + 180)) as (t & Ht & _).
  { rewrite Rabs_right by lra. lra. }
  assert (Ht0 : 0 <= t).
  { apply round_Fin_inv in Ht. destruct Ht as [-> _]. apply roundReal_nonneg. lra. }
  destruct (clampDeg_fixed t Ht0) as (c & Hc & Hcc).
  assert (Hdelta : Binary64Wind.angleDiff (Fin t) (Fin c) = Fin 0).
  { unfold Binary64Wind.angleDiff. rewrite Hc, Hcc. cbn [Binary64.sub].
    replace (c - c) with 0 by ring. rewrite round_0. cbn [Binary64.add].
    replace (0 + 540) with (IZR 540) by lra. rewrite round_IZR by lia.
    rewrite (rem_Fin 360) by lra. rewrite Rrem_nonneg by lra.
    replace (Rfmod 540 360) with 180
      by (apply (Rfmod_unique 360 ltac:(lra) 540 180 1); lra).
    cbn [Binary64.sub]. replace (180 - 180) with 0 by ring. apply round_0. }
  assert (Hrad : Binary64Wind.toRad (Fin 0) = Fin 0).
  { unfold Binary64Wind.toRad, Binary64Wind.MathPI. cbn [Binary64.mul].
    rewrite Rmult_0_l, round_0. cbn [Binary64.div]. rewrite Reqb_false by lra.
    replace (0 / 180) with 0 by lra. apply round_0. }
  destruct (round_error 0.4) as (p & Hp & _).
  { rewrite Rabs_right by lra. pose proof bpow_1023_large. lra. }
  cbv zeta. unfold Binary64Wind.scoreHeading.
  cbn [Scored.tailComponent Scored.crossComponent Scored.score orDefault].
  cbn [Binary64.add]. rewrite Ht, Hc, Hdelta, Hrad.
  unfold Binary64Wind.cos, Binary64Wind.sin. rewrite cos_0, sin_0.
  replace 1 with (IZR 1) at 1 by reflexivity. rewrite round_IZR by lia. rewrite round_0.
  unfold Binary64.lit. rewrite Hp. cbn [Binary64.mul Num.abs].
  rewrite Rmult_1_r, Rmult_0_r, Hws, round_0.
  assert (Ha : Num.abs (Fin 0) = Fin 0) by (cbn [Num.abs]; now rewrite Rabs_R0).
  rewrite Ha, Rmult_0_r, round_0. cbn [Binary64.sub]. rewrite Rminus_0_r, Hws.
  repeat split.
Qed.

(** A west wind of 12. *)
Lemma scoreHeading_along_wind_binary64_witness :
  Scored.tailComponent (Binary64Wind.scoreHeading (Fin 270) (Fin 12)
                          (Binary64.add (Fin 270) (Fin 180)) None) = Fin 12
  /\ Scored.crossComponent (Binary64Wind.scoreHeading (Fin 270) (Fin 12)
                              (Binary64.add (Fin 270) (Fin 180)) None) = Fin 0
  /\ Scored.score (Binary64Wind.scoreHeading (Fin 270) (Fin 12)
                     (Binary64.add (Fin 270) (Fin 180)) None) = Fin 12.
Proof.
  apply (scoreHeading_along_wind_binary64 270 12).
  - split; [lra|]. apply Rle_trans with (bpow 20); [bpow_num; lra | apply bpow_le; lia].
  - unfold isNumber. apply (round_IZR 12). lia.
Defined.

End AlongTheWindBinary64.
